(** * OCR batch processors: [main.py] (Tesseract) and [paddle_ocr.py] (PaddleOCR)

    A shallow embedding of the two command-line programs of the repository
    and the properties of their document-to-text pipeline: file-type
    dispatch, PDF page extraction, size normalisation, normalisation of the
    engine output, failure isolation, batch accounting, result writing and
    the footprint of the programs on the file system.

    Conventions of the embedding.
    - Python [str] is [string]; its characters are the code points below
      256, so case mapping and white space are those of Latin-1.
    - Python [float] is binary64.  A finite float is the rational it
      denotes, and every arithmetic operation is the exact result rounded
      to the nearest float, ties to even ([fl]).  The exponent range is left
      unbounded: the values that occur here are far from overflow and from
      the subnormal range.
    - [os.path] is [posixpath].
    - The file system, the clock and the exceptions are explicit: a
      computation is a function from a [World] to an outcome ([Ok] or
      [Raise]) and the next [World].
    - The OCR engines, the PDF renderer and the image codec are external;
      the engines are oracles of the environment records [TesseractEnv]
      and [PaddleEnv].
    - [print] and [traceback.print_exc] are not modelled. *)

From Stdlib Require Import ZArith QArith Qabs Qround Qpower Lia Lqa.
From Stdlib Require Import Ascii String.
From Stdlib Require Floats.SpecFloat.
From stdpp Require Import gmap strings list pretty.

Open Scope Z_scope.
Set Warnings "-register-all".

(* ===================================================================== *)
(** * Binary64 arithmetic                                                  *)
(* ===================================================================== *)

Module Float.

(** [2 ^ k] for any integer [k]. *)
Definition pow2 (k : Z) : Q := Qpower 2 k.

(** [floor (log2 q)] for [0 < q]: a first guess from the bit lengths of
    numerator and denominator, off by at most one, then adjusted. *)
Definition ilog2 (q : Q) : Z :=
  let k := Z.log2 (Qnum q) - Z.log2 (Zpos (Qden q)) in
  if Qle_bool (pow2 k) q then k else k - 1.

(** Nearest integer, ties to even. *)
Definition round_half_even (q : Q) : Z :=
  let f := Qfloor q in
  match Qcompare (q - inject_Z f) (1 # 2) with
  | Lt => f
  | Gt => f + 1
  | Eq => if Z.even f then f else f + 1
  end.

(** Rounding of a positive rational to 53 significant bits. *)
Definition fl_pos (q : Q) : Q :=
  let s := ilog2 q - 52 in
  (inject_Z (round_half_even (q / pow2 s)) * pow2 s)%Q.

(** Rounding to the nearest binary64 number. *)
Definition fl (q : Q) : Q :=
  match Qcompare q 0 with
  | Eq => 0%Q
  | Gt => fl_pos q
  | Lt => (- fl_pos (- q))%Q
  end.

(** Unit roundoff [2 ^ -53]. *)
Definition ulp53 : Q := 1 # 9007199254740992.

(** [int(x)] of a float: truncation towards zero. *)
Definition py_int (q : Q) : Z := Z.quot (Qnum q) (Zpos (Qden q)).

(** [a / b] of two Python ints, [b] non-zero: the correctly rounded
    quotient. *)
Definition truediv (a b : Z) : Q := fl (inject_Z a / inject_Z b).

(** [a * r] of a Python int below [2 ^ 53] and a float. *)
Definition mul_int (a : Z) (r : Q) : Q := fl (inject_Z a * r).

(** The same operations on the IEEE 754 specification of the kernel
    library, used to cross-check [fl] on concrete inputs. *)
Definition b64_of_Z (z : Z) : SpecFloat.spec_float :=
  SpecFloat.binary_normalize 53 1024 z 0 false.

Definition b64_value (x : SpecFloat.spec_float) : option Q :=
  match x with
  | SpecFloat.S754_zero _ => Some 0%Q
  | SpecFloat.S754_finite s m e =>
      let v := if (0 <=? e)%Z then inject_Z (Zpos m * 2 ^ e)
               else (Zpos m # Pos.shiftl 1 (Z.to_N (- e)))%Q in
      Some (if s then Qopp v else v)
  | _ => None
  end.

Definition b64_scale (d L M : Z) : option Q :=
  b64_value (SpecFloat.SFmul 53 1024 (b64_of_Z d)
               (SpecFloat.SFdiv 53 1024 (b64_of_Z L) (b64_of_Z M))).

End Float.

(* ===================================================================== *)
(** * Python values, exceptions and strings                                *)
(* ===================================================================== *)

(** The exception classes the programs distinguish.  [Exception] stands
    for every other subclass of [Exception] (engine and renderer errors). *)
Inductive exn :=
| IndexError | ValueError | TypeError | AttributeError
| OSError | ZeroDivisionError | OverflowError | Exception (msg : string).

Inductive Result (A : Type) :=
| Ok (a : A)
| Raise (e : exn).
Arguments Ok {A} a.
Arguments Raise {A} e.

(** The values an engine can hand over: [None], [bool], [int], a finite
    [float] (the rational it denotes; [nan] and the infinities are left
    out), [str], [list] or [tuple], and an object without [__len__],
    [__getitem__], [__iter__], [__float__] or [strip] ([PObj], for
    instance a bare [object()]). *)
Inductive PyVal :=
| PNone
| PBool (b : bool)
| PInt (z : Z)
| PFloat (q : Q)
| PStr (s : string)
| PList (l : list PyVal)
| PObj (name : string).

Definition char_str (c : ascii) : string := String c EmptyString.

(** [len(x)] *)
Definition py_len (x : PyVal) : Result Z :=
  match x with
  | PStr s => Ok (Z.of_nat (String.length s))
  | PList l => Ok (Z.of_nat (length l))
  | _ => Raise TypeError
  end.

(** [x[i]] for a constant index [i >= 0]. *)
Definition py_index (x : PyVal) (i : nat) : Result PyVal :=
  match x with
  | PStr s =>
      match String.get i s with
      | Some c => Ok (PStr (char_str c))
      | None => Raise IndexError
      end
  | PList l =>
      match l !! i with
      | Some v => Ok v
      | None => Raise IndexError
      end
  | _ => Raise TypeError
  end.

(** The items [for ... in x] visits. *)
Definition py_iter (x : PyVal) : Result (list PyVal) :=
  match x with
  | PStr s => Ok (map (fun c => PStr (char_str c)) (list_ascii_of_string s))
  | PList l => Ok l
  | _ => Raise TypeError
  end.

(** [float(x)]. The conversion of a string is the environment's
    ([str_float]); an int is rounded to the nearest float and overflows
    from [2 ^ 1024] on. *)
Definition py_float (str_float : string -> Result Q) (x : PyVal) : Result Q :=
  match x with
  | PFloat q => Ok q
  | PBool b => Ok (if b then 1%Q else 0%Q)
  | PInt z =>
      let r := Float.fl (inject_Z z) in
      if Qle_bool (inject_Z (2 ^ 1024)) (Qabs r) then Raise OverflowError
      else Ok r
  | PStr s => str_float s
  | _ => Raise TypeError
  end.

(** ** Strings *)

Definition is_upper (c : ascii) : bool :=
  let n := nat_of_ascii c in
  ((65 <=? n) && (n <=? 90) || (192 <=? n) && (n <=? 222) && negb (n =? 215))%nat.

Definition lower_char (c : ascii) : ascii :=
  if is_upper c then ascii_of_nat (nat_of_ascii c + 32) else c.

(** [s.lower()] *)
Fixpoint lower (s : string) : string :=
  match s with
  | EmptyString => EmptyString
  | String c r => String (lower_char c) (lower r)
  end.

(** White space as [str.isspace] and [str.strip] see it. *)
Definition is_space (c : ascii) : bool :=
  let n := nat_of_ascii c in
  ((9 <=? n) && (n <=? 13) || (28 <=? n) && (n <=? 32)
   || (n =? 133) || (n =? 160))%nat.

Fixpoint lstrip (s : string) : string :=
  match s with
  | EmptyString => EmptyString
  | String c r => if is_space c then lstrip r else s
  end.

Fixpoint rstrip (s : string) : string :=
  match s with
  | EmptyString => EmptyString
  | String c r =>
      match rstrip r with
      | EmptyString => if is_space c then EmptyString else char_str c
      | r' => String c r'
      end
  end.

(** [s.strip()] *)
Definition strip (s : string) : string := rstrip (lstrip s).

(** Truth value of a string: non-empty. *)
Definition str_truthy (s : string) : bool :=
  match s with EmptyString => false | _ => true end.

(** A blank entry: empty or white space only. *)
Fixpoint blank (s : string) : bool :=
  match s with
  | EmptyString => true
  | String c r => is_space c && blank r
  end.

Definition nonblank (s : string) : bool := negb (blank s).

(** ["\n".join(parts)] *)
Definition newline : string := char_str (ascii_of_nat 10).

Fixpoint join (sep : string) (parts : list string) : string :=
  match parts with
  | [] => EmptyString
  | [p] => p
  | p :: rest => p +:+ sep +:+ join sep rest
  end.

(** [s.rfind(c)], [-1] when [c] does not occur. *)
Fixpoint rfind_from (c : ascii) (s : string) (i : Z) (last : Z) : Z :=
  match s with
  | EmptyString => last
  | String d r => rfind_from c r (i + 1) (if Ascii.eqb c d then i else last)
  end.

Definition rfind (c : ascii) (s : string) : Z := rfind_from c s 0 (-1).

(** [s[i:j]] for [0 <= i]. *)
Definition slice (s : string) (i j : Z) : string :=
  String.substring (Z.to_nat i) (Z.to_nat (j - i)) s.

Definition slice_from (s : string) (i : Z) : string :=
  String.substring (Z.to_nat i) (String.length s - Z.to_nat i) s.

(** The loop of [genericpath._splitext] that skips leading dots: [true]
    when some character in [p[filenameIndex:dotIndex]] is not a dot. *)
Fixpoint stem_has_char (p : string) (filenameIndex : Z) (count : nat) : bool :=
  match count with
  | O => false
  | S count' =>
      if negb (String.eqb (slice p filenameIndex (filenameIndex + 1)) ".")
      then true
      else stem_has_char p (filenameIndex + 1) count'
  end.

(** [os.path.splitext(p)] *)
Definition splitext (p : string) : string * string :=
  let sepIndex := rfind "/" p in
  let dotIndex := rfind "." p in
  if (sepIndex <? dotIndex)
     && stem_has_char p (sepIndex + 1) (Z.to_nat (dotIndex - (sepIndex + 1)))
  then (slice p 0 dotIndex, slice_from p dotIndex)
  else (p, EmptyString).

(** [os.path.basename(p)] *)
Definition basename (p : string) : string := slice_from p (rfind "/" p + 1).

Definition ends_with_sep (a : string) : bool :=
  match String.get (String.length a - 1) a with
  | Some c => Ascii.eqb c "/"
  | None => false
  end.

(** [os.path.join(a, b)] *)
Definition path_join (a b : string) : string :=
  match b with
  | String "/" _ => b
  | _ => if negb (str_truthy a) || ends_with_sep a then a +:+ b
         else a +:+ "/" +:+ b
  end.

(** [os.path.splitext(p)[1].lower()] *)
Definition file_ext (p : string) : string := lower (snd (splitext p)).

(** Membership in a tuple of strings, [x in (...)]. *)
Definition str_in (x : string) (l : list string) : bool :=
  existsb (String.eqb x) l.

(* ===================================================================== *)
(** * Computations: state, exceptions, [try] / [except]                    *)
(* ===================================================================== *)

(** A computation over a state [S] that returns an [A] or raises.  The
    state reached when an exception is raised is kept: nothing is rolled
    back. *)
Definition St (S A : Type) : Type := S -> Result A * S.

Definition ret {S A} (a : A) : St S A := fun s => (Ok a, s).

Definition raise {S A} (e : exn) : St S A := fun s => (Raise e, s).

Definition bind {S A B} (c : St S A) (k : A -> St S B) : St S B :=
  fun s =>
    match c s with
    | (Ok a, s') => k a s'
    | (Raise e, s') => (Raise e, s')
    end.

Definition lift {S A} (r : Result A) : St S A := fun s => (r, s).

(** [try: c except Exception: h] *)
Definition try_except {S A} (c : St S A) (h : exn -> St S A) : St S A :=
  fun s =>
    match c s with
    | (Ok a, s') => (Ok a, s')
    | (Raise e, s') => h e s'
    end.

(** [try: c except (E1, E2, ...): h], the listed classes given by
    [catches]. *)
Definition try_except_only {S A} (catches : exn -> bool)
    (c : St S A) (h : exn -> St S A) : St S A :=
  fun s =>
    match c s with
    | (Ok a, s') => (Ok a, s')
    | (Raise e, s') => if catches e then h e s' else (Raise e, s')
    end.

Notation "'let*' x ':=' c 'in' k" := (bind c (fun x => k))
  (at level 10, x name, c at level 100, k at level 200).
Notation "'let*' ' p ':=' c 'in' k" := (bind c (fun x => match x with p => k end))
  (at level 10, p pattern, c at level 100, k at level 200).

(** A computation that cannot raise, whatever the state. *)
Definition total {S A} (c : St S A) : Prop :=
  forall s, exists a s', c s = (Ok a, s').

(** Bind of a pure fallible expression. *)
Definition rbind {A B} (r : Result A) (k : A -> Result B) : Result B :=
  match r with
  | Ok a => k a
  | Raise e => Raise e
  end.

Notation "'let?' x ':=' c 'in' k" := (rbind c (fun x => k))
  (at level 10, x name, c at level 100, k at level 200).

(* ===================================================================== *)
(** * The world: file system and clock                                     *)
(* ===================================================================== *)

(** A decoded raster image: what [PIL.Image] exposes to the programs. *)
Record image := {
  img_size : Z * Z;      (* (width, height) *)
  img_mode : string;
  img_data : nat         (* the picture, opaque *)
}.

(** JSON text, up to the layout of separators and the rendering of
    scalars: the sequence of tokens [json.dump] emits. *)
Inductive token :=
| TokOpenArr | TokCloseArr | TokOpenObj | TokCloseObj
| TokKey (k : string)
| TokNull | TokBool (b : bool) | TokInt (z : Z) | TokFloat (q : Q)
| TokStr (s : string).

Inductive content :=
| CImage (i : image)              (* a decodable image file *)
| CPdf (pages : list image)       (* a PDF and the pages it renders to *)
| CText (toks : list token)       (* a text file written by [json.dump] *)
| CDir (names : list string)      (* a directory and its entries *)
| CJunk.                          (* anything else: corrupt or foreign data *)

(** [locked] holds the paths that cannot be created, overwritten or
    removed (permissions, missing parent directory, read-only medium). *)
Record World := {
  fs : gmap string content;
  locked : gset string;
  clock : nat
}.

Definition M (A : Type) : Type := St World A.

Definition set_fs (f : gmap string content -> gmap string content) (W : World) : World :=
  {| fs := f (fs W); locked := locked W; clock := clock W |}.

(** [datetime.now().isoformat()]: the reading of the clock, which then
    advances. *)
Definition now : M nat :=
  fun W => (Ok (clock W), {| fs := fs W; locked := locked W; clock := S (clock W) |}).

(** [Image.open(path)] together with the decoding its first use forces. *)
Definition image_open (path : string) : M image :=
  fun W =>
    match fs W !! path with
    | Some (CImage i) => (Ok i, W)
    | _ => (Raise OSError, W)
    end.

(** [img.save(path)] *)
Definition image_save (img : image) (path : string) : M unit :=
  fun W =>
    if decide (path ∈ locked W) then (Raise OSError, W)
    else (Ok tt, set_fs (insert path (CImage img)) W).

(** [os.remove(path)] *)
Definition os_remove (path : string) : M unit :=
  fun W =>
    match fs W !! path with
    | Some (CDir _) | None => (Raise OSError, W)
    | Some _ =>
        if decide (path ∈ locked W) then (Raise OSError, W)
        else (Ok tt, set_fs (delete path) W)
    end.

(** [pdf2image.convert_from_path(path)] *)
Definition convert_from_path (path : string) : M (list image) :=
  fun W =>
    match fs W !! path with
    | Some (CPdf pages) => (Ok pages, W)
    | _ => (Raise (Exception "PDFPageCountError"), W)
    end.

Definition path_exists (path : string) : M bool :=
  fun W => (Ok (bool_decide (is_Some (fs W !! path))), W).

Definition path_isdir (path : string) : M bool :=
  fun W => (Ok (match fs W !! path with Some (CDir _) => true | _ => false end), W).

Definition path_isfile (path : string) : M bool :=
  fun W => (Ok (match fs W !! path with
                | Some (CDir _) | None => false
                | Some _ => true
                end), W).

(** [os.listdir(path)] *)
Definition listdir (path : string) : M (list string) :=
  fun W =>
    match fs W !! path with
    | Some (CDir names) => (Ok names, W)
    | _ => (Raise OSError, W)
    end.

(** [os.makedirs(path, exist_ok=True)] *)
Definition makedirs (path : string) : M unit :=
  fun W =>
    match fs W !! path with
    | Some (CDir _) => (Ok tt, W)
    | Some _ => (Raise OSError, W)
    | None =>
        if decide (path ∈ locked W) then (Raise OSError, W)
        else (Ok tt, set_fs (insert path (CDir [])) W)
    end.

(** [open(path, 'w')]: the file is created, or truncated when it exists. *)
Definition open_w (path : string) : M unit :=
  fun W =>
    match fs W !! path with
    | Some (CDir _) => (Raise OSError, W)
    | _ =>
        if decide (path ∈ locked W) then (Raise OSError, W)
        else (Ok tt, set_fs (insert path (CText [])) W)
    end.



(** ** JSON *)

Inductive json :=
| JNull
| JBool (b : bool)
| JInt (z : Z)
| JFloat (q : Q)
| JStr (s : string)
| JArr (items : list json)
| JObj (fields : list (string * json))
| JOpaque (name : string).   (* an object [json] cannot serialise *)

(** The tokens the encoder emits for [j], and whether it ran to the end:
    at an object it cannot serialise it raises [TypeError], after the
    tokens before that object have been emitted. *)
Fixpoint json_tokens (j : json) : list token * bool :=
  match j with
  | JNull => ([TokNull], true)
  | JBool b => ([TokBool b], true)
  | JInt z => ([TokInt z], true)
  | JFloat q => ([TokFloat q], true)
  | JStr s => ([TokStr s], true)
  | JOpaque _ => ([], false)
  | JArr items =>
      let fix go (l : list json) : list token * bool :=
        match l with
        | [] => ([TokCloseArr], true)
        | x :: r =>
            match json_tokens x with
            | (t, true) => let (t', ok) := go r in (t ++ t', ok)
            | (t, false) => (t, false)
            end
        end in
      let (t, ok) := go items in (TokOpenArr :: t, ok)
  | JObj fields =>
      let fix go (l : list (string * json)) : list token * bool :=
        match l with
        | [] => ([TokCloseObj], true)
        | (k, x) :: r =>
            match json_tokens x with
            | (t, true) => let (t', ok) := go r in (TokKey k :: t ++ t', ok)
            | (t, false) => (TokKey k :: t, false)
            end
        end in
      let (t, ok) := go fields in (TokOpenObj :: t, ok)
  end.

(** [json.dump(data, f)] on the file opened at [path]: what the encoder
    emitted reaches the file, also when it then raises. *)
Definition json_dump (j : json) (path : string) : M unit :=
  fun W =>
    let (toks, ok) := json_tokens j in
    let W' := set_fs (insert path (CText toks)) W in
    if ok then (Ok tt, W') else (Raise TypeError, W').

Fixpoint pyval_json (v : PyVal) : json :=
  match v with
  | PNone => JNull
  | PBool b => JBool b
  | PInt z => JInt z
  | PFloat q => JFloat q
  | PStr s => JStr s
  | PList l => JArr (map pyval_json l)
  | PObj name => JOpaque name
  end.

(** What a processing function returns for one file: a single record
    (image) or a list of records (PDF). *)
Inductive ResultData (D : Type) :=
| Single (d : D)
| Pages (l : list D).
Arguments Single {D} d.
Arguments Pages {D} l.

(** Truth value of [None], a non-empty dict, or a list. *)
Definition truthy {D} (data : option (ResultData D)) : bool :=
  match data with
  | None => false
  | Some (Single _) => true
  | Some (Pages l) => match l with [] => false | _ => true end
  end.

Definition data_json {D} (enc : D -> json) (data : ResultData D) : json :=
  match data with
  | Single d => enc d
  | Pages l => JArr (map enc l)
  end.

Definition size_json (sz : Z * Z) : json := JArr [JInt (fst sz); JInt (snd sz)].

(** Where the artifact of [input_filename] goes. *)
Definition output_path (output_dir input_filename : string) : string :=
  path_join output_dir (fst (splitext (basename input_filename)) +:+ ".json").

(** What an attempt to write [j] at [path] leaves behind: on success the
    whole token sequence; on failure either nothing was touched (the file
    could not be opened) or the file was opened, which emptied it, and
    holds the tokens emitted before the encoder raised. *)
Definition artifact_outcome (j : json) (path : string)
    (W : World) (saved : bool) (W' : World) : Prop :=
  let (toks, ok) := json_tokens j in
  if saved then ok = true /\ W' = set_fs (insert path (CText toks)) W
  else W' = W \/ (ok = false /\ W' = set_fs (insert path (CText toks)) W).

Inductive loop_ctl := Break | Continue.

(* ===================================================================== *)
(** * [main.py]: the Tesseract processor                                   *)
(* ===================================================================== *)

Module Tesseract.

(** The [pytesseract] capability. *)
Record TesseractEnv := {
  image_to_string : image -> Result string;
  get_tesseract_version : Result PyVal
}.

(** One result dict. [page_number] is present for PDF pages only. *)
Record Doc := {
  filename : string;
  filetype : string;
  page_number : option nat;
  text : string;
  timestamp : nat;
  image_size : Z * Z;
  image_mode : string;
  ocr_engine : string
}.

Definition doc_json (d : Doc) : json :=
  JObj ([("filename", JStr (filename d)); ("filetype", JStr (filetype d))]
        ++ match page_number d with
           | Some n => [("page_number", JInt (Z.of_nat n))]
           | None => []
           end
        ++ [("text", JStr (text d));
            ("timestamp", JStr (pretty (timestamp d)));
            ("metadata",
             JObj [("image_size", size_json (image_size d));
                   ("image_mode", JStr (image_mode d));
                   ("ocr_engine", JStr (ocr_engine d))])]).

(** ["Tesseract " + v] *)
Definition str_add (s : string) (v : PyVal) : Result string :=
  match v with
  | PStr t => Ok (s +:+ t)
  | _ => Raise TypeError
  end.

(** The tuple of [process_single_file]. *)
Definition image_extensions : list string :=
  [".jpg"; ".jpeg"; ".png"; ".bmp"; ".tiff"; ".gif"].

Section Processor.
Variable E : TesseractEnv.
Variable output_dir : string.

Definition process_image (image_path : string) : M (option Doc) :=
  try_except
    (let* img := image_open image_path in
     let* text := lift (image_to_string E img) in
     let* ts := now in
     let* engine := lift (let? v := get_tesseract_version E in
                          str_add "Tesseract " v) in
     ret (Some {| filename := basename image_path;
                  filetype := "image";
                  page_number := None;
                  text := text;
                  timestamp := ts;
                  image_size := img_size img;
                  image_mode := img_mode img;
                  ocr_engine := engine |}))
    (fun _ => ret None).

(** The loop [for i, img in enumerate(images)] of [process_pdf]. *)
Fixpoint process_pdf_pages (pdf_path : string) (images : list image)
    (i : nat) (results : list Doc) : M (list Doc) :=
  match images with
  | [] => ret results
  | img :: rest =>
      let* text := lift (image_to_string E img) in
      let* ts := now in
      let* engine := lift (let? v := get_tesseract_version E in
                           str_add "Tesseract " v) in
      process_pdf_pages pdf_path rest (S i)
        (results ++ [{| filename := basename pdf_path;
                        filetype := "pdf";
                        page_number := Some (i + 1)%nat;
                        text := text;
                        timestamp := ts;
                        image_size := img_size img;
                        image_mode := img_mode img;
                        ocr_engine := engine |}])
  end.

Definition process_pdf (pdf_path : string) : M (option (list Doc)) :=
  try_except
    (let* images := convert_from_path pdf_path in
     let* results := process_pdf_pages pdf_path images 0 [] in
     ret (Some results))
    (fun _ => ret None).

Definition save_results (data : option (ResultData Doc))
    (input_filename : string) : M bool :=
  if negb (truthy data) then ret false
  else
    try_except
      (let base_name := fst (splitext (basename input_filename)) in
       let output_filename := base_name +:+ ".json" in
       let output_path := path_join output_dir output_filename in
       let* _ := open_w output_path in
       let* _ := match data with
                 | Some d => json_dump (data_json doc_json d) output_path
                 | None => ret tt
                 end in
       ret true)
      (fun _ => ret false).

Definition process_single_file (file_path : string)
    : M (option (ResultData Doc)) :=
  let file_ext := file_ext file_path in
  if str_in file_ext image_extensions then
    let* r := process_image file_path in ret (option_map Single r)
  else if String.eqb file_ext ".pdf" then
    let* r := process_pdf file_path in ret (option_map Pages r)
  else ret None.

(** The loop [for filename in os.listdir(dir_path)] of
    [process_directory], on the counters [(processed_files,
    skipped_files)]. *)
Fixpoint process_entries (dir_path : string) (names : list string)
    (counts : nat * nat) : M (nat * nat) :=
  match names with
  | [] => ret counts
  | filename :: rest =>
      let '(processed_files, skipped_files) := counts in
      let file_path := path_join dir_path filename in
      let* isf := path_isfile file_path in
      if isf then
        let* result := process_single_file file_path in
        match result with
        | Some _ =>
            let* saved := save_results result file_path in
            if saved then
              process_entries dir_path rest (S processed_files, skipped_files)
            else
              process_entries dir_path rest (processed_files, S skipped_files)
        | None =>
            process_entries dir_path rest (processed_files, S skipped_files)
        end
      else process_entries dir_path rest counts
  end.

(** [process_directory], returning the two counters it prints; the
    value the source returns is [processed_files > 0]. *)
Definition process_directory_counts (dir_path : string) : M (nat * nat) :=
  let* names := listdir dir_path in
  process_entries dir_path names (0, 0)%nat.

Definition process_directory (dir_path : string) : M bool :=
  let* '(processed_files, _) := process_directory_counts dir_path in
  ret (0 <? processed_files)%nat.

End Processor.

(** Some stage of the chain for the image at [path] raises: decoding
    or recognition. *)
Definition pipeline_raises (E : TesseractEnv) (path : string) (W : World)
    : Prop :=
  (exists e, image_open path W = (Raise e, W)) \/
  (exists img e, image_open path W = (Ok img, W) /\
                 image_to_string E img = Raise e).

(** The default of [OCRProcessor.__init__]. *)
Definition default_output_dir : string := "OUTPUT\Processed Purchases".

(** [OCRProcessor()] *)
Definition new_processor : M string :=
  let* _ := makedirs default_output_dir in
  ret default_output_dir.

Definition input_path : string := "DATA\Processed Purchases".


(** One pass through the body of [while True] in [main]. *)
Definition main_body (E : TesseractEnv) : M loop_ctl :=
  if String.eqb (lower input_path) "quit" then ret Break
  else
    let* ex := path_exists input_path in
    if negb ex then ret Continue
    else
      let* out := new_processor in
      let* isf := path_isfile input_path in
      if isf then
        let* result := process_single_file E input_path in
        if truthy result then
          let* _ := save_results out result input_path in
          ret Continue
        else ret Continue
      else
        let* isd := path_isdir input_path in
        if isd then
          let* _ := process_directory E out input_path in
          ret Continue
        else ret Continue.

(** [main], run for at most [fuel] passes of its loop: [Ok None] when
    the loop is still running after that many passes, [Ok (Some tt)]
    when it was left through [break]. *)
Fixpoint main (E : TesseractEnv) (fuel : nat) : M (option unit) :=
  match fuel with
  | O => ret None
  | S fuel' =>
      let* c := main_body E in
      match c with
      | Break => ret (Some tt)
      | Continue => main E fuel'
      end
  end.

End Tesseract.

(* ===================================================================== *)
(** * [paddle_ocr.py]: the PaddleOCR processor                             *)
(* ===================================================================== *)

Module Paddle.

(** The PaddleOCR capability and the process identity. [predict] is the
    engine on a decoded image, [str_float] is [float] on a string. *)
Record PaddleEnv := {
  paddle_init : Result unit;
  predict : image -> Result PyVal;
  str_float : string -> Result Q;
  getpid : nat
}.

Record TextBlock := {
  block_id : nat;
  block_text : PyVal;
  confidence : Q;
  coordinates : PyVal
}.

(** One result dict. [page_number] is added by [process_pdf]. *)
Record Doc := {
  filename : string;
  filetype : string;
  text_blocks : list TextBlock;
  full_text : string;
  timestamp : nat;
  image_size : Z * Z;
  image_mode : string;
  ocr_engine : string;
  total_blocks : nat;
  page_number : option nat
}.

Definition block_json (b : TextBlock) : json :=
  JObj [("block_id", JInt (Z.of_nat (block_id b)));
        ("text", pyval_json (block_text b));
        ("confidence", JFloat (confidence b));
        ("coordinates", pyval_json (coordinates b))].

Definition doc_json (d : Doc) : json :=
  JObj ([("filename", JStr (filename d));
         ("filetype", JStr (filetype d));
         ("text_blocks", JArr (map block_json (text_blocks d)));
         ("full_text", JStr (full_text d));
         ("timestamp", JStr (pretty (timestamp d)));
         ("metadata",
          JObj [("image_size", size_json (image_size d));
                ("image_mode", JStr (image_mode d));
                ("ocr_engine", JStr (ocr_engine d));
                ("total_blocks", JInt (Z.of_nat (total_blocks d)))])]
        ++ match page_number d with
           | Some n => [("page_number", JInt (Z.of_nat n))]
           | None => []
           end).

(** [a / b] on ints. *)
Definition py_truediv (a b : Z) : Result Q :=
  if b =? 0 then Raise ZeroDivisionError else Ok (Float.truediv a b).

(** [img.resize(new_size, LANCZOS)]: Pillow refuses a size with a
    dimension below one. *)
Definition pil_resize (img : image) (new_size : Z * Z) : Result image :=
  if (fst new_size <? 1) || (snd new_size <? 1) then Raise ValueError
  else Ok {| img_size := new_size;
             img_mode := img_mode img;
             img_data := img_data img |}.

Definition default_max_size : Z := 4000.

Definition resize_image (image_path : string) (max_size : Z) : M string :=
  let* img := image_open image_path in
  let '(width, height) := img_size img in
  if max_size <? Z.max width height then
    let* ratio := lift (py_truediv max_size (Z.max width height)) in
    let new_size := (Float.py_int (Float.mul_int width ratio),
                     Float.py_int (Float.mul_int height ratio)) in
    let* img' := lift (pil_resize img new_size) in
    let resized_image_path := "resized_" +:+ basename image_path in
    let* _ := image_save img' resized_image_path in
    ret resized_image_path
  else ret image_path.

(** A dimension [d'] is [d] scaled by [L / M] within rounding: the
    exact quotient [d * L / M] rounded down, or one less where the
    quotient is an integer that the floating-point product falls just
    short of. *)
Definition scaled_within_rounding (d L M d' : Z) : Prop :=
  d' = d * L / M \/ (d' = d * L / M - 1 /\ (d * L) mod M = 0).

(** The size [resize_image] computes for a [w] by [h] page. *)
Definition scaled_size (w h L : Z) : Z * Z :=
  (Float.py_int (Float.mul_int w (Float.truediv L (Z.max w h))),
   Float.py_int (Float.mul_int h (Float.truediv L (Z.max w h)))).

(** The lists [text_blocks] and [full_text_parts] of [process_image]. *)
Definition Acc : Type := list TextBlock * list string.

Definition append_block (b : TextBlock) : St Acc unit :=
  fun a => (Ok tt, (fst a ++ [b], snd a)).

Definition append_part (s : string) : St Acc unit :=
  fun a => (Ok tt, (fst a, snd a ++ [s])).

(** [except (IndexError, ValueError, TypeError)] *)
Definition parse_error (e : exn) : bool :=
  match e with
  | IndexError | ValueError | TypeError => true
  | _ => false
  end.

(** [except OSError] *)
Definition os_error (e : exn) : bool :=
  match e with
  | OSError => true
  | _ => false
  end.

(** The tuple of [process_file]. *)
Definition image_extensions : list string :=
  [".jpg"; ".jpeg"; ".png"; ".bmp"; ".tiff"; ".webp"].

Section Processor.
Variable E : PaddleEnv.
Variable output_dir : string.

(** [self.ocr.predict(path)]: the engine reads and decodes the file. *)
Definition predict_file (path : string) : M PyVal :=
  fun W =>
    match fs W !! path with
    | Some (CImage i) => (predict E i, W)
    | _ => (Raise (Exception "cannot read image"), W)
    end.

(** [block[1][0] if len(block) > 1 and len(block[1]) > 0 else ""] *)
Definition parse_text (block : PyVal) : Result PyVal :=
  let? n := py_len block in
  if 1 <? n then
    let? b1 := py_index block 1 in
    let? n1 := py_len b1 in
    if 0 <? n1 then py_index b1 0 else Ok (PStr "")
  else Ok (PStr "").

(** [float(block[1][1]) if len(block) > 1 and len(block[1]) > 1 else 0.0] *)
Definition parse_confidence (block : PyVal) : Result Q :=
  let? n := py_len block in
  if 1 <? n then
    let? b1 := py_index block 1 in
    let? n1 := py_len b1 in
    if 1 <? n1 then
      let? c := py_index b1 1 in py_float (str_float E) c
    else Ok 0%Q
  else Ok 0%Q.

(** [block[0] if len(block) > 0 else []] *)
Definition parse_coordinates (block : PyVal) : Result PyVal :=
  let? n := py_len block in
  if 0 <? n then py_index block 0 else Ok (PList []).

(** The body of the loop over the blocks of a page, with its
    [try] / [except]. *)
Definition parse_block (idx : nat) (block : PyVal) : St Acc unit :=
  try_except_only parse_error
    (let* text := lift (parse_text block) in
     let* conf := lift (parse_confidence block) in
     let* coords := lift (parse_coordinates block) in
     let* _ := append_block {| block_id := idx;
                               block_text := text;
                               confidence := conf;
                               coordinates := coords |} in
     match text with
     | PStr s => if str_truthy (strip s) then append_part s else ret tt
     | _ => raise AttributeError        (* no attribute [strip] *)
     end)
    (fun _ => ret tt).

(** [for idx, block in enumerate(page_result)] *)
Fixpoint parse_blocks (idx : nat) (blocks : list PyVal) : St Acc unit :=
  match blocks with
  | [] => ret tt
  | block :: rest =>
      let* _ := parse_block idx block in
      parse_blocks (S idx) rest
  end.

(** The body of the loop over the pages:
    [if page_result is not None: for idx, block in ...] *)
Definition parse_page (page_result : PyVal) : St Acc unit :=
  match page_result with
  | PNone => ret tt
  | _ => let* blocks := lift (py_iter page_result) in
         parse_blocks 0 blocks
  end.

(** [for page_idx, page_result in enumerate(result)] *)
Fixpoint parse_pages (pages : list PyVal) : St Acc unit :=
  match pages with
  | [] => ret tt
  | page_result :: rest =>
      let* _ := parse_page page_result in
      parse_pages rest
  end.

(** The extraction of all blocks from the engine's output, started on
    two empty lists. *)
Definition extract (result : PyVal) : Result Acc :=
  let c : St Acc unit :=
    match result with
    | PNone => ret tt
    | _ => let* pages := lift (py_iter result) in parse_pages pages
    end in
  match c ([], []) with
  | (Ok _, acc) => Ok acc
  | (Raise e, _) => Raise e
  end.

Definition process_image (image_path : string) : M (option Doc) :=
  try_except
    (let* resized_image_path := resize_image image_path default_max_size in
     let* result := predict_file resized_image_path in
     let* '(text_blocks, full_text_parts) := lift (extract result) in
     let* _ := if negb (String.eqb resized_image_path image_path) then
                 try_except_only os_error
                   (os_remove resized_image_path) (fun _ => ret tt)
               else ret tt in
     let* ts := now in
     let* img1 := image_open image_path in
     let* img2 := image_open image_path in
     ret (Some {| filename := basename image_path;
                  filetype := "image";
                  text_blocks := text_blocks;
                  full_text := join newline full_text_parts;
                  timestamp := ts;
                  image_size := img_size img1;
                  image_mode := img_mode img2;
                  ocr_engine := "PaddleOCR";
                  total_blocks := length text_blocks;
                  page_number := None |}))
    (fun _ => ret None).

(** [temp_page_{i+1}_{os.getpid()}.jpg] *)
Definition temp_page_path (i : nat) : string :=
  "temp_page_" +:+ pretty (i + 1)%nat +:+ "_" +:+ pretty (getpid E) +:+ ".jpg".

(** [page_result["page_number"] = i + 1; page_result["filetype"] = "pdf_page"] *)
Definition as_pdf_page (d : Doc) (i : nat) : Doc :=
  {| filename := filename d;
     filetype := "pdf_page";
     text_blocks := text_blocks d;
     full_text := full_text d;
     timestamp := timestamp d;
     image_size := image_size d;
     image_mode := image_mode d;
     ocr_engine := ocr_engine d;
     total_blocks := total_blocks d;
     page_number := Some (i + 1)%nat |}.

(** The loop [for i, img in enumerate(images)] of [process_pdf].  Once
    a page has been appended only [os.remove] follows, inside its own
    [try] / [except OSError], so the handler of the page always sees
    the list as it was before the page. *)
Fixpoint process_pdf_pages (images : list image) (i : nat)
    (results : list Doc) : M (list Doc) :=
  match images with
  | [] => ret results
  | img :: rest =>
      let* results' :=
        try_except
          (let temp_img_path := temp_page_path i in
           let* _ := image_save img temp_img_path in
           let* page_result := process_image temp_img_path in
           let results' := match page_result with
                           | Some d => results ++ [as_pdf_page d i]
                           | None => results
                           end in
           let* _ := try_except_only os_error
                       (os_remove temp_img_path) (fun _ => ret tt) in
           ret results')
          (fun _ => ret results) in
      process_pdf_pages rest (S i) results'
  end.

Definition process_pdf (pdf_path : string) : M (option (list Doc)) :=
  try_except
    (let* images := try_except
                      (let* l := convert_from_path pdf_path in ret (Some l))
                      (fun _ => ret None) in
     match images with
     | None => ret None
     | Some images =>
         let* results := process_pdf_pages images 0 [] in
         ret (Some results)
     end)
    (fun _ => ret None).

Definition save_results (data : option (ResultData Doc))
    (input_filename : string) : M bool :=
  if negb (truthy data) then ret false
  else
    try_except
      (let base_name := fst (splitext (basename input_filename)) in
       let output_path := path_join output_dir (base_name +:+ ".json") in
       let* _ := open_w output_path in
       let* _ := match data with
                 | Some d => json_dump (data_json doc_json d) output_path
                 | None => ret tt
                 end in
       ret true)
      (fun _ => ret false).

Definition process_file (file_path : string) : M bool :=
  let* ex := path_exists file_path in
  if negb ex then ret false
  else
    let ext := file_ext file_path in
    if str_in ext image_extensions then
      let* r := process_image file_path in
      let result := option_map Single r in
      if truthy result then save_results result file_path else ret false
    else if String.eqb ext ".pdf" then
      let* r := process_pdf file_path in
      let result := option_map Pages r in
      if truthy result then save_results result file_path else ret false
    else ret false.

(** The loop [for filename in os.listdir(input_path)] of [main], on
    the counters [(files_processed, files_failed)]. *)
Fixpoint process_entries (dir_path : string) (names : list string)
    (counts : nat * nat) : M (nat * nat) :=
  match names with
  | [] => ret counts
  | filename :: rest =>
      let '(files_processed, files_failed) := counts in
      let file_path := path_join dir_path filename in
      let* isf := path_isfile file_path in
      if isf then
        let* ok := process_file file_path in
        if ok then process_entries dir_path rest (S files_processed, files_failed)
        else process_entries dir_path rest (files_processed, S files_failed)
      else process_entries dir_path rest counts
  end.

(** *** Vocabulary of the statements about the engine's output *)

(** The blocks the engine returned, over all pages. *)
Definition items (x : PyVal) : list PyVal :=
  match py_iter x with
  | Ok l => l
  | Raise _ => []
  end.

Definition engine_blocks (result : PyVal) : list PyVal :=
  concat (map items (items result)).






End Processor.

(** Some stage of the chain for the image at [path] raises:
    preprocessing (decoding and resizing), recognition, or the
    normalisation of the engine's output.  [W1] is the world when it
    does. *)
Definition pipeline_raises (E : PaddleEnv) (path : string) (W W1 : World)
    : Prop :=
  (exists e, resize_image path default_max_size W = (Raise e, W1)) \/
  (exists rp e,
      resize_image path default_max_size W = (Ok rp, W1) /\
      predict_file E rp W1 = (Raise e, W1)) \/
  (exists rp result e,
      resize_image path default_max_size W = (Ok rp, W1) /\
      predict_file E rp W1 = (Ok result, W1) /\
      extract E result = Raise e).

Definition default_output_dir : string := "OUTPUT\Processed Purchases_2".

(** [PaddleOCRProcessor()]: the directory, then the engine, whose
    failure is raised again. *)
Definition new_processor (E : PaddleEnv) : M string :=
  let* _ := makedirs default_output_dir in
  let* _ := lift (paddle_init E) in
  ret default_output_dir.

Definition input_path : string := "DATA\Processed Purchases".

(** What [main] prints at its end. *)
Inductive report :=
| NoInput                                   (* input directory does not exist *)
| Summary (files_processed files_failed : nat)
| SingleFile (ok : bool)
| InvalidPath
| Fatal.                                    (* "Fatal error: ..." *)

Definition main (E : PaddleEnv) : M report :=
  let* ex := path_exists input_path in
  if negb ex then ret NoInput
  else
    try_except
      (let* out := new_processor E in
       let* isd := path_isdir input_path in
       if isd then
         let* names := listdir input_path in
         let* '(files_processed, files_failed) :=
           process_entries E out input_path names (0, 0)%nat in
         ret (Summary files_processed files_failed)
       else
         let* isf := path_isfile input_path in
         if isf then
           let* ok := process_file E out input_path in
           ret (SingleFile ok)
         else ret InvalidPath)
      (fun _ => ret Fatal).

End Paddle.

(* ===================================================================== *)
(** * Vocabulary of the further properties                                 *)
(* ===================================================================== *)

(** What [img.resize] makes of [img] for a limit [L]. *)
Definition resized (img : image) (L : Z) : image :=
  {| img_size := Paddle.scaled_size (fst (img_size img)) (snd (img_size img)) L;
     img_mode := img_mode img;
     img_data := img_data img |}.

(** The larger of width and height. *)
Definition longer_side (img : image) : Z :=
  Z.max (fst (img_size img)) (snd (img_size img)).

(** Where [resize_image] saves the copy of the image at [path]. *)
Definition resized_path (path : string) : string :=
  "resized_" +:+ basename path.

(** [c] does not occur in [s]. *)
Fixpoint lacks (c : ascii) (s : string) : bool :=
  match s with
  | EmptyString => true
  | String d r => negb (Ascii.eqb c d) && lacks c r
  end.

(** A decimal digit. *)
Definition is_digit (c : ascii) : bool :=
  let n := nat_of_ascii c in (48 <=? n)%nat && (n <=? 57)%nat.

(** A computation whose initial and final worlds are related by [R],
    whether it returns or raises. *)
Definition preserves (R : World -> World -> Prop) {A} (c : M A) : Prop :=
  forall W r W', c W = (r, W') -> R W W'.

(** The worlds agree on every path outside [P] and on what is locked. *)
Definition same_except (P : string -> Prop) (W W' : World) : Prop :=
  (forall p, ~ P p -> fs W' !! p = fs W !! p) /\ locked W' = locked W.

(** Not a directory. *)
Definition regular (c : content) : Prop :=
  match c with
  | CDir _ => False
  | _ => True
  end.

(** Every path of [Q] that exists in [W] exists in [W'], and what was a
    regular file is one still. *)
Definition kept_in (Q : string -> Prop) (W W' : World) : Prop :=
  forall p c, Q p -> fs W !! p = Some c ->
              exists c', fs W' !! p = Some c' /\ (regular c -> regular c').

(** The same for every path. *)
Definition nothing_lost : World -> World -> Prop := kept_in (fun _ => True).

(** The files [process_pdf] may create for page [i]: the rasterised page
    and its resized copy. *)
Definition page_files (E : Paddle.PaddleEnv) (i : nat) (p : string) : Prop :=
  p = Paddle.temp_page_path E i \/ p = resized_path (Paddle.temp_page_path E i).

(** The worlds differ in the clock at most. *)
Definition untouched : World -> World -> Prop := same_except (fun _ : string => False).

(** The world after [n] readings of the clock. *)
Definition later (n : nat) (W : World) : World :=
  {| fs := fs W; locked := locked W; clock := (clock W + n)%nat |}.

(** What the block loop of [process_image] keeps of one block: the
    record, when the three fields can be read. *)
Definition kept_block (E : Paddle.PaddleEnv) (idx : nat) (block : PyVal)
    : list Paddle.TextBlock :=
  match Paddle.parse_text block, Paddle.parse_confidence E block,
        Paddle.parse_coordinates block with
  | Ok text, Ok conf, Ok coords =>
      [{| Paddle.block_id := idx; Paddle.block_text := text;
          Paddle.confidence := conf; Paddle.coordinates := coords |}]
  | _, _, _ => []
  end.

(** The same for the blocks of a page, numbered from [idx]. *)
Fixpoint kept_blocks (E : Paddle.PaddleEnv) (idx : nat) (blocks : list PyVal)
    : list Paddle.TextBlock :=
  match blocks with
  | [] => []
  | block :: rest => kept_block E idx block ++ kept_blocks E (S idx) rest
  end.

(** And for all pages of the engine's output. *)
Definition kept (E : Paddle.PaddleEnv) (result : PyVal) : list Paddle.TextBlock :=
  concat (map (fun page => kept_blocks E 0 (Paddle.items page))
              (Paddle.items result)).

(** A block whose three fields can be read and whose text is not a
    string. *)
Definition text_not_str (E : Paddle.PaddleEnv) (block : PyVal) : Prop :=
  exists t q c,
    Paddle.parse_text block = Ok t /\
    (forall s, t <> PStr s) /\
    Paddle.parse_confidence E block = Ok q /\
    Paddle.parse_coordinates block = Ok c.

(** A path without a directory part: a file of the working directory. *)
Definition in_cwd (p : string) : Prop := lacks "/" p = true.

(** A path with a directory part. *)
Definition outside_cwd (p : string) : Prop := lacks "/" p = false.

(** The artifacts of the entries [names] of [dir]. *)
Definition artifacts (out dir : string) (names : list string) (p : string)
    : Prop :=
  exists name, name ∈ names /\ p = output_path out (path_join dir name).

(** A path under the directory [out], or [out] itself. *)
Definition under (out p : string) : Prop := String.prefix out p = true.

(* ===================================================================== *)
(** * Sample worlds and engines                                            *)
(* ===================================================================== *)

(** Concrete inputs on which the programs are run below. *)

Definition page (w h : Z) : image :=
  {| img_size := (w, h); img_mode := "RGB"; img_data := 0 |}.

Definition world_of (files : list (string * content)) : World :=
  {| fs := list_to_map files; locked := ∅; clock := 0 |}.

Definition paddle_env (engine : image -> Result PyVal) : Paddle.PaddleEnv :=
  {| Paddle.paddle_init := Ok tt;
     Paddle.predict := engine;
     Paddle.str_float := fun _ => Raise ValueError;
     Paddle.getpid := 4242 |}.

Definition tesseract_env : Tesseract.TesseractEnv :=
  {| Tesseract.image_to_string := fun _ => Ok "Invoice";
     Tesseract.get_tesseract_version := Ok (PStr "5.3.0") |}.

(** A block as PaddleOCR lays it out: [[box, (text, score)]]. *)
Definition block (coords : PyVal) (text : string) (score : Q) : PyVal :=
  PList [coords; PList [PStr text; PFloat score]].

(** A page of well-formed blocks, each given by its box, text and
    score, as the engine hands it over. *)
Definition page_value (bs : list (PyVal * string * Q)) : PyVal :=
  PList (map (fun b => block (fst (fst b)) (snd (fst b)) (snd b)) bs).

(** The records expected for such a page, numbered from [idx]. *)
Fixpoint page_records (idx : nat) (bs : list (PyVal * string * Q))
    : list Paddle.TextBlock :=
  match bs with
  | [] => []
  | b :: rest =>
      {| Paddle.block_id := idx;
         Paddle.block_text := PStr (snd (fst b));
         Paddle.confidence := snd b;
         Paddle.coordinates := fst (fst b) |} :: page_records (S idx) rest
  end.

(** The parts expected in [full_text]: the non-blank texts, in order. *)
Definition page_parts (bs : list (PyVal * string * Q)) : list string :=
  List.filter nonblank (map (fun b => snd (fst b)) bs).

Definition box : PyVal :=
  PList [PList [PInt 0; PInt 0]; PList [PInt 9; PInt 0];
         PList [PInt 9; PInt 9]; PList [PInt 0; PInt 9]].

(** An engine that raises on every image. *)
Definition engine_fails : image -> Result PyVal :=
  fun _ => Raise (Exception "recognition failed").

(** One page with three lines, the second blank. *)
Definition engine_lines : image -> Result PyVal :=
  fun _ => Ok (PList [PList [block box "Invoice" (9 # 10);
                             block box "  " (1 # 2);
                             block box "Total" 1]]).


(** A line whose box is an object [json] cannot serialise. *)
Definition engine_opaque_box : image -> Result PyVal :=
  fun _ => Ok (PList [PList [block (PObj "ndarray") "Invoice" (9 # 10)]]).


Definition small_scan : World := world_of [("in/scan.png", CImage (page 800 600))].

Definition large_scan : World := world_of [("scan.png", CImage (page 5000 3000))].

Definition two_page_pdf : World :=
  world_of [("in/doc.pdf", CPdf [page 10 10; page 20 20])].

(** The record [process_image] produces for [small_scan] with
    [engine_lines]. *)
Definition small_scan_doc : Paddle.Doc :=
  {| Paddle.filename := "scan.png";
     Paddle.filetype := "image";
     Paddle.text_blocks :=
       [{| Paddle.block_id := 0; Paddle.block_text := PStr "Invoice";
           Paddle.confidence := 9 # 10; Paddle.coordinates := box |};
        {| Paddle.block_id := 1; Paddle.block_text := PStr "  ";
           Paddle.confidence := 1 # 2; Paddle.coordinates := box |};
        {| Paddle.block_id := 2; Paddle.block_text := PStr "Total";
           Paddle.confidence := 1; Paddle.coordinates := box |}];
     Paddle.full_text := join newline ["Invoice"; "Total"];
     Paddle.timestamp := 0;
     Paddle.image_size := (800, 600);
     Paddle.image_mode := "RGB";
     Paddle.ocr_engine := "PaddleOCR";
     Paddle.total_blocks := 3;
     Paddle.page_number := None |}.

(** The record for [small_scan] with [engine_opaque_box]. *)
Definition opaque_box_doc : Paddle.Doc :=
  {| Paddle.filename := "scan.png";
     Paddle.filetype := "image";
     Paddle.text_blocks :=
       [{| Paddle.block_id := 0; Paddle.block_text := PStr "Invoice";
           Paddle.confidence := 9 # 10; Paddle.coordinates := PObj "ndarray" |}];
     Paddle.full_text := "Invoice";
     Paddle.timestamp := 0;
     Paddle.image_size := (800, 600);
     Paddle.image_mode := "RGB";
     Paddle.ocr_engine := "PaddleOCR";
     Paddle.total_blocks := 1;
     Paddle.page_number := None |}.

(** A directory with a text file, a corrupt image and a sound image. *)
Definition mixed_dir : World :=
  world_of [("in", CDir ["notes.txt"; "bad.png"; "scan.png"]);
            ("in/notes.txt", CJunk);
            ("in/bad.png", CJunk);
            ("in/scan.png", CImage (page 800 600))].

(** Images in the two formats only one of the programs accepts. *)
Definition webp_and_gif : World :=
  world_of [("a.webp", CImage (page 800 600));
            ("a.gif", CImage (page 800 600))].

(** The input directory of both [main] functions, holding one image. *)
Definition purchases : World :=
  world_of [("DATA\Processed Purchases", CDir ["scan.png"]);
            ("DATA\Processed Purchases/scan.png", CImage (page 800 600))].

(** The example of the specification: an image of 200 by 100 and a PDF
    of two pages. *)
Definition invoice_and_receipt : World :=
  world_of [("in", CDir ["invoice.png"; "receipt.pdf"]);
            ("in/invoice.png", CImage (page 200 100));
            ("in/receipt.pdf", CPdf [page 1654 2339; page 1654 2339])].

(** [mixed_dir] after the recognition of [in/scan.png] with
    [engine_opaque_box], and after the attempt to save its record. *)
Definition mixed_dir_recognised : World :=
  snd (Paddle.process_image (paddle_env engine_opaque_box) "in/scan.png" mixed_dir).

Definition mixed_dir_save_failed : World :=
  snd (Paddle.save_results "out" (Some (Single opaque_box_doc)) "in/scan.png"
         mixed_dir_recognised).

(** ** Inputs of the further properties *)

(** A strip of 5000 by 1 pixels. *)
Definition ribbon_scan : World :=
  world_of [("ribbon.png", CImage (page 5000 1))].

(** A Tesseract that fails on pages [w] pixels wide. *)
Definition tesseract_env_fails_on (w : Z) : Tesseract.TesseractEnv :=
  {| Tesseract.image_to_string :=
       fun i => if fst (img_size i) =? w
                then Raise (Exception "recognition failed")
                else Ok "Invoice";
     Tesseract.get_tesseract_version := Ok (PStr "5.3.0") |}.

(** A [pytesseract] whose version is an object, not a string. *)
Definition tesseract_env_version_object : Tesseract.TesseractEnv :=
  {| Tesseract.image_to_string := fun _ => Ok "Invoice";
     Tesseract.get_tesseract_version := Ok (PObj "Version") |}.

(** A directory with a PDF that has no page. *)
Definition empty_pdf_dir : World :=
  world_of [("in", CDir ["blank.pdf"]); ("in/blank.pdf", CPdf [])].

(** A line whose text is [None]. *)
Definition engine_null_text : image -> Result PyVal :=
  fun _ => Ok (PList [PList [PList [box; PList [PNone; PFloat (9 # 10)]]]]).


(* ===================================================================== *)
(** * Facts about binary64 rounding                                        *)
(* ===================================================================== *)

Section FloatFacts.
Import Float.

Lemma pow2_pos k : (0 < pow2 k)%Q.
Proof. unfold pow2. apply Qpower_0_lt. reflexivity. Qed.

Lemma pow2_add a b : (pow2 (a + b) == pow2 a * pow2 b)%Q.
Proof. unfold pow2. apply Qpower_plus. discriminate. Qed.

Lemma pow2_inject k : 0 <= k -> (pow2 k == inject_Z (2 ^ k))%Q.
Proof.
  intros H. unfold pow2. rewrite Zpower_Qpower by assumption. reflexivity.
Qed.

Lemma inject_Z_pos z : 0 < z -> (0 < inject_Z z)%Q.
Proof. intros H. change 0%Q with (inject_Z 0). rewrite <- Zlt_Qlt. lia. Qed.

Lemma inject_Z_pred k : (inject_Z (k - 1) == inject_Z k - 1)%Q.
Proof. unfold Z.sub. rewrite inject_Z_plus. reflexivity. Qed.

Lemma inject_Z_succ k : (inject_Z (k + 1) == inject_Z k + 1)%Q.
Proof. rewrite inject_Z_plus. reflexivity. Qed.

(** [ilog2] never overshoots: [2 ^ ilog2 q <= q]. *)
Lemma ilog2_lower q : (0 < q)%Q -> (pow2 (ilog2 q) <= q)%Q.
Proof.
  intros Hq. unfold ilog2.
  set (n := Qnum q). set (d := Zpos (Qden q)).
  set (k := Z.log2 n - Z.log2 d).
  destruct (Qle_bool (pow2 k) q) eqn:E.
  - apply Qle_bool_iff in E. exact E.
  - assert (Hn : 0 < n).
    { destruct q as [qn qd]. unfold Qlt in Hq. simpl in *. subst n. simpl. lia. }
    assert (Hd : 0 < d) by (subst d; lia).
    destruct (Z.log2_spec n Hn) as [Hn1 _].
    destruct (Z.log2_spec d Hd) as [_ Hd2].
    pose proof (Z.log2_nonneg n) as Ln. pose proof (Z.log2_nonneg d) as Ld.
    assert (Hk : (pow2 (Z.log2 n) == pow2 (k - 1) * pow2 (Z.log2 d + 1))%Q).
    { rewrite <- pow2_add.
      replace (k - 1 + (Z.log2 d + 1)) with (Z.log2 n) by (subst k; lia).
      reflexivity. }
    rewrite (pow2_inject (Z.log2 n)) in Hk by lia.
    rewrite (pow2_inject (Z.log2 d + 1)) in Hk by lia.
    assert (Hq' : (q == inject_Z n / inject_Z d)%Q).
    { destruct q as [qn qd]. subst n d. simpl.
      rewrite (Qmake_Qdiv qn qd). reflexivity. }
    pose proof (inject_Z_pos d Hd) as Hdq.
    assert (H1 : (inject_Z (2 ^ Z.log2 n) <= inject_Z n)%Q)
      by (rewrite <- Zle_Qle; lia).
    assert (H2 : (inject_Z d < inject_Z (2 ^ (Z.log2 d + 1)))%Q)
      by (rewrite <- Zlt_Qlt; lia).
    pose proof (pow2_pos (k - 1)) as Hp.
    assert (Hqd : (q * inject_Z d == inject_Z n)%Q) by (rewrite Hq'; field; lra).
    assert (Hlt : (pow2 (k - 1) * inject_Z d <= q * inject_Z d)%Q).
    { rewrite Hqd. eapply Qle_trans; [| exact H1]. rewrite Hk.
      apply Qmult_le_l; [exact Hp | lra]. }
    apply Qmult_le_r in Hlt; assumption.
Qed.

Lemma round_half_even_bound q :
  (q - (1 # 2) <= inject_Z (round_half_even q) <= q + (1 # 2))%Q.
Proof.
  unfold round_half_even.
  pose proof (Qfloor_le q) as Hl. pose proof (Qlt_floor q) as Hu.
  rewrite inject_Z_succ in Hu.
  destruct (Qcompare (q - inject_Z (Qfloor q)) (1 # 2)) eqn:E.
  - apply Qeq_alt in E.
    destruct (Z.even (Qfloor q)); [| rewrite inject_Z_succ]; lra.
  - apply Qlt_alt in E. lra.
  - apply Qgt_alt in E. rewrite inject_Z_succ. lra.
Qed.

(** The relative error of rounding is at most the unit roundoff. *)
Lemma fl_pos_bound q :
  (0 < q)%Q -> (q * (1 - ulp53) <= fl_pos q <= q * (1 + ulp53))%Q.
Proof.
  intros Hq. unfold fl_pos.
  set (s := ilog2 q - 52).
  pose proof (pow2_pos s) as Hs.
  pose proof (round_half_even_bound (q / pow2 s)) as [Hlo Hhi].
  pose proof (ilog2_lower q Hq) as Hl.
  assert (E : (pow2 (ilog2 q) == pow2 s * inject_Z (2 ^ 52))%Q).
  { rewrite <- (pow2_inject 52) by lia. rewrite <- pow2_add.
    replace (s + 52) with (ilog2 q) by (subst s; lia). reflexivity. }
  rewrite E in Hl.
  set (m := inject_Z (round_half_even (q / pow2 s))) in *.
  set (p := pow2 s) in *.
  assert (A : ((q / p - (1 # 2)) * p <= m * p)%Q)
    by (apply Qmult_le_r; assumption).
  assert (B : (m * p <= (q / p + (1 # 2)) * p)%Q)
    by (apply Qmult_le_r; assumption).
  assert (HA : ((q / p - (1 # 2)) * p == q - (1 # 2) * p)%Q) by (field; lra).
  assert (HB : ((q / p + (1 # 2)) * p == q + (1 # 2) * p)%Q) by (field; lra).
  rewrite HA in A. rewrite HB in B.
  assert (C : (inject_Z (2 ^ 52) == 4503599627370496)%Q) by reflexivity.
  rewrite C in Hl. unfold ulp53.
  clearbody m p. clear - A B Hl Hs Hq. split; lra.
Qed.

Lemma fl_bound q :
  (0 < q)%Q -> (q * (1 - ulp53) <= fl q <= q * (1 + ulp53))%Q.
Proof.
  intros Hq. unfold fl.
  destruct (Qcompare q 0) eqn:E.
  - apply Qeq_alt in E. lra.
  - apply Qlt_alt in E. lra.
  - apply fl_pos_bound, Hq.
Qed.

Lemma py_int_floor q : (0 <= q)%Q -> py_int q = Qfloor q.
Proof.
  destruct q as [n d]. unfold Qle, py_int, Qfloor. simpl. intros H.
  apply Z.quot_div_nonneg; lia.
Qed.

Lemma Qfloor_between q k :
  (inject_Z k <= q)%Q -> (q < inject_Z (k + 1))%Q -> Qfloor q = k.
Proof.
  intros H1 H2.
  pose proof (Qfloor_le q) as Hl. pose proof (Qlt_floor q) as Hu.
  assert (A : (inject_Z k < inject_Z (Qfloor q + 1))%Q) by lra.
  assert (B : (inject_Z (Qfloor q) < inject_Z (k + 1))%Q) by lra.
  rewrite <- Zlt_Qlt in A, B. lia.
Qed.

(** [int(d * (L / M))] in floating point against the exact quotient:
    two roundings, each of relative error [2 ^ -53], cannot move the
    product across an integer unless the exact value is that integer. *)
Lemma scale_dim_spec d L M :
  0 < L -> L < M -> 0 <= d <= M -> M < 2 ^ 51 ->
  (d = M \/ d * M < 2 ^ 51) ->
  Paddle.scaled_within_rounding d L M (py_int (mul_int d (truediv L M))).
Proof.
  intros HL HLM Hd HM51 Hb.
  unfold Paddle.scaled_within_rounding, mul_int, truediv.
  destruct (Z.eq_dec d 0) as [-> | Hd0].
  { left. simpl. unfold fl at 1.
    destruct (Qcompare _ 0) eqn:E; [reflexivity | |].
    - apply Qlt_alt in E. change (inject_Z 0) with 0%Q in E. lra.
    - apply Qgt_alt in E. change (inject_Z 0) with 0%Q in E. lra. }
  set (r := fl (inject_Z L / inject_Z M)).
  pose proof (inject_Z_pos L HL) as HLq.
  pose proof (inject_Z_pos M ltac:(lia)) as HMq.
  pose proof (inject_Z_pos d ltac:(lia)) as Hdq.
  assert (Hq0 : (0 < inject_Z L / inject_Z M)%Q) by (apply Qlt_shift_div_l; lra).
  pose proof (fl_bound _ Hq0) as [Hr1 Hr2]. fold r in Hr1, Hr2.
  set (y := (inject_Z L / inject_Z M)%Q) in *.
  assert (Hu : (0 < 1 - ulp53)%Q) by (unfold ulp53; lra).
  assert (Hr0 : (0 < r)%Q) by nra.
  assert (Hp0 : (0 < inject_Z d * r)%Q) by nra.
  pose proof (fl_bound _ Hp0) as [Hp1 Hp2].
  set (p := fl (inject_Z d * r)) in *.
  set (x := (inject_Z d * y)%Q).
  assert (Hx1 : (x * (1 - 3 * ulp53) <= p)%Q) by (unfold x, ulp53 in *; nra).
  assert (Hx2 : (p <= x * (1 + 3 * ulp53))%Q) by (unfold x, ulp53 in *; nra).
  assert (HxM : (x * inject_Z M == inject_Z (d * L))%Q).
  { unfold x, y. rewrite inject_Z_mult. field. lra. }
  assert (Hppos : (0 <= p)%Q) by (unfold x, ulp53 in *; nra).
  rewrite (py_int_floor p Hppos).
  pose proof (Z.div_mod (d * L) M ltac:(lia)) as Hdm.
  pose proof (Z.mod_pos_bound (d * L) M ltac:(lia)) as Hmb.
  set (k := d * L / M) in *. set (t := (d * L) mod M) in *.
  assert (Hxk : (x * inject_Z M == inject_Z M * inject_Z k + inject_Z t)%Q).
  { rewrite HxM, Hdm, inject_Z_plus, inject_Z_mult. reflexivity. }
  assert (Ht : (0 <= inject_Z t < inject_Z M)%Q).
  { split; [change 0%Q with (inject_Z 0); rewrite <- Zle_Qle
           | rewrite <- Zlt_Qlt]; lia. }
  assert (Hxpos : (0 < x)%Q) by (unfold x; nra).
  destruct (Z.eq_dec t 0) as [Ht0 | Ht0].
  - (* an exact quotient, at most [L]: the product may fall just short *)
    assert (Hxe : (x == inject_Z k)%Q).
    { rewrite Ht0 in Hxk. change (inject_Z 0) with 0%Q in Hxk. nra. }
    assert (Hk51 : (inject_Z k < 2251799813685248)%Q).
    { change 2251799813685248%Q with (inject_Z (2 ^ 51)). rewrite <- Zlt_Qlt.
      assert (k <= L); [| lia].
      subst k. apply Z.div_le_upper_bound; [lia | nia]. }
    assert (Hsmall : (x * (3 * ulp53) < 1)%Q) by (unfold ulp53; nra).
    destruct (Qlt_le_dec p (inject_Z k)) as [Hlt | Hge].
    + right. split; [| exact Ht0].
      apply Qfloor_between.
      * rewrite inject_Z_pred. nra.
      * replace (k - 1 + 1) with k by lia. exact Hlt.
    + left. apply Qfloor_between; [exact Hge |].
      rewrite inject_Z_succ. nra.
  - (* a proper fraction: it stays clear of the integers by [1 / M] *)
    left.
    assert (HdM : d * M < 2 ^ 51).
    { destruct Hb as [-> | Hb]; [| exact Hb].
      exfalso. apply Ht0. subst t. rewrite Z.mul_comm. apply Z_mod_mult. }
    assert (HdL : d * L < 2 ^ 51) by nia.
    assert (HxL : (x * inject_Z M < 2251799813685248)%Q).
    { rewrite HxM. change 2251799813685248%Q with (inject_Z (2 ^ 51)).
      rewrite <- Zlt_Qlt. lia. }
    assert (Herr : (x * (3 * ulp53) * inject_Z M < 1)%Q) by (unfold ulp53; nra).
    assert (Ht1 : (1 <= inject_Z t)%Q).
    { change 1%Q with (inject_Z 1). rewrite <- Zle_Qle. lia. }
    assert (Ht2 : (inject_Z t <= inject_Z M - 1)%Q).
    { rewrite <- inject_Z_pred, <- Zle_Qle. lia. }
    apply Qfloor_between.
    + nra.
    + rewrite inject_Z_succ. nra.
Qed.

(** The rounding model against the IEEE 754 specification of the kernel
    library, on the scaling of some page sizes. *)
Example fl_agrees_4210 :
  option_map Qred (b64_scale 4210 4000 4210)
  = Some (Qred (mul_int 4210 (truediv 4000 4210))).
Proof. vm_compute. reflexivity. Qed.

Example fl_agrees_3000_5000 :
  option_map Qred (b64_scale 3000 4000 5000)
  = Some (Qred (mul_int 3000 (truediv 4000 5000))).
Proof. vm_compute. reflexivity. Qed.

Example fl_agrees_1_49 :
  option_map Qred (b64_scale 49 1 49) = Some (Qred (mul_int 49 (truediv 1 49))).
Proof. vm_compute. reflexivity. Qed.

Example fl_agrees_on_sizes :
  forallb (fun c : Z * Z * Z =>
             let '(d, L, M) := c in
             match b64_scale d L M with
             | Some q => Qeq_bool q (mul_int d (truediv L M))
             | None => false
             end)
          [(4248, 4000, 4248); (2339, 4000, 4678); (1654, 4000, 4678);
           (0, 4000, 5000); (1, 4000, 8000); (65535, 4000, 65535);
           (3, 1, 7); (123456789, 4000, 987654321); (7, 2, 7)]
  = true.
Proof. vm_compute. reflexivity. Qed.

(** The larger dimension can fall one short of the limit: a page 4210
    wide is scaled to 3999, as in CPython. *)
Example scaled_4210 : py_int (mul_int 4210 (truediv 4000 4210)) = 3999.
Proof. vm_compute. reflexivity. Qed.

Example scaled_5000 : py_int (mul_int 5000 (truediv 4000 5000)) = 4000.
Proof. vm_compute. reflexivity. Qed.

End FloatFacts.

(* ===================================================================== *)
(** * Size normalisation ([resize_image])                                  *)
(* ===================================================================== *)

Section ResizeFacts.
Import Paddle.

Lemma scaled_within_rounding_bounds d L M d' :
  0 < M -> scaled_within_rounding d L M d' ->
  d * L / M - 1 <= d' <= d * L / M.
Proof. intros HM [-> | [-> _]]; lia. Qed.

(** Both dimensions of the computed size are the exact scaled values
    within rounding, and the larger one is the limit or one less. *)
Lemma scaled_size_spec w h L :
  0 < w -> 0 < h -> 0 < L -> L < Z.max w h -> w * h < 2 ^ 51 ->
  let '(w', h') := scaled_size w h L in
  scaled_within_rounding w L (Z.max w h) w' /\
  scaled_within_rounding h L (Z.max w h) h' /\
  L - 1 <= Z.max w' h' <= L.
Proof.
  intros Hw Hh HL HM Hb. unfold scaled_size.
  set (M := Z.max w h) in *.
  assert (HM51 : M < 2 ^ 51) by (subst M; nia).
  assert (Hbw : w = M \/ w * M < 2 ^ 51) by (subst M; lia).
  assert (Hbh : h = M \/ h * M < 2 ^ 51) by (subst M; lia).
  pose proof (scale_dim_spec w L M HL HM ltac:(lia) HM51 Hbw) as Sw.
  pose proof (scale_dim_spec h L M HL HM ltac:(lia) HM51 Hbh) as Sh.
  split; [exact Sw | split; [exact Sh |]].
  assert (HM0 : 0 < M) by lia.
  pose proof (scaled_within_rounding_bounds _ _ _ _ HM0 Sw) as Bw.
  pose proof (scaled_within_rounding_bounds _ _ _ _ HM0 Sh) as Bh.
  assert (Hwq : w * L / M <= L).
  { apply Z.div_le_upper_bound; [lia | nia]. }
  assert (Hhq : h * L / M <= L).
  { apply Z.div_le_upper_bound; [lia | nia]. }
  assert (HMq : M * L / M = L) by (rewrite Z.mul_comm; apply Z.div_mul; lia).
  set (w' := Float.py_int _) in *. set (h' := Float.py_int _) in *.
  assert (HMwh : M = w \/ M = h) by (subst M; lia).
  clearbody M w' h'. clear Sw Sh.
  destruct HMwh as [E | E]; subst M; rewrite HMq in *; lia.
Qed.

(** ** C4 *)


End ResizeFacts.

(* ===================================================================== *)
(** * Normalisation of the engine's output ([process_image], PaddleOCR)    *)
(* ===================================================================== *)

(** Unfolds the combinators of a computation applied to a state. *)
Ltac run :=
  unfold bind, lift, ret, raise, try_except, try_except_only, rbind in *;
  simpl in *.

Section MonadFacts.
Context {S A B : Type}.

Lemma bind_ok (c : St S A) (k : A -> St S B) s b s' :
  bind c k s = (Ok b, s') ->
  exists a s1, c s = (Ok a, s1) /\ k a s1 = (Ok b, s').
Proof.
  unfold bind. destruct (c s) as [[a | e] s1]; [eauto | discriminate].
Qed.

Lemma bind_eq (c : St S A) (k : A -> St S B) s a s1 :
  c s = (Ok a, s1) -> bind c k s = k a s1.
Proof. unfold bind. intros ->. reflexivity. Qed.

Lemma bind_raise (c : St S A) (k : A -> St S B) s e s1 :
  c s = (Raise e, s1) -> bind c k s = (Raise e, s1).
Proof. unfold bind. intros ->. reflexivity. Qed.

Lemma lift_ok (r : Result A) (s s' : S) a :
  lift r s = (Ok a, s') -> r = Ok a /\ s' = s.
Proof. unfold lift. intros H. inversion H. auto. Qed.

Lemma ret_ok (a a' : A) (s s' : S) :
  ret a s = (Ok a', s') -> a' = a /\ s' = s.
Proof. unfold ret. intros H. inversion H. auto. Qed.

(** A handler that swallows the exception makes the whole total. *)
Lemma try_except_total (c : St S A) (h : exn -> St S A) s :
  (forall e s1, exists a s2, h e s1 = (Ok a, s2)) ->
  exists a s', try_except c h s = (Ok a, s').
Proof.
  intros Hh. unfold try_except.
  destruct (c s) as [[a | e] s1]; [eauto | apply Hh].
Qed.

End MonadFacts.

Lemma try_except_none_some {S A} (c : St S (option A)) s a s' :
  try_except c (fun _ => ret None) s = (Ok (Some a), s') ->
  c s = (Ok (Some a), s').
Proof.
  unfold try_except, ret. destruct (c s) as [[o | e] s1]; [auto | discriminate].
Qed.

(** [try: c except OSError: pass] cannot raise when [c] raises nothing but
    [OSError]. *)
Lemma os_remove_pass path W :
  exists W1, try_except_only Paddle.os_error (os_remove path) (fun _ => ret tt) W
             = (Ok tt, W1) /\
             (W1 = W \/ W1 = set_fs (delete path) W).
Proof.
  unfold try_except_only, os_remove, ret.
  destruct (fs W !! path) as [[] |]; simpl; eauto;
    destruct (decide _); simpl; eauto.
Qed.

Section StringFacts.

Lemma lstrip_blank s : blank s = true -> lstrip s = EmptyString.
Proof.
  induction s as [| c r IH]; simpl; [reflexivity |].
  intros H. apply andb_prop in H as [Hc Hr]. rewrite Hc. auto.
Qed.

Lemma lstrip_nonblank s :
  blank s = false ->
  exists c r, lstrip s = String c r /\ is_space c = false.
Proof.
  induction s as [| c r IH]; simpl; [discriminate |].
  destruct (is_space c) eqn:Hc; simpl; [exact IH |].
  intros _. exists c, r. split; [reflexivity | exact Hc].
Qed.

Lemma rstrip_head c r :
  is_space c = false -> str_truthy (rstrip (String c r)) = true.
Proof.
  intros Hc. simpl. destruct (rstrip r); [rewrite Hc |]; reflexivity.
Qed.

(** [text.strip()] is falsy exactly for a blank [text]. *)
Lemma strip_truthy s : str_truthy (strip s) = negb (blank s).
Proof.
  unfold strip. destruct (blank s) eqn:Hb.
  - rewrite (lstrip_blank s Hb). reflexivity.
  - destruct (lstrip_nonblank s Hb) as (c & r & -> & Hc).
    apply rstrip_head, Hc.
Qed.

End StringFacts.

Section ExtractFacts.
Import Paddle.
Variable E : PaddleEnv.

(** One pass of the block loop leaves the two lists alone (the block was
    skipped) or appends the block to [text_blocks] and, when its text is
    not blank, the text to [full_text_parts]. *)
Lemma parse_block_cases idx block a r a' :
  parse_block E idx block a = (Ok r, a') ->
  a' = a \/
  exists s q c,
    parse_text block = Ok (PStr s) /\
    parse_confidence E block = Ok q /\
    parse_coordinates block = Ok c /\
    a' = (fst a ++ [{| block_id := idx; block_text := PStr s;
                       confidence := q; coordinates := c |}],
          snd a ++ (if negb (blank s) then [s] else [])).
Proof.
  unfold parse_block. run.
  destruct (parse_text block) as [text | e1]; simpl.
  2:{ destruct (parse_error e1); intros H; inversion H; auto. }
  destruct (parse_confidence E block) as [q | e2]; simpl.
  2:{ destruct (parse_error e2); intros H; inversion H; auto. }
  destruct (parse_coordinates block) as [c | e3]; simpl.
  2:{ destruct (parse_error e3); intros H; inversion H; auto. }
  unfold append_block, append_part. simpl.
  destruct text as [| | | | s | |]; simpl; try discriminate.
  rewrite strip_truthy.
  destruct (negb (blank s)) eqn:Hb; simpl; intros H; inversion H; subst;
    right; exists s, q, c; rewrite Hb, ?app_nil_r; auto.
Qed.

Section Invariant.
(** An invariant [P] of the two lists, kept by every block for which
    [B] holds. *)
Variable P : Acc -> Prop.
Variable B : PyVal -> Prop.
Hypothesis step :
  forall idx block a r a',
    B block -> P a -> parse_block E idx block a = (Ok r, a') -> P a'.

Lemma parse_blocks_inv blocks :
  forall idx a r a',
    Forall B blocks -> P a ->
    parse_blocks E idx blocks a = (Ok r, a') -> P a'.
Proof.
  induction blocks as [| block rest IH]; intros idx a r a' HB Ha; simpl.
  - run. intros H. inversion H. subst. exact Ha.
  - inversion HB as [| ? ? Hb Hrest]; subst. run.
    destruct (parse_block E idx block a) as [[u | e] a1] eqn:E1;
      [| discriminate].
    intros H. eapply IH; [exact Hrest | | exact H].
    eapply step; eauto.
Qed.

Lemma parse_page_inv page a r a' :
  Forall B (items page) -> P a ->
  parse_page E page a = (Ok r, a') -> P a'.
Proof.
  intros HB Ha. unfold parse_page, items in *.
  destruct page; run;
    try (intros H; inversion H; subst; exact Ha);
    try discriminate;
    intros H; eapply parse_blocks_inv; eauto.
Qed.

Lemma parse_pages_inv pages :
  forall a r a',
    Forall (fun page => Forall B (items page)) pages -> P a ->
    parse_pages E pages a = (Ok r, a') -> P a'.
Proof.
  induction pages as [| page rest IH]; intros a r a' HB Ha; simpl.
  - run. intros H. inversion H. subst. exact Ha.
  - inversion HB as [| ? ? Hb Hrest]; subst. run.
    destruct (parse_page E page a) as [[u | e] a1] eqn:E1;
      [| discriminate].
    intros H. eapply IH; [exact Hrest | | exact H].
    eapply parse_page_inv; eauto.
Qed.

Lemma extract_inv result acc :
  Forall B (engine_blocks result) -> P ([], []) ->
  extract E result = Ok acc -> P acc.
Proof.
  intros HB H0. unfold extract, engine_blocks in *.
  assert (Hpages : Forall (fun page => Forall B (items page)) (items result)).
  { apply Forall_forall. intros page Hin. apply Forall_forall.
    intros block Hb. rewrite Forall_forall in HB. apply HB.
    apply list_elem_of_In, in_concat. exists (items page).
    split; [apply in_map | ]; apply list_elem_of_In; assumption. }
  unfold items in Hpages at 2.
  destruct result; run; try discriminate;
    try (intros H; inversion H; subst; exact H0);
    match goal with
    | |- context [parse_pages E ?l ?a0] =>
        destruct (parse_pages E l a0) as [[u | e] a1] eqn:E1;
        [| discriminate];
        intros H; inversion H; subst;
        eapply parse_pages_inv; eauto
    end.
Qed.

End Invariant.

End ExtractFacts.

Section ProcessImageFacts.
Import Paddle.
Variable E : PaddleEnv.

(** What a successful [process_image] went through: the (possibly
    resized) file was read by the engine, and the record holds what
    [extract] drew from the engine's output. *)
Lemma process_image_some path W W' d :
  process_image E path W = (Ok (Some d), W') ->
  exists rp W1 i result parts,
    resize_image path default_max_size W = (Ok rp, W1) /\
    fs W1 !! rp = Some (CImage i) /\
    predict E i = Ok result /\
    extract E result = Ok (text_blocks d, parts) /\
    full_text d = join newline parts /\
    total_blocks d = length (text_blocks d) /\
    filetype d = "image" /\
    page_number d = None.
Proof.
  unfold process_image. intros H. apply try_except_none_some in H.
  apply bind_ok in H as (rp & W1 & Hr & H).
  apply bind_ok in H as (result & W2 & Hp & H).
  apply bind_ok in H as ([tbs parts] & W3 & Hx & H).
  apply lift_ok in Hx as [Hx ->].
  apply bind_ok in H as (u & W4 & _ & H).
  apply bind_ok in H as (ts & W5 & _ & H).
  apply bind_ok in H as (img1 & W6 & _ & H).
  apply bind_ok in H as (img2 & W7 & _ & H).
  apply ret_ok in H as [H _]. injection H as ->. simpl.
  unfold predict_file in Hp.
  destruct (fs W1 !! rp) as [[i | | | |] |] eqn:Ef; try discriminate.
  inversion Hp; subst.
  exists rp, W2, i, result, parts. repeat split; auto.
Qed.

(** The texts of the blocks are strings and the parts joined into
    [full_text] are the non-blank ones among them, in order. *)
Lemma extract_full_text result tbs parts :
  extract E result = Ok (tbs, parts) ->
  exists texts,
    map block_text tbs = map PStr texts /\
    parts = List.filter nonblank texts.
Proof.
  intros Hx.
  apply (extract_inv E
           (fun a => exists texts,
                map block_text (fst a) = map PStr texts /\
                snd a = List.filter nonblank texts)
           (fun _ => True)) in Hx; [exact Hx | | | ].
  - intros idx block a r a' _ (texts & Ht & Hp) Hs.
    apply parse_block_cases in Hs as [-> | (s & q & c & _ & _ & _ & ->)].
    + exists texts. auto.
    + exists (texts ++ [s]). simpl.
      rewrite !map_app, List.filter_app, Ht, Hp. simpl.
      unfold nonblank at 3. destruct (negb (blank s)); auto.
  - apply Forall_forall. auto.
  - exists []. auto.
Qed.





(** ** C2 *)

(** C2. In every record the block-structured pipeline produces, the
    texts of the blocks are strings and [full_text] is the newline-join
    of exactly those that are not blank (empty or white space only), in
    the order of the blocks. *)
Theorem full_text_is_join_of_nonblank path W W' d :
  process_image E path W = (Ok (Some d), W') ->
  exists texts,
    map block_text (text_blocks d) = map PStr texts /\
    full_text d = join newline (List.filter nonblank texts).
Proof.
  intros H.
  apply process_image_some in H
    as (rp & W1 & i & result & parts & _ & _ & _ & Hx & Hf & _).
  apply extract_full_text in Hx as (texts & Ht & ->).
  exists texts. auto.
Qed.

(** ** C9, as amended *)


End ProcessImageFacts.

Section WellFormedOutput.
Import Paddle.
Variable E : PaddleEnv.

(** A well-formed block is never skipped. *)
Lemma parse_block_well_formed idx c t s acc :
  parse_block E idx (block c t s) acc =
  (Ok tt, (fst acc ++ [{| block_id := idx; block_text := PStr t;
                          confidence := s; coordinates := c |}],
           snd acc ++ (if nonblank t then [t] else []))).
Proof.
  unfold parse_block, block, try_except_only, bind, lift. simpl.
  unfold append_block, append_part, ret. simpl.
  rewrite strip_truthy. fold (nonblank t).
  destruct (nonblank t); simpl; rewrite ?app_nil_r; reflexivity.
Qed.

Lemma parse_blocks_well_formed bs :
  forall idx acc,
    parse_blocks E idx
      (map (fun b => block (fst (fst b)) (snd (fst b)) (snd b)) bs) acc =
    (Ok tt, (fst acc ++ page_records idx bs, snd acc ++ page_parts bs)).
Proof.
  induction bs as [| [[c t] s] rest IH]; intros idx acc; simpl.
  - unfold ret, page_parts. simpl. rewrite !app_nil_r.
    destruct acc. reflexivity.
  - rewrite (bind_eq _ _ _ _ _ (parse_block_well_formed idx c t s acc)).
    rewrite IH. simpl. unfold page_parts. simpl.
    rewrite <- !app_assoc. simpl.
    destruct (nonblank t); reflexivity.
Qed.

Lemma parse_pages_well_formed pages :
  forall acc,
    parse_pages E (map page_value pages) acc =
    (Ok tt, (fst acc ++ concat (map (page_records 0) pages),
             snd acc ++ concat (map page_parts pages))).
Proof.
  induction pages as [| bs rest IH]; intros acc; simpl.
  - unfold ret. rewrite !app_nil_r. destruct acc. reflexivity.
  - unfold parse_page, page_value at 1. unfold bind at 1. unfold bind at 1.
    unfold lift. simpl py_iter. cbv iota beta.
    rewrite parse_blocks_well_formed. rewrite IH. simpl.
    rewrite <- !app_assoc. reflexivity.
Qed.

(** On an output made of well-formed blocks the extraction keeps every
    block, numbered by its position in its page, and collects the
    non-blank texts. *)
Lemma extract_well_formed pages :
  extract E (PList (map page_value pages)) =
  Ok (concat (map (page_records 0) pages), concat (map page_parts pages)).
Proof.
  unfold extract. unfold bind at 1. unfold lift. simpl py_iter. cbv iota beta.
  rewrite parse_pages_well_formed. reflexivity.
Qed.

(** X9. The whole of [process_image] on a readable image within the limit
    whose engine output is well formed: a record is produced, nothing is
    written, the clock advances by one reading. *)
Lemma process_image_well_formed path W img pages :
  fs W !! path = Some (CImage img) ->
  Z.max (fst (img_size img)) (snd (img_size img)) <= default_max_size ->
  predict E img = Ok (PList (map page_value pages)) ->
  process_image E path W =
  (Ok (Some {| filename := basename path;
               filetype := "image";
               text_blocks := concat (map (page_records 0) pages);
               full_text := join newline (concat (map page_parts pages));
               timestamp := clock W;
               image_size := img_size img;
               image_mode := img_mode img;
               ocr_engine := "PaddleOCR";
               total_blocks := length (concat (map (page_records 0) pages));
               page_number := None |}),
   {| fs := fs W; locked := locked W; clock := S (clock W) |}).
Proof.
  intros Hfs Hmax Hp. unfold process_image, try_except.
  assert (Hr : resize_image path default_max_size W = (Ok path, W)).
  { unfold resize_image, bind, image_open. rewrite Hfs.
    destruct (img_size img) as [w h]. simpl in Hmax.
    destruct (default_max_size <? Z.max w h) eqn:Ec;
      [apply Z.ltb_lt in Ec; lia | reflexivity]. }
  rewrite (bind_eq _ _ _ _ _ Hr).
  assert (Hpf : predict_file E path W = (Ok (PList (map page_value pages)), W)).
  { unfold predict_file. rewrite Hfs, Hp. reflexivity. }
  rewrite (bind_eq _ _ _ _ _ Hpf).
  unfold bind at 1. unfold lift. rewrite extract_well_formed.
  rewrite String.eqb_refl. cbn [negb].
  unfold bind at 1. unfold ret at 1.
  unfold bind at 1. unfold now.
  unfold bind at 1. unfold image_open at 1. cbn [fs]. rewrite Hfs.
  unfold bind at 1. unfold image_open at 1. cbn [fs]. rewrite Hfs.
  reflexivity.
Qed.

End WellFormedOutput.

(* ===================================================================== *)
(** * Failure isolation: nothing escapes the file boundary                 *)
(* ===================================================================== *)

Section TotalFacts.
Context {S A B : Type}.

Lemma total_ret (a : A) : total (S := S) (ret a).
Proof. intros s. unfold ret. eauto. Qed.

Lemma total_bind (c : St S A) (k : A -> St S B) :
  total c -> (forall a, total (k a)) -> total (bind c k).
Proof.
  intros Hc Hk s. destruct (Hc s) as (a & s1 & E1).
  rewrite (bind_eq c k s a s1 E1). apply Hk.
Qed.

Lemma total_try_except (c : St S A) (h : exn -> St S A) :
  (forall e, total (h e)) -> total (try_except c h).
Proof.
  intros Hh s. apply try_except_total. intros e s1. apply Hh.
Qed.

End TotalFacts.

Lemma total_path_isfile p : total (path_isfile p).
Proof. intros W. unfold path_isfile. eauto. Qed.

Lemma total_path_isdir p : total (path_isdir p).
Proof. intros W. unfold path_isdir. eauto. Qed.

Lemma total_path_exists p : total (path_exists p).
Proof. intros W. unfold path_exists. eauto. Qed.

Lemma total_os_remove_pass path :
  total (try_except_only Paddle.os_error (os_remove path) (fun _ => ret tt)).
Proof. intros W. destruct (os_remove_pass path W) as (W1 & H & _). eauto. Qed.

Create HintDb total.
#[local] Hint Resolve total_ret total_path_isfile total_path_isdir
  total_path_exists total_os_remove_pass : total.

Ltac total_step :=
  first [ apply total_ret
        | apply total_try_except; intros
        | apply total_bind; [| intros] ].

Section PaddleTotal.
Import Paddle.
Variable E : PaddleEnv.
Variable out : string.

Lemma total_process_image path : total (process_image E path).
Proof. unfold process_image. total_step. apply total_ret. Qed.

Lemma total_process_pdf_pages images :
  forall i results, total (process_pdf_pages E images i results).
Proof.
  induction images as [| img rest IH]; intros i results; simpl.
  - apply total_ret.
  - apply total_bind; [| intros; apply IH].
    apply total_try_except. intros. apply total_ret.
Qed.

Lemma total_process_pdf path : total (process_pdf E path).
Proof. unfold process_pdf. total_step. apply total_ret. Qed.

Lemma total_save_results data input : total (save_results out data input).
Proof.
  unfold save_results. destruct (negb (truthy data)).
  - apply total_ret.
  - total_step. apply total_ret.
Qed.

Lemma total_process_file path : total (process_file E out path).
Proof.
  unfold process_file. apply total_bind; [auto with total |].
  intros ex. destruct (negb ex); [apply total_ret |].
  destruct (str_in _ _).
  - apply total_bind; [apply total_process_image |]. intros r.
    destruct (truthy _); [apply total_save_results | apply total_ret].
  - destruct (String.eqb _ _); [| apply total_ret].
    apply total_bind; [apply total_process_pdf |]. intros r.
    destruct (truthy _); [apply total_save_results | apply total_ret].
Qed.

(** The step of the directory loop at a regular file. *)
Lemma entries_step dir name rest p f W c b W1 :
  fs W !! path_join dir name = Some c ->
  (forall names, c <> CDir names) ->
  process_file E out (path_join dir name) W = (Ok b, W1) ->
  process_entries E out dir (name :: rest) (p, f) W =
  process_entries E out dir rest (if b then (S p, f) else (p, S f)) W1.
Proof.
  intros Hfs Hc Hp. simpl.
  unfold bind at 1. unfold path_isfile. rewrite Hfs.
  destruct c; try (exfalso; eapply Hc; reflexivity);
    rewrite (bind_eq _ _ _ _ _ Hp); destruct b; reflexivity.
Qed.


End PaddleTotal.

Section TesseractTotal.
Import Tesseract.
Variable E : TesseractEnv.
Variable out : string.

Lemma total_tess_process_image path : total (process_image E path).
Proof. unfold process_image. total_step. apply total_ret. Qed.

Lemma total_tess_process_pdf path : total (process_pdf E path).
Proof. unfold process_pdf. total_step. apply total_ret. Qed.

Lemma total_tess_save_results data input : total (save_results out data input).
Proof.
  unfold save_results. destruct (negb (truthy data)).
  - apply total_ret.
  - total_step. apply total_ret.
Qed.

Lemma total_process_single_file path : total (process_single_file E path).
Proof.
  unfold process_single_file. destruct (str_in _ _).
  - apply total_bind; [apply total_tess_process_image | intros; apply total_ret].
  - destruct (String.eqb _ _); [| apply total_ret].
    apply total_bind; [apply total_tess_process_pdf | intros; apply total_ret].
Qed.

(** The step of the directory loop at a regular file that yields no
    result. *)
Lemma tess_entries_step_none dir name rest p k W c W1 :
  fs W !! path_join dir name = Some c ->
  (forall names, c <> CDir names) ->
  process_single_file E (path_join dir name) W = (Ok None, W1) ->
  process_entries E out dir (name :: rest) (p, k) W =
  process_entries E out dir rest (p, S k) W1.
Proof.
  intros Hfs Hc Hp. simpl.
  unfold bind at 1. unfold path_isfile. rewrite Hfs.
  destruct c; try (exfalso; eapply Hc; reflexivity);
    rewrite (bind_eq _ _ _ _ _ Hp); reflexivity.
Qed.

(** The step at a regular file that yields a result. *)
Lemma tess_entries_step_some dir name rest p k W c r W1 b W2 :
  fs W !! path_join dir name = Some c ->
  (forall names, c <> CDir names) ->
  process_single_file E (path_join dir name) W = (Ok (Some r), W1) ->
  save_results out (Some r) (path_join dir name) W1 = (Ok b, W2) ->
  process_entries E out dir (name :: rest) (p, k) W =
  process_entries E out dir rest (if b then (S p, k) else (p, S k)) W2.
Proof.
  intros Hfs Hc Hp Hs. simpl.
  unfold bind at 1. unfold path_isfile. rewrite Hfs.
  destruct c; try (exfalso; eapply Hc; reflexivity);
    rewrite (bind_eq _ _ _ _ _ Hp); rewrite (bind_eq _ _ _ _ _ Hs);
    destruct b; reflexivity.
Qed.


End TesseractTotal.

(* ===================================================================== *)
(** * Result writing ([save_results])                                      *)
(* ===================================================================== *)

Section WriterFacts.

Lemma set_fs_insert_twice path x y W :
  set_fs (insert path x) (set_fs (insert path y) W) = set_fs (insert path x) W.
Proof. unfold set_fs. simpl. f_equal. apply insert_insert_eq. Qed.

(** The guarded block of [save_results]. *)
Lemma write_artifact_outcome j path W :
  exists saved W',
    try_except
      (let* _ := open_w path in
       let* _ := json_dump j path in
       ret true)
      (fun _ => ret false) W = (Ok saved, W') /\
    artifact_outcome j path W saved W'.
Proof.
  unfold artifact_outcome, try_except, bind, ret, open_w, json_dump.
  destruct (json_tokens j) as [toks ok].
  destruct (fs W !! path) as [[] |]; simpl;
    try (exists false, W; split; [reflexivity | auto]; fail);
    (destruct (decide _); simpl;
     [ exists false, W; split; [reflexivity | auto]
     | rewrite set_fs_insert_twice; destruct ok; simpl;
       [ exists true | exists false ];
       exists (set_fs (insert path (CText toks)) W); auto ]).
Qed.

End WriterFacts.

Section SaveResultsFacts.

Lemma paddle_save_results_outcome out data input W :
  exists saved W',
    Paddle.save_results out data input W = (Ok saved, W') /\
    (truthy data = false -> saved = false /\ W' = W) /\
    (forall d, data = Some d -> truthy data = true ->
       artifact_outcome (data_json Paddle.doc_json d)
         (output_path out input) W saved W').
Proof.
  unfold Paddle.save_results.
  destruct (truthy data) eqn:Ht; simpl.
  - destruct data as [d |]; [| discriminate]. cbv zeta.
    destruct (write_artifact_outcome (data_json Paddle.doc_json d)
                (output_path out input) W) as (saved & W' & Hw & Ho).
    exists saved, W'. split; [exact Hw |]. split; [discriminate |].
    intros d' Hd _. injection Hd as <-. exact Ho.
  - exists false, W. unfold ret. split; [reflexivity |].
    split; [auto | discriminate].
Qed.

Lemma tess_save_results_outcome out data input W :
  exists saved W',
    Tesseract.save_results out data input W = (Ok saved, W') /\
    (truthy data = false -> saved = false /\ W' = W) /\
    (forall d, data = Some d -> truthy data = true ->
       artifact_outcome (data_json Tesseract.doc_json d)
         (output_path out input) W saved W').
Proof.
  unfold Tesseract.save_results.
  destruct (truthy data) eqn:Ht; simpl.
  - destruct data as [d |]; [| discriminate]. cbv zeta.
    destruct (write_artifact_outcome (data_json Tesseract.doc_json d)
                (output_path out input) W) as (saved & W' & Hw & Ho).
    exists saved, W'. split; [exact Hw |]. split; [discriminate |].
    intros d' Hd _. injection Hd as <-. exact Ho.
  - exists false, W. unfold ret. split; [reflexivity |].
    split; [auto | discriminate].
Qed.

(** ** C5, as amended *)

(** C5 (amended). [save_results] never raises and reports a failure by
    returning false; the batch then counts the file as failed, also when
    recognition had succeeded.  Writing is not all-or-nothing: when the
    failure comes after the output file was opened, the output path holds
    the emptied or truncated artifact (the tokens emitted before the
    encoder raised), and what was there before is lost; the file is left
    untouched only when it could not be opened or there was nothing to
    save. *)
Theorem save_results_reports_failure :
  (forall out data input W,
      exists saved W',
        Paddle.save_results out data input W = (Ok saved, W') /\
        (truthy data = false -> saved = false /\ W' = W) /\
        (forall d, data = Some d -> truthy data = true ->
           artifact_outcome (data_json Paddle.doc_json d)
             (output_path out input) W saved W')) /\
  (forall out data input W,
      exists saved W',
        Tesseract.save_results out data input W = (Ok saved, W') /\
        (truthy data = false -> saved = false /\ W' = W) /\
        (forall d, data = Some d -> truthy data = true ->
           artifact_outcome (data_json Tesseract.doc_json d)
             (output_path out input) W saved W')) /\
  (forall E out dir name rest p f W c d W1 W2,
      fs W !! path_join dir name = Some c ->
      (forall names, c <> CDir names) ->
      str_in (file_ext (path_join dir name)) Paddle.image_extensions = true ->
      Paddle.process_image E (path_join dir name) W = (Ok (Some d), W1) ->
      Paddle.save_results out (Some (Single d)) (path_join dir name) W1
        = (Ok false, W2) ->
      Paddle.process_entries E out dir (name :: rest) (p, f) W =
      Paddle.process_entries E out dir rest (p, S f) W2) /\
  (forall E out dir name rest p k W c r W1 W2,
      fs W !! path_join dir name = Some c ->
      (forall names, c <> CDir names) ->
      Tesseract.process_single_file E (path_join dir name) W
        = (Ok (Some r), W1) ->
      Tesseract.save_results out (Some r) (path_join dir name) W1
        = (Ok false, W2) ->
      Tesseract.process_entries E out dir (name :: rest) (p, k) W =
      Tesseract.process_entries E out dir rest (p, S k) W2).
Proof.
  split; [exact paddle_save_results_outcome |].
  split; [exact tess_save_results_outcome |].
  split.
  - intros E out dir name rest p f W c d W1 W2 Hfs Hc Hext Hp Hs.
    apply (entries_step E out dir name rest p f W c false W2 Hfs Hc).
    unfold Paddle.process_file.
    assert (Hex : path_exists (path_join dir name) W = (Ok true, W)).
    { unfold path_exists. rewrite Hfs. reflexivity. }
    rewrite (bind_eq _ _ _ _ _ Hex). cbn [negb]. cbv zeta. rewrite Hext.
    rewrite (bind_eq _ _ _ _ _ Hp). cbn [option_map truthy]. exact Hs.
  - intros E out dir name rest p k W c r W1 W2 Hfs Hc Hp Hs.
    apply (tess_entries_step_some E out dir name rest p k W c r W1 false W2
             Hfs Hc Hp Hs).
Qed.

End SaveResultsFacts.

(* ===================================================================== *)
(** * File-type dispatch                                                   *)
(* ===================================================================== *)

Section DispatchFacts.

Lemma str_in_In x l : str_in x l = true <-> In x l.
Proof.
  unfold str_in. rewrite existsb_exists. split.
  - intros (y & Hy & He). apply String.eqb_eq in He. subst. exact Hy.
  - intros H. exists x. split; [exact H | apply String.eqb_refl].
Qed.

Lemma str_in_not_In x l : str_in x l = false <-> ~ In x l.
Proof.
  rewrite <- str_in_In. destruct (str_in x l); split; intros H;
    try discriminate; try reflexivity; try (intros C; discriminate).
  exfalso. apply H. reflexivity.
Qed.

(** ** C7, as amended *)

(** C7 (amended). Each program dispatches on the lower-cased extension
    against its own tuple.  [main.py] sends [.jpg .jpeg .png .bmp .tiff
    .gif] to image processing, [paddle_ocr.py] sends [.jpg .jpeg .png
    .bmp .tiff .webp]; in both exactly [.pdf] goes to PDF processing and
    every other extension yields no result and no call of either
    processing function (so [.webp] in [main.py] and [.gif] in
    [paddle_ocr.py] are not processed). *)
Theorem dispatch_by_extension :
  (forall E path W,
      (In (file_ext path) Tesseract.image_extensions ->
       Tesseract.process_single_file E path W =
       (let* r := Tesseract.process_image E path in
        ret (option_map Single r)) W) /\
      (file_ext path = ".pdf" ->
       Tesseract.process_single_file E path W =
       (let* r := Tesseract.process_pdf E path in
        ret (option_map Pages r)) W) /\
      (~ In (file_ext path) Tesseract.image_extensions ->
       file_ext path <> ".pdf" ->
       Tesseract.process_single_file E path W = (Ok None, W))) /\
  (forall E out path W c,
      fs W !! path = Some c ->
      (In (file_ext path) Paddle.image_extensions ->
       Paddle.process_file E out path W =
       (let* r := Paddle.process_image E path in
        if truthy (option_map Single r)
        then Paddle.save_results out (option_map Single r) path
        else ret false) W) /\
      (file_ext path = ".pdf" ->
       Paddle.process_file E out path W =
       (let* r := Paddle.process_pdf E path in
        if truthy (option_map Pages r)
        then Paddle.save_results out (option_map Pages r) path
        else ret false) W) /\
      (~ In (file_ext path) Paddle.image_extensions ->
       file_ext path <> ".pdf" ->
       Paddle.process_file E out path W = (Ok false, W))).
Proof.
  split.
  - intros E path W. unfold Tesseract.process_single_file.
    repeat split.
    + intros Hin. apply str_in_In in Hin. rewrite Hin. reflexivity.
    + intros Hpdf. rewrite Hpdf. reflexivity.
    + intros Hn Hp. apply str_in_not_In in Hn. rewrite Hn.
      apply String.eqb_neq in Hp. rewrite Hp. reflexivity.
  - intros E out path W c Hfs. unfold Paddle.process_file.
    assert (Hex : path_exists path W = (Ok true, W)).
    { unfold path_exists. rewrite Hfs. reflexivity. }
    rewrite (bind_eq _ _ _ _ _ Hex). cbn [negb]. cbv zeta.
    repeat split.
    + intros Hin. apply str_in_In in Hin. rewrite Hin. reflexivity.
    + intros Hpdf. rewrite Hpdf. reflexivity.
    + intros Hn Hp. apply str_in_not_In in Hn. rewrite Hn.
      apply String.eqb_neq in Hp. rewrite Hp. reflexivity.
Qed.

(** ** C6, as amended *)

(** C6 (amended). A regular file whose extension is neither in the
    program's tuple of image extensions nor [.pdf] is skipped: nothing is
    read or written for it (the world is unchanged, so no artifact), and
    the loop goes on with the next entry.  It is not counted apart from
    the failures: it adds one to the same second counter
    ([files_failed], [skipped_files]) that failed files add to. *)
Theorem unsupported_file_skipped :
  (forall E out dir name rest p f W c,
      fs W !! path_join dir name = Some c ->
      (forall names, c <> CDir names) ->
      ~ In (file_ext (path_join dir name)) Paddle.image_extensions ->
      file_ext (path_join dir name) <> ".pdf" ->
      Paddle.process_file E out (path_join dir name) W = (Ok false, W) /\
      Paddle.process_entries E out dir (name :: rest) (p, f) W =
      Paddle.process_entries E out dir rest (p, S f) W) /\
  (forall E out dir name rest p k W c,
      fs W !! path_join dir name = Some c ->
      (forall names, c <> CDir names) ->
      ~ In (file_ext (path_join dir name)) Tesseract.image_extensions ->
      file_ext (path_join dir name) <> ".pdf" ->
      Tesseract.process_single_file E (path_join dir name) W = (Ok None, W) /\
      Tesseract.process_entries E out dir (name :: rest) (p, k) W =
      Tesseract.process_entries E out dir rest (p, S k) W).
Proof.
  split.
  - intros E out dir name rest p f W c Hfs Hc Hn Hp.
    assert (Hfile : Paddle.process_file E out (path_join dir name) W
                    = (Ok false, W)).
    { unfold Paddle.process_file.
      assert (Hex : path_exists (path_join dir name) W = (Ok true, W)).
      { unfold path_exists. rewrite Hfs. reflexivity. }
      rewrite (bind_eq _ _ _ _ _ Hex). cbn [negb]. cbv zeta.
      apply str_in_not_In in Hn. rewrite Hn.
      apply String.eqb_neq in Hp. rewrite Hp. reflexivity. }
    split; [exact Hfile |].
    apply (entries_step E out dir name rest p f W c false W Hfs Hc Hfile).
  - intros E out dir name rest p k W c Hfs Hc Hn Hp.
    assert (Hfile : Tesseract.process_single_file E (path_join dir name) W
                    = (Ok None, W)).
    { unfold Tesseract.process_single_file.
      apply str_in_not_In in Hn. rewrite Hn.
      apply String.eqb_neq in Hp. rewrite Hp. reflexivity. }
    split; [exact Hfile |].
    apply (tess_entries_step_none E out dir name rest p k W c W Hfs Hc Hfile).
Qed.

End DispatchFacts.

(* ===================================================================== *)
(** * Pages of a PDF                                                       *)
(* ===================================================================== *)

Section PdfFacts.





(** ** C1, as amended *)


End PdfFacts.

(* ===================================================================== *)
(** * The batch                                                            *)
(* ===================================================================== *)

Section BatchFacts.

Lemma paddle_pipeline_raises_none E path W W1 :
  Paddle.pipeline_raises E path W W1 ->
  Paddle.process_image E path W = (Ok None, W1).
Proof.
  unfold Paddle.process_image, try_except.
  intros [(e & Hr) | [(rp & e & Hr & Hp) | (rp & result & e & Hr & Hp & Hx)]].
  - rewrite (bind_raise _ _ _ _ _ Hr). reflexivity.
  - rewrite (bind_eq _ _ _ _ _ Hr), (bind_raise _ _ _ _ _ Hp). reflexivity.
  - rewrite (bind_eq _ _ _ _ _ Hr), (bind_eq _ _ _ _ _ Hp).
    unfold bind at 1. unfold lift. rewrite Hx. reflexivity.
Qed.







(** ** C3 *)


End BatchFacts.

(* ===================================================================== *)
(** * The driver loop of [main.py]                                         *)
(* ===================================================================== *)

Section KeepsDir.
Variable o : string.










End KeepsDir.

Section MainLoopFacts.
Import Tesseract.
Variable E : TesseractEnv.
Variable o : string.







Lemma quit_unreachable : String.eqb (lower input_path) "quit" = false.
Proof. reflexivity. Qed.



End MainLoopFacts.

Section MainLoop.
Import Tesseract.
Variable E : TesseractEnv.





(** ** C10 *)


End MainLoop.

(* ===================================================================== *)
(** * The programs on the sample worlds                                    *)
(* ===================================================================== *)

Section Samples.

(** ** C8 *)

(** C8. The resized copy is not removed when recognition fails: for a
    5000 by 3000 image and an engine that raises, [process_image]
    returns [None] and the copy [resized_scan.png], which did not exist
    before, is still there.  The removal sits on the success path only,
    after the call of the engine. *)
Theorem resized_copy_left_behind :
  fs large_scan !! "resized_scan.png" = None /\
  exists W',
    Paddle.process_image (paddle_env engine_fails) "scan.png" large_scan
    = (Ok None, W') /\
    fs W' !! "resized_scan.png" = Some (CImage (page 4000 2400)).
Proof.
  split; [vm_compute; reflexivity |].
  eexists. split; vm_compute; reflexivity.
Qed.

(** On the success path the copy is removed. *)
Example resized_copy_removed_on_success :
  exists d W',
    Paddle.process_image (paddle_env engine_lines) "scan.png" large_scan
    = (Ok (Some d), W') /\
    fs W' !! "resized_scan.png" = None.
Proof. eexists. eexists. split; vm_compute; reflexivity. Qed.

(** The temporary page files of a PDF are removed also when recognition
    fails: the file system is as it was. *)
Example temp_pages_removed :
  fs (snd (Paddle.process_pdf (paddle_env engine_fails) "in/doc.pdf" two_page_pdf))
  = fs two_page_pdf.
Proof. vm_compute. reflexivity. Qed.

(** The example of the specification: two artifacts, one record for the
    image and the records of pages 1 and 2 for the PDF. *)
Example invoice_and_receipt_batch :
  exists W',
    Paddle.process_entries (paddle_env engine_lines) "out" "in"
      ["invoice.png"; "receipt.pdf"] (0, 0)%nat invoice_and_receipt
    = (Ok (2, 0)%nat, W') /\
    is_Some (fs W' !! "out/invoice.json") /\
    is_Some (fs W' !! "out/receipt.json") /\
    exists docs W1,
      Paddle.process_pdf (paddle_env engine_lines) "in/receipt.pdf"
        invoice_and_receipt = (Ok (Some docs), W1) /\
      map Paddle.page_number docs = [Some 1%nat; Some 2%nat].
Proof.
  eexists. split; [vm_compute; reflexivity |].
  split; [vm_compute; eexists; reflexivity |].
  split; [vm_compute; eexists; reflexivity |].
  eexists. eexists. split; vm_compute; reflexivity.
Qed.

(** ** Counterexamples *)


(** C5 as stated fails: recognition succeeds, the encoder raises at the
    box of the first block, [process_file] reports the failure, and the
    output path, empty before, holds the artifact cut off after the key
    ["coordinates"]. *)
Lemma truncated_artifact_left :
  fs small_scan !! "out/scan.json" = None /\
  exists W' toks,
    Paddle.process_file (paddle_env engine_opaque_box) "out" "in/scan.png"
      small_scan = (Ok false, W') /\
    fs W' !! "out/scan.json" = Some (CText toks) /\
    last toks = Some (TokKey "coordinates").
Proof.
  split; [vm_compute; reflexivity |].
  eexists. eexists. repeat split; vm_compute; reflexivity.
Qed.

(** C6 as stated fails: the text file and the corrupt image each add one
    to the same counter; no count sets the skipped file apart. *)
Lemma unsupported_counted_with_failures :
  fst (Paddle.process_entries (paddle_env engine_lines) "out" "in"
         ["notes.txt"] (0, 0)%nat mixed_dir) = Ok (0, 1)%nat /\
  fst (Paddle.process_entries (paddle_env engine_lines) "out" "in"
         ["bad.png"] (0, 0)%nat mixed_dir) = Ok (0, 1)%nat /\
  fst (Paddle.process_entries (paddle_env engine_lines) "out" "in"
         ["notes.txt"; "bad.png"; "scan.png"] (0, 0)%nat mixed_dir)
  = Ok (1, 2)%nat /\
  fst (Tesseract.process_entries tesseract_env "out" "in"
         ["notes.txt"; "bad.png"; "scan.png"] (0, 0)%nat mixed_dir)
  = Ok (1, 2)%nat.
Proof. repeat split; vm_compute; reflexivity. Qed.

(** C7 as stated fails: [main.py] does not route a sound [.webp] image
    to image processing, which would have succeeded, and
    [paddle_ocr.py] rejects a [.gif]. *)
Lemma webp_and_gif_not_routed :
  Tesseract.process_single_file tesseract_env "a.webp" webp_and_gif
  = (Ok None, webp_and_gif) /\
  (exists d W',
      Tesseract.process_image tesseract_env "a.webp" webp_and_gif
      = (Ok (Some d), W')) /\
  Paddle.process_file (paddle_env engine_lines) "out" "a.gif" webp_and_gif
  = (Ok false, webp_and_gif).
Proof.
  split; [vm_compute; reflexivity |].
  split; [eexists; eexists; vm_compute; reflexivity |].
  vm_compute; reflexivity.
Qed.


(** ** The theorems at concrete inputs *)


(** C2 on the three lines of [engine_lines]. *)
Lemma full_text_on_sample :
  exists texts,
    map Paddle.block_text (Paddle.text_blocks small_scan_doc) = map PStr texts /\
    Paddle.full_text small_scan_doc = join newline (List.filter nonblank texts).
Proof.
  apply (full_text_is_join_of_nonblank (paddle_env engine_lines) "in/scan.png"
           small_scan
           (snd (Paddle.process_image (paddle_env engine_lines) "in/scan.png"
                   small_scan))
           small_scan_doc).
  vm_compute. reflexivity.
Defined.




(** C5 (amended) on [mixed_dir] with [engine_opaque_box]: recognition
    succeeds, saving fails, the file is counted as failed. *)
Lemma failed_save_on_sample :
  Paddle.process_entries (paddle_env engine_opaque_box) "out" "in"
    ["scan.png"] (0, 0)%nat mixed_dir =
  Paddle.process_entries (paddle_env engine_opaque_box) "out" "in"
    [] (0, 1)%nat mixed_dir_save_failed.
Proof.
  apply (proj1 (proj2 (proj2 save_results_reports_failure))
           (paddle_env engine_opaque_box) "out" "in" "scan.png" []
           0%nat 0%nat mixed_dir (CImage (page 800 600)) opaque_box_doc
           mixed_dir_recognised mixed_dir_save_failed).
  - vm_compute. reflexivity.
  - intros names. discriminate.
  - vm_compute. reflexivity.
  - vm_compute. reflexivity.
  - vm_compute. reflexivity.
Defined.

(** C6 (amended) on the text file of [mixed_dir]. *)
Lemma unsupported_file_on_sample :
  Paddle.process_file (paddle_env engine_lines) "out"
    (path_join "in" "notes.txt") mixed_dir = (Ok false, mixed_dir) /\
  Paddle.process_entries (paddle_env engine_lines) "out" "in"
    ["notes.txt"; "bad.png"] (0, 0)%nat mixed_dir =
  Paddle.process_entries (paddle_env engine_lines) "out" "in"
    ["bad.png"] (0, 1)%nat mixed_dir.
Proof.
  apply (proj1 unsupported_file_skipped
           (paddle_env engine_lines) "out" "in" "notes.txt" ["bad.png"]
           0%nat 0%nat mixed_dir CJunk).
  - vm_compute. reflexivity.
  - intros names. discriminate.
  - apply str_in_not_In. vm_compute. reflexivity.
  - vm_compute. discriminate.
Defined.

(** C7 (amended) on an upper-case extension: [A.JPG] goes to image
    processing in [main.py]. *)
Lemma dispatch_on_sample :
  Tesseract.process_single_file tesseract_env "A.JPG" webp_and_gif =
  (let* r := Tesseract.process_image tesseract_env "A.JPG" in
   ret (option_map Single r)) webp_and_gif.
Proof.
  apply (proj1 (proj1 dispatch_by_extension tesseract_env "A.JPG" webp_and_gif)).
  apply str_in_In. vm_compute. reflexivity.
Defined.


End Samples.

(* ===================================================================== *)
(** * Paths of the temporary files; more on [resize_image]                 *)
(* ===================================================================== *)

Section PathFacts.

Lemma length_substring n m s :
  String.length (String.substring n m s) = Nat.min m (String.length s - n).
Proof.
  revert n m. induction s as [| c r IH]; intros n m.
  - destruct n, m; reflexivity.
  - destruct n as [| n].
    + destruct m as [| m]; [reflexivity |]. simpl. rewrite IH.
      rewrite Nat.sub_0_r. reflexivity.
    + simpl. apply IH.
Qed.

Lemma substring_all s : String.substring 0 (String.length s) s = s.
Proof. induction s as [| c r IH]; simpl; [reflexivity | rewrite IH; reflexivity]. Qed.

Lemma string_length_app s t :
  String.length (s +:+ t) = (String.length s + String.length t)%nat.
Proof. induction s as [| c r IH]; simpl; [reflexivity | rewrite IH; reflexivity]. Qed.

(** [rfind] returns [-1] or the index of an occurrence. *)
Lemma rfind_from_spec c s :
  forall i last,
    rfind_from c s i last = last \/
    (i <= rfind_from c s i last < i + Z.of_nat (String.length s) /\
     String.get (Z.to_nat (rfind_from c s i last - i)) s = Some c).
Proof.
  induction s as [| d r IH]; intros i last; simpl rfind_from.
  - left. reflexivity.
  - destruct (IH (i + 1) (if Ascii.eqb c d then i else last)) as [E | [Hr Hg]].
    + rewrite E. destruct (Ascii.eqb c d) eqn:Ecd; [| left; reflexivity].
      right. apply Ascii.eqb_eq in Ecd. subst d.
      split; [simpl String.length; lia |].
      replace (i - i) with 0 by lia. reflexivity.
    + right. split; [simpl String.length; lia |].
      set (q := rfind_from c r (i + 1) _) in *.
      replace (Z.to_nat (q - i)) with (S (Z.to_nat (q - (i + 1)))) by lia.
      exact Hg.
Qed.

Lemma rfind_spec c s :
  rfind c s = -1 \/
  (0 <= rfind c s < Z.of_nat (String.length s) /\
   String.get (Z.to_nat (rfind c s)) s = Some c).
Proof.
  unfold rfind. destruct (rfind_from_spec c s 0 (-1)) as [E | [Hr Hg]]; [auto |].
  right. rewrite Z.sub_0_r in Hg. split; [lia | exact Hg].
Qed.

Lemma length_basename p :
  String.length (basename p)
  = (String.length p - Z.to_nat (rfind "/" p + 1))%nat.
Proof.
  unfold basename, slice_from. rewrite length_substring. lia.
Qed.

(** The resized copy never has the path of the image it is made from. *)
Lemma resized_path_ne path : resized_path path <> path.
Proof.
  intros H.
  assert (Hl : String.length (resized_path path) = String.length path)
    by (rewrite H; reflexivity).
  unfold resized_path in Hl. rewrite string_length_app, length_basename in Hl.
  simpl String.length in Hl.
  destruct (rfind_spec "/" path) as [E | [Hr Hg]].
  - rewrite E in Hl. simpl in Hl. lia.
  - assert (Hk : rfind "/" path = 7) by lia.
    rewrite Hk in Hg. rewrite <- H in Hg. discriminate Hg.
Qed.

Lemma rfind_from_lacks c s :
  lacks c s = true -> forall i last, rfind_from c s i last = last.
Proof.
  induction s as [| d r IH]; simpl; intros H i last; [reflexivity |].
  apply andb_prop in H as [Hd Hr]. rewrite (IH Hr).
  destruct (Ascii.eqb c d); [discriminate | reflexivity].
Qed.

(** A name without a slash is its own base name. *)
Lemma basename_lacks s : lacks "/" s = true -> basename s = s.
Proof.
  intros H. unfold basename, slice_from, rfind.
  rewrite (rfind_from_lacks _ _ H). simpl Z.to_nat.
  rewrite Nat.sub_0_r. apply substring_all.
Qed.

Lemma lacks_app c s t : lacks c (s +:+ t) = lacks c s && lacks c t.
Proof.
  induction s as [| d r IH]; simpl; [reflexivity |].
  rewrite IH, andb_assoc. reflexivity.
Qed.

Lemma pretty_N_char_digit x : is_digit (pretty_N_char x) = true.
Proof.
  unfold pretty_N_char.
  repeat (match goal with |- context [match ?y with _ => _ end] => destruct y end;
          try reflexivity).
Qed.

Lemma pretty_N_go_lacks c x :
  is_digit c = false ->
  forall s, lacks c s = true -> lacks c (pretty_N_go x s) = true.
Proof.
  intros Hc. induction (N.lt_wf_0 x) as [x _ IH]. intros s Hs.
  destruct (decide (0 < x)%N) as [Hx | Hx].
  - rewrite pretty_N_go_step by exact Hx. apply IH.
    + apply N.div_lt; [exact Hx | reflexivity].
    + simpl. rewrite Hs, andb_true_r.
      destruct (Ascii.eqb c (pretty_N_char (x mod 10))) eqn:Ecd; [| reflexivity].
      apply Ascii.eqb_eq in Ecd. rewrite Ecd, pretty_N_char_digit in Hc.
      discriminate.
  - assert (x = 0%N) as -> by lia. rewrite pretty_N_go_0. exact Hs.
Qed.

(** The decimal rendering of a number holds digits only. *)
Lemma pretty_nat_lacks c (n : nat) :
  is_digit c = false -> lacks c (pretty n) = true.
Proof.
  intros Hc. unfold pretty, pretty_nat, pretty, pretty_N.
  destruct (decide _).
  - simpl. destruct (Ascii.eqb c "0") eqn:Ecd; [| reflexivity].
    apply Ascii.eqb_eq in Ecd. subst c. discriminate.
  - apply pretty_N_go_lacks; [exact Hc | reflexivity].
Qed.

Lemma app_inv_tail_string s1 s2 t : s1 +:+ t = s2 +:+ t -> s1 = s2.
Proof.
  revert s2. induction s1 as [| c r IH]; intros s2 H.
  - destruct s2 as [| d r2]; [reflexivity |].
    apply (f_equal String.length) in H. rewrite !string_length_app in H. simpl in H. lia.
  - destruct s2 as [| d r2].
    + apply (f_equal String.length) in H. rewrite !string_length_app in H. simpl in H. lia.
    + simpl in H. injection H as -> H. f_equal. apply IH, H.
Qed.

Lemma temp_page_path_lacks_slash E i :
  lacks "/" (Paddle.temp_page_path E i) = true.
Proof.
  unfold Paddle.temp_page_path. rewrite !lacks_app.
  rewrite !pretty_nat_lacks by reflexivity. reflexivity.
Qed.

(** The base name of a temporary page file is the file's whole name. *)
Lemma basename_temp_page_path E i :
  basename (Paddle.temp_page_path E i) = Paddle.temp_page_path E i.
Proof. apply basename_lacks, temp_page_path_lacks_slash. Qed.

(** Different pages have different temporary files. *)
Lemma temp_page_path_inj E i j :
  Paddle.temp_page_path E i = Paddle.temp_page_path E j -> i = j.
Proof.
  unfold Paddle.temp_page_path. intros H.
  simpl in H. injection H as H.
  pose proof (app_inv_tail_string (pretty (i + 1)%nat) (pretty (j + 1)%nat) _ H)
    as Hp.
  apply (inj pretty) in Hp. lia.
Qed.

Lemma resized_path_ne_temp E p i :
  resized_path p <> Paddle.temp_page_path E i.
Proof. unfold resized_path, Paddle.temp_page_path. simpl. discriminate. Qed.

End PathFacts.

Section ResizeMore.
Import Paddle.

(** The two ways [resize_image] returns. *)
Lemma resize_image_inv path L W img rp W1 :
  fs W !! path = Some (CImage img) ->
  resize_image path L W = (Ok rp, W1) ->
  (longer_side img <= L /\ rp = path /\ W1 = W) \/
  (L < longer_side img /\
   rp = resized_path path /\
   (rp ∉ locked W) /\
   1 <= fst (img_size (resized img L)) /\
   1 <= snd (img_size (resized img L)) /\
   W1 = set_fs (insert rp (CImage (resized img L))) W).
Proof.
  intros Hfs. unfold resize_image, bind, image_open, resized, longer_side.
  rewrite Hfs.
  destruct (img_size img) as [w h] eqn:Es. cbn [fst snd img_size].
  destruct (L <? Z.max w h) eqn:Ec.
  - apply Z.ltb_lt in Ec. unfold lift, py_truediv.
    destruct (Z.max w h =? 0) eqn:E0; cbv beta iota;
      [intros H; discriminate H |].
    unfold pil_resize, scaled_size. cbn [fst snd].
    set (w' := Float.py_int (Float.mul_int w _)).
    set (h' := Float.py_int (Float.mul_int h _)).
    destruct ((w' <? 1) || (h' <? 1)) eqn:Ed; cbv beta iota;
      [intros H; discriminate H |].
    apply orb_false_elim in Ed as [E1 E2].
    apply Z.ltb_ge in E1, E2.
    unfold image_save. destruct (decide _) as [Hin | Hnin]; cbv beta iota;
      [intros H; discriminate H |].
    unfold ret. intros H. inversion H; subst.
    right. repeat split; auto.
  - apply Z.ltb_ge in Ec. unfold ret. intros H. inversion H; subst. auto.
Qed.

(** A scaled dimension does not exceed the original one. *)
Lemma scaled_within_rounding_le d L M d' :
  0 <= d -> 0 < L -> L < M -> scaled_within_rounding d L M d' -> d' <= d.
Proof.
  intros Hd HL HM S.
  assert (d * L / M <= d).
  { apply Z.div_le_upper_bound; [lia | nia]. }
  destruct S as [-> | [-> _]]; lia.
Qed.

(** X1. [resize_image] never enlarges an image and has nothing left to do
    on its own result: for a readable image of positive size (with
    [w * h < 2 ^ 51]) and a positive limit [L], the path it returns holds
    an image whose width and height do not exceed the original ones and
    whose longer side is at most [L]; called again on that path it
    returns the same path and changes nothing. *)
Theorem resize_image_shrinks_once path L W img rp W1 :
  fs W !! path = Some (CImage img) ->
  0 < fst (img_size img) -> 0 < snd (img_size img) -> 0 < L ->
  fst (img_size img) * snd (img_size img) < 2 ^ 51 ->
  resize_image path L W = (Ok rp, W1) ->
  exists img',
    fs W1 !! rp = Some (CImage img') /\
    fst (img_size img') <= fst (img_size img) /\
    snd (img_size img') <= snd (img_size img) /\
    longer_side img' <= L /\
    resize_image rp L W1 = (Ok rp, W1).
Proof.
  intros Hfs Hw Hh HL Hb Hr.
  assert (Hstable : forall p Wx i, fs Wx !! p = Some (CImage i) ->
            longer_side i <= L -> resize_image p L Wx = (Ok p, Wx)).
  { intros p Wx i Hp Hle. unfold resize_image, bind, image_open.
    rewrite Hp. unfold longer_side in Hle.
    destruct (img_size i) as [w h]. cbn [fst snd] in Hle.
    destruct (L <? Z.max w h) eqn:Ec; [apply Z.ltb_lt in Ec; lia | reflexivity]. }
  destruct (resize_image_inv path L W img rp W1 Hfs Hr)
    as [(Hle & -> & ->) | (Hlt & -> & Hl & H1 & H2 & ->)].
  - exists img. repeat split; auto; lia.
  - exists (resized img L).
    assert (Hlook : fs (set_fs (insert (resized_path path) (CImage (resized img L))) W)
                    !! resized_path path = Some (CImage (resized img L))).
    { simpl. apply lookup_insert_eq. }
    unfold longer_side in Hlt.
    pose proof (scaled_size_spec _ _ L Hw Hh HL Hlt Hb) as S.
    unfold resized in *. cbn [img_size] in *.
    destruct (scaled_size (fst (img_size img)) (snd (img_size img)) L)
      as [w' h'] eqn:Es.
    destruct S as (Sw & Sh & Sm). cbn [fst snd] in *.
    assert (Hw' : w' <= fst (img_size img)).
    { eapply scaled_within_rounding_le; [| exact HL | exact Hlt | exact Sw]. lia. }
    assert (Hh' : h' <= snd (img_size img)).
    { eapply scaled_within_rounding_le; [| exact HL | exact Hlt | exact Sh]. lia. }
    split; [exact Hlook |]. split; [exact Hw' |]. split; [exact Hh' |].
    assert (Hls : longer_side {| img_size := (w', h'); img_mode := img_mode img;
                                 img_data := img_data img |} <= L).
    { unfold longer_side. cbn [img_size fst snd]. lia. }
    split; [exact Hls |].
    eapply Hstable; [exact Hlook | exact Hls].
Qed.

(** A dimension whose exact scaled value is below one pixel becomes 0. *)
Lemma scaled_to_zero d L M d' :
  0 < d -> 0 < L -> d * L < M -> scaled_within_rounding d L M d' -> d' = 0.
Proof.
  intros Hd HL Hlt S.
  assert (Hq : d * L / M = 0) by (apply Z.div_small; nia).
  assert (Hm : (d * L) mod M = d * L) by (apply Z.mod_small; nia).
  destruct S as [-> | [_ Hz]]; [exact Hq | nia].
Qed.

(** X2. An image beyond the limit that is so elongated that its shorter
    side, scaled by [4000 / longer side], falls below one pixel cannot be
    processed: the computed size has a dimension 0, [resize] refuses it
    with [ValueError], so [resize_image] raises without writing anything
    and [process_image] returns [None]. *)
Theorem elongated_image_rejected E path W img w h :
  fs W !! path = Some (CImage img) ->
  img_size img = (w, h) ->
  0 < w -> 0 < h -> w * h < 2 ^ 51 ->
  default_max_size < Z.max w h ->
  Z.min w h * default_max_size < Z.max w h ->
  resize_image path default_max_size W = (Raise ValueError, W) /\
  process_image E path W = (Ok None, W).
Proof.
  intros Hfs Hsz Hw Hh Hb Hlt Hmin.
  assert (HL : 0 < default_max_size) by reflexivity.
  pose proof (scaled_size_spec w h default_max_size Hw Hh HL Hlt Hb) as S.
  assert (Hr : resize_image path default_max_size W = (Raise ValueError, W)).
  { unfold resize_image, bind, image_open. rewrite Hfs, Hsz.
    destruct (default_max_size <? Z.max w h) eqn:Ec;
      [| apply Z.ltb_ge in Ec; lia].
    unfold lift, py_truediv.
    destruct (Z.max w h =? 0) eqn:E0; [apply Z.eqb_eq in E0; lia |].
    cbv beta iota. unfold pil_resize. cbn [fst snd].
    unfold scaled_size in S.
    set (w' := Float.py_int (Float.mul_int w _)) in *.
    set (h' := Float.py_int (Float.mul_int h _)) in *.
    destruct S as (Sw & Sh & _).
    assert (Hz : w' = 0 \/ h' = 0).
    { destruct (Z.min_spec w h) as [[_ Em] | [_ Em]]; rewrite Em in Hmin.
      - left. eapply scaled_to_zero; [exact Hw | exact HL | exact Hmin | exact Sw].
      - right. eapply scaled_to_zero; [exact Hh | exact HL | exact Hmin | exact Sh]. }
    assert (Hd : (w' <? 1) || (h' <? 1) = true).
    { apply orb_true_iff. destruct Hz as [-> | ->]; [left | right]; reflexivity. }
    rewrite Hd. reflexivity. }
  split; [exact Hr |].
  unfold process_image, try_except.
  rewrite (bind_raise _ _ _ _ _ Hr). reflexivity.
Qed.

End ResizeMore.

(* ===================================================================== *)
(** * What a computation leaves untouched                                  *)
(* ===================================================================== *)

Section PreservesFacts.
Variable R : World -> World -> Prop.
Hypothesis R_refl : forall W, R W W.
Hypothesis R_trans : forall W1 W2 W3, R W1 W2 -> R W2 W3 -> R W1 W3.

Lemma preserves_reads {A} (c : M A) :
  (forall W, snd (c W) = W) -> preserves R c.
Proof.
  intros H W r W' Hc. specialize (H W). rewrite Hc in H. simpl in H.
  subst. apply R_refl.
Qed.

Lemma preserves_ret {A} (a : A) : preserves R (ret a).
Proof. apply preserves_reads. reflexivity. Qed.

Lemma preserves_lift {A} (x : Result A) : preserves R (lift x).
Proof. apply preserves_reads. reflexivity. Qed.

Lemma preserves_image_open p : preserves R (image_open p).
Proof.
  apply preserves_reads. intros W. unfold image_open.
  destruct (fs W !! p) as [[] |]; reflexivity.
Qed.

Lemma preserves_convert_from_path p : preserves R (convert_from_path p).
Proof.
  apply preserves_reads. intros W. unfold convert_from_path.
  destruct (fs W !! p) as [[] |]; reflexivity.
Qed.

Lemma preserves_listdir p : preserves R (listdir p).
Proof.
  apply preserves_reads. intros W. unfold listdir.
  destruct (fs W !! p) as [[] |]; reflexivity.
Qed.

Lemma preserves_path_isfile p : preserves R (path_isfile p).
Proof. apply preserves_reads. reflexivity. Qed.

Lemma preserves_path_isdir p : preserves R (path_isdir p).
Proof. apply preserves_reads. reflexivity. Qed.

Lemma preserves_path_exists p : preserves R (path_exists p).
Proof. apply preserves_reads. reflexivity. Qed.

Lemma preserves_predict_file E p : preserves R (Paddle.predict_file E p).
Proof.
  apply preserves_reads. intros W. unfold Paddle.predict_file.
  destruct (fs W !! p) as [[] |]; reflexivity.
Qed.

(** Sequencing, where the rest may rely on a fact [Q] about the value
    of the first part. *)
Lemma preserves_bind_post {A B} (Q : A -> Prop) (c : M A) (k : A -> M B) :
  preserves R c ->
  (forall W a W', c W = (Ok a, W') -> Q a) ->
  (forall a, Q a -> preserves R (k a)) ->
  preserves R (bind c k).
Proof.
  intros Hc HQ Hk W r W'. unfold bind.
  destruct (c W) as [[a | e] W1] eqn:Ec.
  - intros Hka. eapply R_trans; [eapply Hc, Ec |].
    eapply Hk; [eapply HQ, Ec | exact Hka].
  - intros H. inversion H; subst. eapply Hc, Ec.
Qed.

Lemma preserves_bind {A B} (c : M A) (k : A -> M B) :
  preserves R c -> (forall a, preserves R (k a)) -> preserves R (bind c k).
Proof.
  intros Hc Hk. apply (preserves_bind_post (fun _ => True)); auto.
Qed.

Lemma preserves_try_except {A} (c : M A) (h : exn -> M A) :
  preserves R c -> (forall e, preserves R (h e)) ->
  preserves R (try_except c h).
Proof.
  intros Hc Hh W r W'. unfold try_except.
  destruct (c W) as [[a | e] W1] eqn:Ec.
  - intros H. inversion H; subst. eapply Hc, Ec.
  - intros Hka. eapply R_trans; [eapply Hc, Ec | eapply Hh, Hka].
Qed.

Lemma preserves_try_except_only {A} catches (c : M A) (h : exn -> M A) :
  preserves R c -> (forall e, preserves R (h e)) ->
  preserves R (try_except_only catches c h).
Proof.
  intros Hc Hh W r W'. unfold try_except_only.
  destruct (c W) as [[a | e] W1] eqn:Ec.
  - intros H. inversion H; subst. eapply Hc, Ec.
  - destruct (catches e).
    + intros Hka. eapply R_trans; [eapply Hc, Ec | eapply Hh, Hka].
    + intros H. inversion H; subst. eapply Hc, Ec.
Qed.

End PreservesFacts.

Section SameExcept.
Variable P : string -> Prop.

Lemma same_except_refl W : same_except P W W.
Proof. split; auto. Qed.

Lemma same_except_trans W1 W2 W3 :
  same_except P W1 W2 -> same_except P W2 W3 -> same_except P W1 W3.
Proof.
  intros [F1 L1] [F2 L2]. split; [| congruence].
  intros p Hp. rewrite F2, F1; auto.
Qed.

Lemma same_except_insert p c W :
  P p -> same_except P W (set_fs (insert p c) W).
Proof.
  intros Hp. split; [| reflexivity]. intros q Hq. simpl.
  apply lookup_insert_ne. intros ->. auto.
Qed.

Lemma same_except_delete p W :
  P p -> same_except P W (set_fs (delete p) W).
Proof.
  intros Hp. split; [| reflexivity]. intros q Hq. simpl.
  apply lookup_delete_ne. intros ->. auto.
Qed.

Lemma touches_now : preserves (same_except P) now.
Proof. intros W r W' H. inversion H; subst. split; auto. Qed.

Lemma touches_image_save img p :
  P p -> preserves (same_except P) (image_save img p).
Proof.
  intros Hp W r W'. unfold image_save. destruct (decide _); intros H;
    inversion H; subst; [apply same_except_refl | apply same_except_insert, Hp].
Qed.

Lemma touches_os_remove p :
  P p -> preserves (same_except P) (os_remove p).
Proof.
  intros Hp W r W'. unfold os_remove.
  destruct (fs W !! p) as [[] |]; try destruct (decide _); intros H;
    inversion H; subst;
    first [apply same_except_refl | apply same_except_delete, Hp].
Qed.

Lemma touches_open_w p :
  P p -> preserves (same_except P) (open_w p).
Proof.
  intros Hp W r W'. unfold open_w.
  destruct (fs W !! p) as [[] |]; try destruct (decide _); intros H;
    inversion H; subst;
    first [apply same_except_refl | apply same_except_insert, Hp].
Qed.

Lemma touches_json_dump j p :
  P p -> preserves (same_except P) (json_dump j p).
Proof.
  intros Hp W r W'. unfold json_dump.
  destruct (json_tokens j) as [toks []]; intros H; inversion H; subst;
    apply same_except_insert, Hp.
Qed.

Lemma touches_makedirs p :
  P p -> preserves (same_except P) (makedirs p).
Proof.
  intros Hp W r W'. unfold makedirs.
  destruct (fs W !! p) as [[] |]; try destruct (decide _); intros H;
    inversion H; subst;
    first [apply same_except_refl | apply same_except_insert, Hp].
Qed.

End SameExcept.

Lemma same_except_weaken (P Q : string -> Prop) W W' :
  (forall p, P p -> Q p) -> same_except P W W' -> same_except Q W W'.
Proof.
  intros HPQ [F L]. split; [| exact L]. intros p Hq. apply F. auto.
Qed.

Lemma touches_weaken (P Q : string -> Prop) {A} (c : M A) :
  (forall p, P p -> Q p) ->
  preserves (same_except P) c -> preserves (same_except Q) c.
Proof.
  intros HPQ Hc W r W' H. eapply same_except_weaken; [exact HPQ |].
  eapply Hc, H.
Qed.

(** Applies the rules of [preserves] along the structure of a
    computation; [Hrefl] and [Htrans] show that the relation is a
    preorder. *)
Ltac preserve_with Hrefl Htrans :=
  repeat first
    [ apply (preserves_ret _ Hrefl)
    | apply (preserves_lift _ Hrefl)
    | apply (preserves_image_open _ Hrefl)
    | apply (preserves_convert_from_path _ Hrefl)
    | apply (preserves_listdir _ Hrefl)
    | apply (preserves_path_isfile _ Hrefl)
    | apply (preserves_path_isdir _ Hrefl)
    | apply (preserves_path_exists _ Hrefl)
    | apply (preserves_predict_file _ Hrefl)
    | apply (preserves_bind _ Htrans); [| intros ?]
    | apply (preserves_try_except _ Htrans); [| intros ?]
    | apply (preserves_try_except_only _ Htrans); [| intros ?]
    | match goal with
      | |- preserves _ (if ?b then _ else _) => destruct b
      | |- preserves _ (match ?x with _ => _ end) => destruct x
      end ].

Ltac touches P :=
  preserve_with (same_except_refl P) (same_except_trans P);
  try apply touches_now.

Section PaddleFootprint.
Import Paddle.
Variable E : PaddleEnv.

(** [resize_image] returns the path it was given or that of the copy. *)
Lemma resize_image_result path L W rp W1 :
  resize_image path L W = (Ok rp, W1) ->
  rp = path \/ rp = resized_path path.
Proof.
  intros H.
  destruct (fs W !! path) as [c |] eqn:Hfs.
  2:{ unfold resize_image, bind, image_open in H. rewrite Hfs in H.
      discriminate H. }
  destruct c as [img | | | |];
    try (unfold resize_image, bind, image_open in H; rewrite Hfs in H;
         discriminate H).
  destruct (resize_image_inv path L W img rp W1 Hfs H)
    as [(_ & -> & _) | (_ & -> & _)]; auto.
Qed.

Lemma touches_resize_image path L :
  preserves (same_except (fun p => p = resized_path path))
            (resize_image path L).
Proof.
  unfold resize_image.
  touches (fun p => p = resized_path path).
  apply touches_image_save. reflexivity.
Qed.

(** [process_image] writes and removes nothing but the resized copy. *)
Lemma touches_process_image path :
  preserves (same_except (fun p => p = resized_path path))
            (process_image E path).
Proof.
  set (P := fun p => p = resized_path path).
  unfold process_image.
  apply (preserves_try_except _ (same_except_trans P));
    [| intros e; apply (preserves_ret _ (same_except_refl P))].
  apply (preserves_bind_post _ (same_except_trans P)
           (fun rp => rp = path \/ rp = resized_path path)).
  - apply touches_resize_image.
  - intros W a W' H. eapply resize_image_result, H.
  - intros rp Hrp.
    apply (preserves_bind _ (same_except_trans P));
      [apply (preserves_predict_file _ (same_except_refl P)) | intros result].
    apply (preserves_bind _ (same_except_trans P));
      [apply (preserves_lift _ (same_except_refl P)) | intros [tbs parts]].
    apply (preserves_bind _ (same_except_trans P)).
    + destruct Hrp as [-> | ->].
      * rewrite String.eqb_refl. apply (preserves_ret _ (same_except_refl P)).
      * destruct (negb _); [| apply (preserves_ret _ (same_except_refl P))].
        apply (preserves_try_except_only _ (same_except_trans P));
          [| intros e; apply (preserves_ret _ (same_except_refl P))].
        apply touches_os_remove. reflexivity.
    + intros _. touches P.
Qed.

(** The run of a successful [process_image], stage by stage. *)
Lemma process_image_run path W d W' :
  process_image E path W = (Ok (Some d), W') ->
  exists rp W1 result tbs parts W2 img,
    resize_image path default_max_size W = (Ok rp, W1) /\
    predict_file E rp W1 = (Ok result, W1) /\
    extract E result = Ok (tbs, parts) /\
    (if negb (String.eqb rp path)
     then try_except_only os_error (os_remove rp) (fun _ => ret tt)
     else ret tt) W1 = (Ok tt, W2) /\
    fs W2 !! path = Some (CImage img) /\
    W' = {| fs := fs W2; locked := locked W2; clock := S (clock W2) |} /\
    d = {| filename := basename path;
           filetype := "image";
           text_blocks := tbs;
           full_text := join newline parts;
           timestamp := clock W2;
           image_size := img_size img;
           image_mode := img_mode img;
           ocr_engine := "PaddleOCR";
           total_blocks := length tbs;
           page_number := None |}.
Proof.
  intros H. unfold process_image in H. apply try_except_none_some in H.
  apply bind_ok in H as (rp & W1 & Hr & H).
  apply bind_ok in H as (result & Wp & Hp & H).
  assert (Wp = W1) as ->.
  { unfold predict_file in Hp. destruct (fs W1 !! rp) as [[] |];
      inversion Hp; reflexivity. }
  apply bind_ok in H as ([tbs parts] & Wx & Hx & H).
  apply lift_ok in Hx as [Hx ->].
  apply bind_ok in H as ([] & W2 & Hc & H).
  apply bind_ok in H as (ts & W3 & Hn & H).
  unfold now in Hn. inversion Hn; subst ts W3; clear Hn.
  apply bind_ok in H as (img1 & W4 & H1 & H).
  apply bind_ok in H as (img2 & W5 & H2 & H).
  apply ret_ok in H as [Hd ->].
  unfold image_open in H1, H2. simpl in H1.
  destruct (fs W2 !! path) as [[img | | | |] |] eqn:Hfs; try discriminate H1.
  inversion H1; subst img1 W4; clear H1. simpl in H2. rewrite Hfs in H2.
  inversion H2; subst img2 W5; clear H2.
  exists rp, W1, result, tbs, parts, W2, img.
  repeat split; auto. congruence.
Qed.

End PaddleFootprint.

(* ===================================================================== *)
(** * Effects of [process_image] and [process_pdf] (PaddleOCR)             *)
(* ===================================================================== *)

Section PaddleEffects.
Import Paddle.
Variable E : PaddleEnv.

(** X3. Whatever its outcome, [process_image] creates, overwrites or
    removes no file but the resized copy [resized_<base name>]: every
    other path holds what it held before, the input image among them,
    and the locked paths are the same. *)
Theorem process_image_footprint path W r W' :
  process_image E path W = (r, W') ->
  (forall p, p <> resized_path path -> fs W' !! p = fs W !! p) /\
  fs W' !! path = fs W !! path /\
  locked W' = locked W.
Proof.
  intros H. destruct (touches_process_image E path W r W' H) as [F L].
  split; [exact F |]. split; [| exact L].
  apply F. intros Heq. exact (resized_path_ne path (eq_sym Heq)).
Qed.

(** X4. When [process_image] returns a record for a readable image, the
    record names the base name of the input and reports the size and the
    mode of the original image, not of the resized copy, and the reading
    of the clock; the clock has advanced by one reading.  The files are
    as before when the image was within the limit; when it was beyond,
    they are as before except that nothing is at the path of the resized
    copy, also when a file was there before the call. *)
Theorem process_image_effect path W img d W' :
  fs W !! path = Some (CImage img) ->
  process_image E path W = (Ok (Some d), W') ->
  filename d = basename path /\
  image_size d = img_size img /\
  image_mode d = img_mode img /\
  timestamp d = clock W /\
  clock W' = S (clock W) /\
  locked W' = locked W /\
  fs W' = if default_max_size <? longer_side img
          then delete (resized_path path) (fs W)
          else fs W.
Proof.
  intros Hfs H.
  destruct (process_image_run E path W d W' H)
    as (rp & W1 & result & tbs & parts & W2 & img' & Hr & _ & _ & Hc & Hi & -> & ->).
  cbn [filename image_size image_mode timestamp fs locked clock].
  destruct (resize_image_inv path _ W img rp W1 Hfs Hr)
    as [(Hle & -> & ->) | (Hlt & -> & Hl & _ & _ & ->)].
  - rewrite String.eqb_refl in Hc. cbn [negb] in Hc.
    apply ret_ok in Hc as [_ ->]. rewrite Hfs in Hi. inversion Hi; subst img'.
    destruct (default_max_size <? longer_side img) eqn:Ec;
      [apply Z.ltb_lt in Ec; lia |].
    repeat split; reflexivity.
  - assert (Hne : String.eqb (resized_path path) path = false).
    { apply String.eqb_neq, resized_path_ne. }
    rewrite Hne in Hc. cbn [negb] in Hc.
    unfold try_except_only, os_remove in Hc. cbn [fs set_fs locked] in Hc.
    rewrite lookup_insert_eq in Hc.
    destruct (decide (resized_path path ∈ locked W)) as [Hin | _];
      [contradiction |].
    inversion Hc; subst W2; clear Hc.
    cbn [fs set_fs locked clock] in *.
    rewrite lookup_delete_ne, lookup_insert_ne in Hi
      by apply resized_path_ne.
    rewrite Hfs in Hi. inversion Hi; subst img'.
    destruct (default_max_size <? longer_side img) eqn:Ec;
      [| apply Z.ltb_ge in Ec; lia].
    rewrite delete_insert_eq. repeat split; reflexivity.
Qed.

(** One page of [process_pdf]: only the page's two files are touched;
    the rasterised page is gone afterwards unless its path is locked;
    the record, if any, comes from [process_image] on the page file. *)
Lemma page_step img i results W r W1 :
  try_except
    (let temp_img_path := temp_page_path E i in
     let* _ := image_save img temp_img_path in
     let* page_result := process_image E temp_img_path in
     let results' := match page_result with
                     | Some d => results ++ [as_pdf_page d i]
                     | None => results
                     end in
     let* _ := try_except_only os_error
                 (os_remove temp_img_path) (fun _ => ret tt) in
     ret results')
    (fun _ => ret results) W = (r, W1) ->
  same_except (page_files E i) W W1 /\
  (temp_page_path E i ∉ locked W -> fs W1 !! temp_page_path E i = None) /\
  (r = Ok results \/
   exists d Wa Wb,
     process_image E (temp_page_path E i) Wa = (Ok (Some d), Wb) /\
     r = Ok (results ++ [as_pdf_page d i])).
Proof.
  set (t := temp_page_path E i).
  intros H. split; [| split].
  - apply (fun Hp : preserves (same_except (page_files E i)) _ => Hp W r W1 H).
    cbv zeta. fold t. set (P := page_files E i).
    apply (preserves_try_except _ (same_except_trans P));
      [| intros e; apply (preserves_ret _ (same_except_refl P))].
    apply (preserves_bind _ (same_except_trans P));
      [apply touches_image_save; left; reflexivity | intros _].
    apply (preserves_bind _ (same_except_trans P)).
    { eapply touches_weaken; [| apply touches_process_image].
      intros p ->. right. reflexivity. }
    intros pr.
    apply (preserves_bind _ (same_except_trans P));
      [| intros _; apply (preserves_ret _ (same_except_refl P))].
    apply (preserves_try_except_only _ (same_except_trans P));
      [| intros e; apply (preserves_ret _ (same_except_refl P))].
    apply touches_os_remove. left. reflexivity.
  - intros Hl. cbv zeta in H. fold t in H. fold t in Hl.
    unfold try_except in H.
    assert (Hs : image_save img t W = (Ok tt, set_fs (insert t (CImage img)) W)).
    { unfold image_save. destruct (decide _); [contradiction | reflexivity]. }
    rewrite (bind_eq _ _ _ _ _ Hs) in H.
    destruct (total_process_image E t (set_fs (insert t (CImage img)) W))
      as (pr & Wb & Hp).
    rewrite (bind_eq _ _ _ _ _ Hp) in H.
    destruct (touches_process_image E t _ _ _ Hp) as [F L].
    assert (Hb : fs Wb !! t = Some (CImage img)).
    { rewrite F by (intros Heq; exact (resized_path_ne t (eq_sym Heq))).
      simpl. apply lookup_insert_eq. }
    assert (Hrm : try_except_only os_error (os_remove t) (fun _ => ret tt) Wb
                  = (Ok tt, set_fs (delete t) Wb)).
    { unfold try_except_only, os_remove. rewrite Hb.
      destruct (decide (t ∈ locked Wb)) as [Hin | _]; [| reflexivity].
      rewrite L in Hin. contradiction. }
    rewrite (bind_eq _ _ _ _ _ Hrm) in H. unfold ret in H.
    inversion H; subst. simpl. apply lookup_delete_eq.
  - cbv zeta in H. fold t in H. unfold try_except in H.
    match type of H with
    | (match ?c W with _ => _ end) = _ => destruct (c W) as [[x | e] Wx] eqn:Ec
    end.
    + inversion H; subst.
      apply bind_ok in Ec as ([] & Wa & _ & Ec).
      apply bind_ok in Ec as (pr & Wb & Hp & Ec).
      apply bind_ok in Ec as ([] & Wc & _ & Ec).
      apply ret_ok in Ec as [-> _].
      destruct pr as [d |]; [right; eauto | left; reflexivity].
    + unfold ret in H. inversion H; subst. left. reflexivity.
Qed.

Lemma process_pdf_pages_ok images :
  forall i results W r W',
    process_pdf_pages E images i results W = (r, W') ->
    exists docs, r = Ok docs.
Proof.
  intros i results W r W' H.
  destruct (total_process_pdf_pages E images i results W) as (a & s & Ha).
  rewrite Ha in H. inversion H; eauto.
Qed.

(** The page loop: what it touches, what it removes and where its
    records come from. *)
Lemma process_pdf_pages_effect images :
  forall i results W docs W',
    process_pdf_pages E images i results W = (Ok docs, W') ->
    same_except (fun p => exists k, (i <= k < i + length images)%nat /\
                                    page_files E k p) W W' /\
    (forall k, (i <= k < i + length images)%nat ->
               temp_page_path E k ∉ locked W ->
               fs W' !! temp_page_path E k = None) /\
    exists new,
      docs = results ++ new /\
      Forall (fun d => filetype d = "pdf_page" /\
                       ocr_engine d = "PaddleOCR" /\
                       exists k, (i <= k < i + length images)%nat /\
                                 page_number d = Some (k + 1)%nat /\
                                 filename d = temp_page_path E k) new.
Proof.
  induction images as [| img rest IH]; intros i results W docs W' H.
  - simpl in H. apply ret_ok in H as [-> ->].
    split; [apply same_except_refl |]. split; [simpl; intros; lia |].
    exists []. rewrite app_nil_r. split; [reflexivity | constructor].
  - cbn [process_pdf_pages] in H.
    apply bind_ok in H as (results' & W1 & Hs & H).
    destruct (page_step img i results W _ W1 Hs) as (F1 & C1 & R1).
    destruct (IH _ _ _ _ _ H) as (F2 & C2 & new & -> & Hnew).
    assert (L1 : locked W1 = locked W) by apply F1.
    split; [| split].
    + eapply same_except_trans.
      * eapply same_except_weaken; [| exact F1].
        intros p Hp. exists i. split; [simpl; lia | exact Hp].
      * eapply same_except_weaken; [| exact F2].
        intros p (k & Hk & Hp). exists k. split; [simpl; lia | exact Hp].
    + intros k Hk Hl. simpl in Hk.
      destruct (decide (k = i)) as [-> | Hne].
      * destruct F2 as [F2 _]. rewrite F2; [apply C1, Hl |].
        intros (k & Hk' & [Heq | Heq]).
        -- apply temp_page_path_inj in Heq. lia.
        -- symmetry in Heq. exact (resized_path_ne_temp E _ _ Heq).
      * apply C2; [lia | rewrite L1; exact Hl].
    + assert (Hmono : forall d,
                (filetype d = "pdf_page" /\ ocr_engine d = "PaddleOCR" /\
                 exists k, (S i <= k < S i + length rest)%nat /\
                           page_number d = Some (k + 1)%nat /\
                           filename d = temp_page_path E k) ->
                (filetype d = "pdf_page" /\ ocr_engine d = "PaddleOCR" /\
                 exists k, (i <= k < i + length (img :: rest))%nat /\
                           page_number d = Some (k + 1)%nat /\
                           filename d = temp_page_path E k)).
      { intros d (? & ? & k & ? & ? & ?). repeat split; auto.
        exists k. simpl. repeat split; auto; lia. }
      destruct R1 as [R1 | (d & Wa & Wb & Hp & R1)];
        inversion R1; subst results'.
      * exists new. split; [reflexivity |].
        eapply Forall_impl; [exact Hnew | exact Hmono].
      * exists (as_pdf_page d i :: new).
        split; [rewrite <- app_assoc; reflexivity |].
        constructor; [| eapply Forall_impl; [exact Hnew | exact Hmono]].
        destruct (process_image_run E _ _ _ _ Hp)
          as (? & ? & ? & ? & ? & ? & ? & _ & _ & _ & _ & _ & _ & ->).
        cbn. repeat split; auto. exists i. simpl.
        rewrite basename_temp_page_path. repeat split; auto; lia.
Qed.

Lemma process_pdf_inv path W r W' :
  process_pdf E path W = (r, W') ->
  (r = Ok None /\ W' = W /\ forall pages, fs W !! path <> Some (CPdf pages)) \/
  exists pages docs,
    fs W !! path = Some (CPdf pages) /\
    r = Ok (Some docs) /\
    process_pdf_pages E pages 0 [] W = (Ok docs, W').
Proof.
  unfold process_pdf, try_except at 1, bind at 1, try_except, bind,
    convert_from_path, ret.
  destruct (fs W !! path) as [c |] eqn:Hfs.
  2:{ intros H; inversion H; subst. left. repeat split; auto; congruence. }
  destruct c as [| pages | | |];
    try (intros H; inversion H; subst; left; repeat split; auto; congruence).
  destruct (total_process_pdf_pages E pages 0%nat [] W) as (docs & W2 & Hd).
  unfold bind. rewrite Hd. intros H. inversion H; subst.
  right. exists pages, docs. auto.
Qed.


(** X6. Every record [process_pdf] returns has the file type
    [pdf_page], the engine [PaddleOCR], and as file name the name of the
    temporary page file [temp_page_{n}_{pid}.jpg] of its page number
    [n]: the name of the PDF appears in none of them. *)
Theorem pdf_records_name_the_page_file path W docs W' :
  process_pdf E path W = (Ok (Some docs), W') ->
  Forall (fun d => filetype d = "pdf_page" /\
                   ocr_engine d = "PaddleOCR" /\
                   exists k, page_number d = Some (k + 1)%nat /\
                             filename d = temp_page_path E k) docs.
Proof.
  intros H.
  destruct (process_pdf_inv path W _ W' H)
    as [(Hr & _) | (pages & docs' & _ & Hr & Hp)]; [discriminate Hr |].
  inversion Hr; subst docs'.
  destruct (process_pdf_pages_effect _ _ _ _ _ _ Hp) as (_ & _ & new & -> & Hnew).
  simpl. eapply Forall_impl; [exact Hnew |].
  intros d (? & ? & k & _ & ? & ?). eauto.
Qed.

(** What [process_pdf] touches. *)
Lemma touches_process_pdf path :
  preserves (same_except (fun p => exists k, page_files E k p))
            (process_pdf E path).
Proof.
  intros W r W' H.
  destruct (process_pdf_inv path W r W' H)
    as [(_ & -> & _) | (pages & docs & _ & _ & Hp)];
    [apply same_except_refl |].
  destruct (process_pdf_pages_effect _ _ _ _ _ _ Hp) as (F & _).
  eapply same_except_weaken; [| exact F].
  intros p (k & _ & Hk). eauto.
Qed.

End PaddleEffects.

(* ===================================================================== *)
(** * Effects of the Tesseract processor                                   *)
(* ===================================================================== *)

Section KeptIn.
Variable Q : string -> Prop.

Lemma kept_in_refl W : kept_in Q W W.
Proof. intros p c _ H. eauto. Qed.

Lemma kept_in_trans W1 W2 W3 :
  kept_in Q W1 W2 -> kept_in Q W2 W3 -> kept_in Q W1 W3.
Proof.
  intros H1 H2 p c Hq Hc.
  destruct (H1 p c Hq Hc) as (c' & Hc' & R1).
  destruct (H2 p c' Hq Hc') as (c'' & Hc'' & R2).
  exists c''. split; [exact Hc'' | auto].
Qed.

Lemma kept_in_insert p c W :
  regular c \/ fs W !! p = None -> kept_in Q W (set_fs (insert p c) W).
Proof.
  intros Hr q d _ Hd. simpl.
  destruct (decide (q = p)) as [-> | Hne].
  - exists c. rewrite lookup_insert_eq. split; [reflexivity |].
    destruct Hr as [Hr | Hn]; [auto | congruence].
  - exists d. rewrite lookup_insert_ne by congruence. auto.
Qed.

Lemma kept_in_delete p W :
  ~ Q p -> kept_in Q W (set_fs (delete p) W).
Proof.
  intros Hp q d Hq Hd. simpl. exists d.
  rewrite lookup_delete_ne by (intros ->; auto). auto.
Qed.

Lemma kept_now : preserves (kept_in Q) now.
Proof. intros W r W' H. inversion H; subst. intros p c _ Hc. simpl. eauto. Qed.

Lemma kept_open_w p : preserves (kept_in Q) (open_w p).
Proof.
  intros W r W'. unfold open_w.
  destruct (fs W !! p) as [[] |]; try destruct (decide _); intros H;
    inversion H; subst;
    first [apply kept_in_refl | apply kept_in_insert; left; exact I].
Qed.

Lemma kept_json_dump j p : preserves (kept_in Q) (json_dump j p).
Proof.
  intros W r W'. unfold json_dump.
  destruct (json_tokens j) as [toks []]; intros H; inversion H; subst;
    apply kept_in_insert; left; exact I.
Qed.

Lemma kept_image_save img p : preserves (kept_in Q) (image_save img p).
Proof.
  intros W r W'. unfold image_save.
  destruct (decide _); intros H; inversion H; subst;
    first [apply kept_in_refl | apply kept_in_insert; left; exact I].
Qed.

Lemma kept_os_remove p : ~ Q p -> preserves (kept_in Q) (os_remove p).
Proof.
  intros Hp W r W'. unfold os_remove.
  destruct (fs W !! p) as [[] |]; try destruct (decide _); intros H;
    inversion H; subst;
    first [apply kept_in_refl | apply kept_in_delete, Hp].
Qed.

Lemma kept_makedirs p : preserves (kept_in Q) (makedirs p).
Proof.
  intros W r W'. unfold makedirs.
  destruct (fs W !! p) as [[] |] eqn:Hp; try destruct (decide _); intros H;
    inversion H; subst;
    first [apply kept_in_refl | apply kept_in_insert; right; exact Hp].
Qed.

End KeptIn.

Lemma nothing_lost_refl W : nothing_lost W W.
Proof. apply kept_in_refl. Qed.

Lemma nothing_lost_trans W1 W2 W3 :
  nothing_lost W1 W2 -> nothing_lost W2 W3 -> nothing_lost W1 W3.
Proof. apply kept_in_trans. Qed.

Section TesseractFootprint.
Import Tesseract.
Variable E : TesseractEnv.
Variable out : string.

Lemma untouched_fs W W' : untouched W W' -> fs W' = fs W.
Proof. intros [F _]. apply map_eq. intros p. apply F. tauto. Qed.

Lemma reads_process_image path : preserves untouched (process_image E path).
Proof. unfold process_image. touches (fun _ : string => False). Qed.

Lemma reads_process_pdf_pages path images :
  forall i results, preserves untouched (process_pdf_pages E path images i results).
Proof.
  induction images as [| img rest IH]; intros i results;
    cbn [process_pdf_pages].
  - touches (fun _ : string => False).
  - apply (preserves_bind _ (same_except_trans _));
      [touches (fun _ : string => False) | intros t].
    apply (preserves_bind _ (same_except_trans _));
      [apply touches_now | intros ts].
    apply (preserves_bind _ (same_except_trans _));
      [touches (fun _ : string => False) | intros v].
    apply IH.
Qed.

Lemma reads_process_pdf path : preserves untouched (process_pdf E path).
Proof.
  unfold process_pdf.
  apply (preserves_try_except _ (same_except_trans _));
    [| intros e; touches (fun _ : string => False)].
  apply (preserves_bind _ (same_except_trans _));
    [touches (fun _ : string => False) | intros images].
  apply (preserves_bind _ (same_except_trans _));
    [apply reads_process_pdf_pages | intros r].
  touches (fun _ : string => False).
Qed.

(** Recognition reads: [process_single_file] leaves every file as it
    is. *)
Lemma reads_process_single_file path :
  preserves untouched (process_single_file E path).
Proof.
  unfold process_single_file. destruct (str_in _ _).
  - apply (preserves_bind _ (same_except_trans _));
      [apply reads_process_image | intros r; touches (fun _ : string => False)].
  - destruct (String.eqb _ _); [| touches (fun _ : string => False)].
    apply (preserves_bind _ (same_except_trans _));
      [apply reads_process_pdf | intros r; touches (fun _ : string => False)].
Qed.

Lemma touches_save_results data input :
  preserves (same_except (fun p => p = output_path out input))
            (save_results out data input).
Proof.
  unfold save_results. cbv zeta. fold (output_path out input).
  set (P := fun p => p = output_path out input).
  destruct (negb (truthy data)); [apply (preserves_ret _ (same_except_refl P)) |].
  apply (preserves_try_except _ (same_except_trans P));
    [| intros e; apply (preserves_ret _ (same_except_refl P))].
  apply (preserves_bind _ (same_except_trans P));
    [apply touches_open_w; reflexivity | intros _].
  apply (preserves_bind _ (same_except_trans P));
    [| intros _; apply (preserves_ret _ (same_except_refl P))].
  destruct data; [apply touches_json_dump; reflexivity
                 | apply (preserves_ret _ (same_except_refl P))].
Qed.

Lemma keeps_all_save_results data input :
  preserves nothing_lost (save_results out data input).
Proof.
  unfold save_results. cbv zeta.
  destruct (negb (truthy data)); [apply (preserves_ret _ nothing_lost_refl) |].
  apply (preserves_try_except _ nothing_lost_trans);
    [| intros e; apply (preserves_ret _ nothing_lost_refl)].
  apply (preserves_bind _ nothing_lost_trans);
    [apply kept_open_w | intros _].
  apply (preserves_bind _ nothing_lost_trans);
    [| intros _; apply (preserves_ret _ nothing_lost_refl)].
  destruct data; [apply kept_json_dump
                 | apply (preserves_ret _ nothing_lost_refl)].
Qed.

Lemma untouched_nothing_lost W W' : untouched W W' -> nothing_lost W W'.
Proof.
  intros H p c _ Hc. exists c. rewrite (untouched_fs _ _ H). auto.
Qed.

Lemma keeps_all_process_single_file path :
  preserves nothing_lost (process_single_file E path).
Proof.
  intros W r W' H. apply untouched_nothing_lost.
  eapply reads_process_single_file, H.
Qed.

Lemma touches_process_entries dir names :
  forall counts,
    preserves (same_except (artifacts out dir names))
              (process_entries E out dir names counts).
Proof.
  induction names as [| name rest IH]; intros [p k]; cbn [process_entries].
  - apply (preserves_ret _ (same_except_refl _)).
  - set (P := artifacts out dir (name :: rest)).
    assert (Hrest : forall c, preserves (same_except P)
                                (process_entries E out dir rest c)).
    { intros c. eapply touches_weaken; [| apply IH].
      intros q (n & Hn & ->). exists n. split; [right; exact Hn | reflexivity]. }
    apply (preserves_bind _ (same_except_trans P));
      [apply (preserves_path_isfile _ (same_except_refl P)) | intros [|]];
      [| apply Hrest].
    apply (preserves_bind _ (same_except_trans P)).
    { eapply touches_weaken; [| apply reads_process_single_file].
      intros q []. }
    intros [r |]; [| apply Hrest].
    apply (preserves_bind _ (same_except_trans P)).
    { eapply touches_weaken; [| apply touches_save_results].
      intros q ->. exists name. split; [left | reflexivity]. }
    intros [|]; apply Hrest.
Qed.

Lemma keeps_all_process_entries dir names :
  forall counts,
    preserves nothing_lost (process_entries E out dir names counts).
Proof.
  induction names as [| name rest IH]; intros [p k]; cbn [process_entries].
  - apply (preserves_ret _ nothing_lost_refl).
  - apply (preserves_bind _ nothing_lost_trans);
      [apply (preserves_path_isfile _ nothing_lost_refl) | intros [|]];
      [| apply IH].
    apply (preserves_bind _ nothing_lost_trans);
      [apply keeps_all_process_single_file |].
    intros [r |]; [| apply IH].
    apply (preserves_bind _ nothing_lost_trans);
      [apply keeps_all_save_results |].
    intros [|]; apply IH.
Qed.

(** X23. The directory loop of [main.py] writes artifacts only and
    removes nothing: every path that is not the artifact of an entry
    holds what it held before, every path that existed still exists, a
    regular file is a regular file still, and the locked paths are the
    same. *)
Theorem tesseract_batch_footprint dir names counts W r W' :
  process_entries E out dir names counts W = (r, W') ->
  (forall p, (forall name, name ∈ names ->
                           p <> output_path out (path_join dir name)) ->
             fs W' !! p = fs W !! p) /\
  (forall p c, fs W !! p = Some c ->
               exists c', fs W' !! p = Some c' /\ (regular c -> regular c')) /\
  locked W' = locked W.
Proof.
  intros H.
  destruct (touches_process_entries dir names counts W r W' H) as [F L].
  split; [| split; [| exact L]].
  - intros p Hp. apply F. intros (name & Hn & ->). exact (Hp name Hn eq_refl).
  - intros p c. exact (keeps_all_process_entries dir names counts W r W' H p c I).
Qed.

(** X24. When the entries of the directory are regular files, the loop
    of [main.py] counts each exactly once:
    [processed_files + skipped_files] grows by the number of entries. *)
Theorem tesseract_counts_every_file dir names :
  forall p k W p' k' W',
    (forall name, name ∈ names ->
       exists c, fs W !! path_join dir name = Some c /\ regular c) ->
    process_entries E out dir names (p, k) W = (Ok (p', k'), W') ->
    (p' + k' = p + k + length names)%nat.
Proof.
  induction names as [| name rest IH]; intros p k W p' k' W' Hf H.
  - simpl in H. apply ret_ok in H as [H _]. inversion H. simpl. lia.
  - destruct (Hf name) as (c & Hc & Hr); [left |].
    assert (Hnd : forall l, c <> CDir l) by (intros l ->; exact Hr).
    destruct (total_process_single_file E (path_join dir name) W)
      as (r & W1 & Hp).
    assert (K1 : nothing_lost W W1)
      by exact (keeps_all_process_single_file _ _ _ _ Hp).
    assert (Hrest : forall W2, nothing_lost W1 W2 ->
              forall n, n ∈ rest ->
                exists c, fs W2 !! path_join dir n = Some c /\ regular c).
    { intros W2 K2 n Hn. destruct (Hf n) as (cn & Hcn & Hrn); [right; exact Hn |].
      destruct (nothing_lost_trans _ _ _ K1 K2 _ _ I Hcn) as (c' & Hc' & Hr').
      eauto. }
    destruct r as [r |].
    + destruct (total_tess_save_results out (Some r) (path_join dir name) W1)
        as (b & W2 & Hs).
      rewrite (tess_entries_step_some E out dir name rest p k W c r W1 b W2
                 Hc Hnd Hp Hs) in H.
      assert (K2 : nothing_lost W1 W2)
        by exact (keeps_all_save_results _ _ _ _ _ Hs).
      destruct b; apply IH in H; try (apply Hrest; exact K2); simpl; lia.
    + rewrite (tess_entries_step_none E out dir name rest p k W c W1
                 Hc Hnd Hp) in H.
      apply IH in H; [simpl; lia |].
      apply Hrest, nothing_lost_refl.
Qed.

End TesseractFootprint.

Section TesseractPdf.
Import Tesseract.
Variable E : TesseractEnv.

Lemma later_0 W : later 0 W = W.
Proof. destruct W. unfold later. simpl. f_equal. lia. Qed.

Lemma later_S n W :
  later n {| fs := fs W; locked := locked W; clock := S (clock W) |}
  = later (S n) W.
Proof. unfold later. simpl. f_equal. lia. Qed.

(** The page loop when every page is recognised and the version is a
    string. *)
Lemma tess_pdf_pages_success path v images :
  get_tesseract_version E = Ok (PStr v) ->
  (forall img, img ∈ images -> exists t, image_to_string E img = Ok t) ->
  forall i results W,
  exists new,
    process_pdf_pages E path images i results W
    = (Ok (results ++ new), later (length images) W) /\
    length new = length images /\
    forall j img, images !! j = Some img ->
      exists d, new !! j = Some d /\
                image_to_string E img = Ok (text d) /\
                filename d = basename path /\
                filetype d = "pdf" /\
                page_number d = Some (i + j + 1)%nat /\
                timestamp d = (clock W + j)%nat /\
                image_size d = img_size img /\
                image_mode d = img_mode img /\
                ocr_engine d = "Tesseract " +:+ v.
Proof.
  intros Hv. induction images as [| img rest IH]; intros Hall i results W.
  - exists []. simpl. rewrite app_nil_r, later_0.
    split; [reflexivity |]. split; [reflexivity |].
    intros j x Hx. rewrite lookup_nil in Hx. discriminate.
  - destruct (Hall img) as (t & Ht); [left |].
    destruct (IH (fun x Hx => Hall x (list_elem_of_further _ _ _ Hx)) (S i)
                (results ++ [{| filename := basename path;
                                filetype := "pdf";
                                page_number := Some (i + 1)%nat;
                                text := t;
                                timestamp := clock W;
                                image_size := img_size img;
                                image_mode := img_mode img;
                                ocr_engine := "Tesseract " +:+ v |}])
                {| fs := fs W; locked := locked W; clock := S (clock W) |})
      as (new & Hrun & Hlen & Hnew).
    eexists (_ :: new).
    split; [| split].
    + cbn [process_pdf_pages]. unfold bind at 1, lift at 1. rewrite Ht.
      unfold bind at 1, now at 1.
      unfold bind at 1, lift at 1. rewrite Hv. cbn [rbind str_add].
      rewrite Hrun, later_S, <- app_assoc. reflexivity.
    + simpl. rewrite Hlen. reflexivity.
    + intros [| j] x Hx.
      * simpl in Hx. inversion Hx; subst x.
        eexists. split; [reflexivity |]. cbn.
        rewrite !Nat.add_0_r. repeat split; auto.
      * simpl in Hx. destruct (Hnew j x Hx) as (d & Hd & H1 & H2 & H3 & H4 & H5 & H6).
        exists d. split; [exact Hd |]. cbn [clock] in H5.
        repeat split; try tauto.
        -- rewrite H4. f_equal. lia.
        -- rewrite H5. lia.
Qed.

(** X18. When the PDF rasterises, every page is recognised and the
    Tesseract version is a string, [process_pdf] of [main.py] returns
    one record per page, in order: record [j] holds the text of page
    [j], the page number [j + 1], the [j]-th reading of the clock, the
    size and mode of the page, the base name of the PDF and the file
    type [pdf].  Only the clock has changed, by one reading per page. *)
Theorem tesseract_pdf_success path v pages W :
  fs W !! path = Some (CPdf pages) ->
  get_tesseract_version E = Ok (PStr v) ->
  (forall img, img ∈ pages -> exists t, image_to_string E img = Ok t) ->
  exists docs,
    process_pdf E path W = (Ok (Some docs), later (length pages) W) /\
    length docs = length pages /\
    forall j img, pages !! j = Some img ->
      exists d, docs !! j = Some d /\
                image_to_string E img = Ok (text d) /\
                filename d = basename path /\
                filetype d = "pdf" /\
                page_number d = Some (j + 1)%nat /\
                timestamp d = (clock W + j)%nat /\
                image_size d = img_size img /\
                image_mode d = img_mode img /\
                ocr_engine d = "Tesseract " +:+ v.
Proof.
  intros Hfs Hv Hall.
  destruct (tess_pdf_pages_success path v pages Hv Hall 0%nat [] W)
    as (new & Hrun & Hlen & Hnew).
  exists new. split; [| split; [exact Hlen | exact Hnew]].
  unfold process_pdf, try_except, bind at 1, convert_from_path.
  rewrite Hfs. unfold bind. rewrite Hrun. reflexivity.
Qed.

(** The page loop raises when some page is not recognised. *)
Lemma tess_pdf_pages_raise path images :
  (exists img e, img ∈ images /\ image_to_string E img = Raise e) ->
  forall i results W,
  exists e W', process_pdf_pages E path images i results W = (Raise e, W').
Proof.
  induction images as [| img rest IH]; intros (x & e & Hx & He) i results W.
  - apply not_elem_of_nil in Hx. destruct Hx.
  - cbn [process_pdf_pages].
    unfold bind at 1, lift at 1.
    destruct (image_to_string E img) as [t | e1] eqn:Ht; [| eauto].
    unfold bind at 1, now at 1. unfold bind at 1, lift at 1.
    destruct (let? v := get_tesseract_version E in str_add "Tesseract " v)
      as [eng | e2]; [| eauto].
    apply IH. apply elem_of_cons in Hx as [-> | Hx]; [congruence | eauto].
Qed.

(** X19. One page that cannot be recognised fails the whole PDF in
    [main.py]: [process_pdf] returns [None], the pages recognised before
    it are discarded, no file changes, and [process_single_file] returns
    [None] for a path with the extension [.pdf]. *)
Theorem tesseract_pdf_all_or_nothing path pages W img e :
  fs W !! path = Some (CPdf pages) ->
  img ∈ pages ->
  image_to_string E img = Raise e ->
  exists W',
    process_pdf E path W = (Ok None, W') /\
    fs W' = fs W /\
    (file_ext path = ".pdf" ->
     process_single_file E path W = (Ok None, W')).
Proof.
  intros Hfs Hin He.
  destruct (tess_pdf_pages_raise path pages
              (ex_intro _ img (ex_intro _ e (conj Hin He))) 0%nat [] W)
    as (e' & W' & Hrun).
  assert (Hp : process_pdf E path W = (Ok None, W')).
  { unfold process_pdf, try_except, bind at 1, convert_from_path.
    rewrite Hfs. unfold bind. rewrite Hrun. reflexivity. }
  exists W'. split; [exact Hp |]. split.
  - apply untouched_fs. eapply reads_process_pdf, Hp.
  - intros Hext. unfold process_single_file. rewrite Hext.
    change (str_in ".pdf" image_extensions) with false.
    change (String.eqb ".pdf" ".pdf") with true. cbv iota.
    rewrite (bind_eq _ _ _ _ _ Hp). reflexivity.
Qed.

End TesseractPdf.

Section TesseractVersion.
Import Tesseract.
Variable E : TesseractEnv.
Variable out : string.
Hypothesis version_not_str : forall s, get_tesseract_version E <> Ok (PStr s).

Lemma engine_name_raises :
  exists e, (let? v := get_tesseract_version E in str_add "Tesseract " v)
            = Raise e.
Proof.
  destruct (get_tesseract_version E) as [v | e] eqn:Hv; simpl; [| eauto].
  destruct v; simpl; eauto.
  exfalso. eapply version_not_str. reflexivity.
Qed.

Lemma process_image_no_version path W r W' :
  process_image E path W = (r, W') -> r = Ok None.
Proof.
  destruct engine_name_raises as (e & He).
  unfold process_image, try_except, bind, lift, now, ret, image_open.
  rewrite He.
  destruct (fs W !! path) as [[] |];
    try destruct (image_to_string E _); intros H; inversion H; reflexivity.
Qed.

Lemma process_pdf_no_version path W r W' :
  process_pdf E path W = (r, W') -> r = Ok None \/ r = Ok (Some []).
Proof.
  destruct engine_name_raises as (e & He).
  unfold process_pdf, try_except, bind at 1, convert_from_path.
  destruct (fs W !! path) as [[| pages | | |] |];
    try (unfold ret; intros H; inversion H; auto).
  revert H. destruct pages as [| img rest]; cbn [process_pdf_pages].
  - unfold bind, ret. intros H. inversion H; auto.
  - unfold bind, lift, now, ret. rewrite He.
    destruct (image_to_string E img); intros H; inversion H; auto.
Qed.

Lemma process_single_file_no_version path W r W' :
  process_single_file E path W = (Ok r, W') -> truthy r = false.
Proof.
  unfold process_single_file. destruct (str_in _ _).
  - intros H. apply bind_ok in H as (x & W1 & Hx & H).
    apply process_image_no_version in Hx. inversion Hx; subst x.
    apply ret_ok in H as [-> _]. reflexivity.
  - destruct (String.eqb _ _).
    + intros H. apply bind_ok in H as (x & W1 & Hx & H).
      apply ret_ok in H as [-> _].
      apply process_pdf_no_version in Hx as [Hx | Hx];
        inversion Hx; subst x; reflexivity.
    + intros H. apply ret_ok in H as [-> _]. reflexivity.
Qed.

Lemma process_entries_no_version dir names :
  forall p k W p' k' W',
    process_entries E out dir names (p, k) W = (Ok (p', k'), W') ->
    p' = p /\ fs W' = fs W.
Proof.
  induction names as [| name rest IH]; intros p k W p' k' W' H.
  - simpl in H. apply ret_ok in H as [H ->]. inversion H. auto.
  - cbn [process_entries] in H.
    apply bind_ok in H as (isf & W0 & Hi & H).
    unfold path_isfile in Hi. inversion Hi; subst W0. clear Hi.
    destruct isf; [| apply IH in H; exact H].
    apply bind_ok in H as (r & W1 & Hr & H).
    pose proof (process_single_file_no_version _ _ _ _ Hr) as Ht.
    pose proof (untouched_fs _ _ (reads_process_single_file E _ _ _ _ Hr)) as F1.
    destruct r as [r |].
    + apply bind_ok in H as (b & W2 & Hs & H).
      unfold save_results in Hs. rewrite Ht in Hs. cbn [negb] in Hs.
      apply ret_ok in Hs as [-> ->].
      apply IH in H as [-> ->]. auto.
    + apply IH in H as [-> ->]. auto.
Qed.

End TesseractVersion.

Section TesseractSave.
Import Tesseract.




End TesseractSave.

Section MoreTesseract.
Import Tesseract.

(** X21. [main.py] depends on [pytesseract.get_tesseract_version()]
    being a string.  When it is not (the call raises, or returns a
    version object, for which ["Tesseract " + v] raises [TypeError]),
    [process_directory] processes nothing: it returns false, no file
    having been counted as processed, and no file is written. *)
Theorem tesseract_needs_string_version E out dir W b W' :
  (forall s, get_tesseract_version E <> Ok (PStr s)) ->
  process_directory E out dir W = (Ok b, W') ->
  b = false /\ fs W' = fs W.
Proof.
  intros Hv H. unfold process_directory, process_directory_counts in H.
  apply bind_ok in H as ([p k] & W1 & Hc & H).
  apply ret_ok in H as [-> ->].
  apply bind_ok in Hc as (names & W0 & Hl & Hc).
  assert (W0 = W) as ->.
  { unfold listdir in Hl. destruct (fs W !! dir) as [[] |]; inversion Hl; auto. }
  apply (process_entries_no_version E out Hv) in Hc as [-> ->]. auto.
Qed.


(** X20. A PDF without pages in [main.py]: [process_single_file]
    returns the empty list, not [None]; [save_results] refuses it, and
    the directory loop counts the file as skipped with the world
    unchanged. *)
Theorem tesseract_empty_pdf_skipped E out dir name rest p k W :
  fs W !! path_join dir name = Some (CPdf []) ->
  file_ext (path_join dir name) = ".pdf" ->
  process_single_file E (path_join dir name) W = (Ok (Some (Pages [])), W) /\
  process_entries E out dir (name :: rest) (p, k) W =
  process_entries E out dir rest (p, S k) W.
Proof.
  intros Hfs Hext.
  assert (Hp : process_single_file E (path_join dir name) W
               = (Ok (Some (Pages [])), W)).
  { unfold process_single_file. rewrite Hext.
    change (str_in ".pdf" image_extensions) with false.
    change (String.eqb ".pdf" ".pdf") with true. cbv iota.
    unfold process_pdf, try_except, bind, convert_from_path.
    rewrite Hfs. reflexivity. }
  split; [exact Hp |].
  rewrite (tess_entries_step_some E out dir name rest p k W (CPdf [])
             (Pages []) W false W Hfs); auto; discriminate.
Qed.

End MoreTesseract.

Section MorePaddle.
Import Paddle.

(** X12. A PDF without pages is counted as failed in [paddle_ocr.py]:
    [process_pdf] returns the empty list, which is falsy, so
    [process_file] saves nothing, returns false and leaves the world as
    it was, and the directory loop increments [files_failed]. *)
Theorem paddle_empty_pdf_fails E out dir name rest p f W :
  fs W !! path_join dir name = Some (CPdf []) ->
  file_ext (path_join dir name) = ".pdf" ->
  process_file E out (path_join dir name) W = (Ok false, W) /\
  process_entries E out dir (name :: rest) (p, f) W =
  process_entries E out dir rest (p, S f) W.
Proof.
  intros Hfs Hext.
  assert (Hp : process_file E out (path_join dir name) W = (Ok false, W)).
  { unfold process_file, bind at 1, path_exists. rewrite Hfs.
    rewrite bool_decide_eq_true_2 by eauto. cbn [negb]. rewrite Hext.
    change (str_in ".pdf" image_extensions) with false.
    change (String.eqb ".pdf" ".pdf") with true. cbv iota.
    unfold process_pdf, try_except, bind, convert_from_path.
    rewrite Hfs. reflexivity. }
  split; [exact Hp |].
  rewrite (entries_step E out dir name rest p f W (CPdf []) false W Hfs);
    auto; discriminate.
Qed.

(** X11. Two inputs with the same stem share one artifact and the later
    save wins: when both saves succeed the output path holds the second
    result only, and the world is as if the first save had never
    happened. *)
Theorem later_artifact_replaces_earlier out d1 d2 in1 in2 W W1 W2 :
  fst (splitext (basename in1)) = fst (splitext (basename in2)) ->
  save_results out (Some d1) in1 W = (Ok true, W1) ->
  save_results out (Some d2) in2 W1 = (Ok true, W2) ->
  output_path out in1 = output_path out in2 /\
  W2 = set_fs (insert (output_path out in2)
                 (CText (fst (json_tokens (data_json doc_json d2))))) W.
Proof.
  intros Hstem H1 H2.
  assert (Hpath : output_path out in1 = output_path out in2).
  { unfold output_path. rewrite Hstem. reflexivity. }
  split; [exact Hpath |].
  assert (Hsave : forall d input Wa Wb,
            save_results out (Some d) input Wa = (Ok true, Wb) ->
            Wb = set_fs (insert (output_path out input)
                     (CText (fst (json_tokens (data_json doc_json d))))) Wa).
  { intros d input Wa Wb H.
    destruct (paddle_save_results_outcome out (Some d) input Wa)
      as (s & Wc & Hs & Hf & Ht).
    rewrite Hs in H. inversion H; subst s Wc. clear H.
    destruct (truthy (Some d)) eqn:Htr.
    - specialize (Ht d eq_refl eq_refl). unfold artifact_outcome in Ht.
      destruct (json_tokens (data_json doc_json d)) as [toks ok].
      destruct Ht as [_ ->]. reflexivity.
    - destruct (Hf eq_refl) as [Hx _]. discriminate Hx. }
  rewrite (Hsave _ _ _ _ H2), (Hsave _ _ _ _ H1), Hpath.
  apply set_fs_insert_twice.
Qed.

End MorePaddle.

(* ===================================================================== *)
(** * The blocks [process_image] keeps                                     *)
(* ===================================================================== *)

Section KeptBlocks.
Import Paddle.
Variable E : PaddleEnv.

Lemma parse_block_kept idx block a r a' :
  parse_block E idx block a = (Ok r, a') ->
  fst a' = fst a ++ kept_block E idx block.
Proof.
  unfold parse_block, kept_block. run.
  destruct (parse_text block) as [text | e1]; simpl.
  2:{ destruct (parse_error e1); intros H; inversion H.
      rewrite app_nil_r. reflexivity. }
  destruct (parse_confidence E block) as [q | e2]; simpl.
  2:{ destruct (parse_error e2); intros H; inversion H.
      rewrite app_nil_r. reflexivity. }
  destruct (parse_coordinates block) as [c | e3]; simpl.
  2:{ destruct (parse_error e3); intros H; inversion H.
      rewrite app_nil_r. reflexivity. }
  unfold append_block, append_part. simpl.
  destruct text as [| | | | s | |]; simpl; try discriminate.
  destruct (str_truthy (strip s)); simpl; intros H; inversion H; reflexivity.
Qed.

Lemma parse_blocks_kept blocks :
  forall idx a r a',
    parse_blocks E idx blocks a = (Ok r, a') ->
    fst a' = fst a ++ kept_blocks E idx blocks.
Proof.
  induction blocks as [| block rest IH]; intros idx a r a' H.
  - simpl in H. apply ret_ok in H as [_ ->]. simpl. rewrite app_nil_r.
    reflexivity.
  - cbn [parse_blocks] in H. apply bind_ok in H as (u & a1 & H1 & H).
    apply parse_block_kept in H1. apply IH in H.
    rewrite H, H1. simpl. rewrite app_assoc. reflexivity.
Qed.

Lemma parse_page_kept page a r a' :
  parse_page E page a = (Ok r, a') ->
  fst a' = fst a ++ kept_blocks E 0 (items page).
Proof.
  unfold parse_page, items.
  destruct page; simpl.
  all: try (intros H; apply ret_ok in H as [_ ->]; rewrite app_nil_r; reflexivity).
  all: intros H; apply bind_ok in H as (bs & a1 & Hl & H);
    apply lift_ok in Hl as [Hl ->]; try discriminate Hl.
  all: injection Hl as <-; eapply parse_blocks_kept; exact H.
Qed.

Lemma parse_pages_kept pages :
  forall a r a',
    parse_pages E pages a = (Ok r, a') ->
    fst a' = fst a ++ concat (map (fun page => kept_blocks E 0 (items page)) pages).
Proof.
  induction pages as [| page rest IH]; intros a r a' H.
  - simpl in H. apply ret_ok in H as [_ ->]. simpl. rewrite app_nil_r.
    reflexivity.
  - cbn [parse_pages] in H. apply bind_ok in H as (u & a1 & H1 & H).
    apply parse_page_kept in H1. apply IH in H.
    rewrite H, H1. simpl. rewrite app_assoc. reflexivity.
Qed.

Lemma extract_kept result tbs parts :
  extract E result = Ok (tbs, parts) -> tbs = kept E result.
Proof.
  unfold extract, kept.
  destruct result; unfold items at 2; simpl;
    try (unfold ret; intros H; inversion H; reflexivity);
    try (unfold bind, lift; simpl; discriminate).
  - unfold bind, lift. simpl.
    match goal with
    | |- context [parse_pages E ?l ?a0] =>
        destruct (parse_pages E l a0) as [[u | e] a1] eqn:E1; [| discriminate]
    end.
    intros H. inversion H; subst a1.
    apply parse_pages_kept in E1. exact E1.
  - unfold bind, lift. simpl.
    match goal with
    | |- context [parse_pages E ?l ?a0] =>
        destruct (parse_pages E l a0) as [[u | e] a1] eqn:E1; [| discriminate]
    end.
    intros H. inversion H; subst a1.
    apply parse_pages_kept in E1. exact E1.
Qed.

Lemma length_kept_blocks blocks :
  forall idx, (length (kept_blocks E idx blocks) <= length blocks)%nat.
Proof.
  induction blocks as [| block rest IH]; intros idx; simpl; [lia |].
  rewrite length_app. specialize (IH (S idx)).
  assert (length (kept_block E idx block) <= 1)%nat; [| lia].
  unfold kept_block.
  destruct (parse_text block), (parse_confidence E block),
    (parse_coordinates block); simpl; lia.
Qed.

Lemma length_kept result :
  (length (kept E result) <= length (engine_blocks result))%nat.
Proof.
  unfold kept, engine_blocks.
  induction (items result) as [| page rest IH]; simpl; [lia |].
  rewrite !length_app. pose proof (length_kept_blocks (items page) 0). lia.
Qed.

(** X7. The text blocks of a record are exactly the blocks of the
    engine's output whose text, score and box can be read, page after
    page and in order, each numbered by its position in its page: the
    numbers start again on every page and skip the blocks that were
    dropped.  [total_blocks] is at most the number of blocks the engine
    returned. *)
Theorem text_blocks_are_the_readable_blocks path W d W' :
  process_image E path W = (Ok (Some d), W') ->
  exists img result,
    predict E img = Ok result /\
    text_blocks d = kept E result /\
    (total_blocks d <= length (engine_blocks result))%nat.
Proof.
  intros H.
  destruct (process_image_some E path W W' d H)
    as (rp & W1 & img & result & parts & _ & _ & Hp & Hx & _ & Ht & _).
  exists img, result. split; [exact Hp |].
  apply extract_kept in Hx. split; [exact Hx |].
  rewrite Ht, Hx. apply length_kept.
Qed.

(** A block whose text is not a string ends the block loop with an
    exception the loop does not catch. *)
Lemma parse_block_text_not_str idx block a :
  text_not_str E block ->
  exists a', parse_block E idx block a = (Raise AttributeError, a').
Proof.
  intros (t & q & c & Ht & Hn & Hq & Hc).
  unfold parse_block, try_except_only, bind, lift.
  rewrite Ht, Hq, Hc. unfold append_block, raise.
  destruct t; try (eexists; reflexivity).
  exfalso. eapply Hn. reflexivity.
Qed.

Lemma parse_blocks_text_not_str blocks :
  Exists (text_not_str E) blocks ->
  forall idx a, exists e a', parse_blocks E idx blocks a = (Raise e, a').
Proof.
  induction blocks as [| block rest IH]; intros Hex idx a.
  - inversion Hex.
  - cbn [parse_blocks]. unfold bind at 1.
    destruct (parse_block E idx block a) as [[u | e] a1] eqn:E1; [| eauto].
    apply IH. inversion Hex as [? ? Hb | ? ? Hr]; subst; [| exact Hr].
    destruct (parse_block_text_not_str idx block a Hb) as (a' & Hb').
    rewrite Hb' in E1. discriminate E1.
Qed.

Lemma parse_page_text_not_str page a :
  Exists (text_not_str E) (items page) ->
  exists e a', parse_page E page a = (Raise e, a').
Proof.
  unfold parse_page, items. intros Hex.
  destruct page; simpl in Hex; try (inversion Hex; fail);
    unfold bind, lift; simpl; apply parse_blocks_text_not_str, Hex.
Qed.

Lemma parse_pages_text_not_str pages :
  Exists (fun page => Exists (text_not_str E) (items page)) pages ->
  forall a, exists e a', parse_pages E pages a = (Raise e, a').
Proof.
  induction pages as [| page rest IH]; intros Hex a.
  - inversion Hex.
  - cbn [parse_pages]. unfold bind at 1.
    destruct (parse_page E page a) as [[u | e] a1] eqn:E1; [| eauto].
    apply IH. inversion Hex as [? ? Hb | ? ? Hr]; subst; [| exact Hr].
    destruct (parse_page_text_not_str page a Hb) as (e & a' & Hb').
    rewrite Hb' in E1. discriminate E1.
Qed.

Lemma extract_text_not_str result block :
  In block (engine_blocks result) -> text_not_str E block ->
  exists e, extract E result = Raise e.
Proof.
  intros Hin Hb. unfold engine_blocks in Hin.
  apply in_concat in Hin as (l & Hl & Hin).
  apply in_map_iff in Hl as (page & <- & Hpage).
  assert (Hex : Exists (fun page => Exists (text_not_str E) (items page))
                       (items result)).
  { apply Exists_exists. exists page. split; [apply list_elem_of_In, Hpage |].
    apply Exists_exists. exists block. split; [apply list_elem_of_In, Hin | exact Hb]. }
  unfold extract. unfold items in Hex at 2.
  destruct result; simpl in Hex; try (inversion Hex; fail);
    unfold bind, lift; simpl;
    match goal with
    | |- context [parse_pages E ?l ?a0] =>
        destruct (parse_pages_text_not_str l Hex a0) as (e & a' & ->)
    end; eauto.
Qed.

(** X8. A block whose text is not a string, while its score and its box
    can be read, fails the whole image: [text.strip()] raises
    [AttributeError], which the handler of the block loop does not
    catch, so [process_image] returns [None] and the world stays as
    [resize_image] left it. *)
Theorem non_string_text_fails_the_image path W rp W1 img result block :
  resize_image path default_max_size W = (Ok rp, W1) ->
  fs W1 !! rp = Some (CImage img) ->
  predict E img = Ok result ->
  In block (engine_blocks result) ->
  text_not_str E block ->
  process_image E path W = (Ok None, W1).
Proof.
  intros Hr Hfs Hp Hin Hb.
  destruct (extract_text_not_str result block Hin Hb) as (e & He).
  apply paddle_pipeline_raises_none. right. right.
  exists rp, result, e. split; [exact Hr |]. split; [| exact He].
  unfold predict_file. rewrite Hfs, Hp. reflexivity.
Qed.

End KeptBlocks.

(* ===================================================================== *)
(** * Where the programs write                                             *)
(* ===================================================================== *)

Section MorePathFacts.

(** After the last occurrence of [c] there is none. *)
Lemma rfind_from_last c s :
  forall i last,
    last < i ->
    (rfind_from c s i last = last /\ lacks c s = true) \/
    (i <= rfind_from c s i last /\
     lacks c (String.substring (Z.to_nat (rfind_from c s i last - i) + 1)
                (String.length s - (Z.to_nat (rfind_from c s i last - i) + 1)) s)
     = true).
Proof.
  induction s as [| d r IH]; intros i last Hl; simpl rfind_from.
  - left. auto.
  - destruct (IH (i + 1) (if Ascii.eqb c d then i else last)) as [[E L] | [Hr L]].
    + destruct (Ascii.eqb c d); lia.
    + rewrite E. destruct (Ascii.eqb c d) eqn:Ecd.
      * right. split; [lia |]. replace (i - i) with 0 by lia.
        simpl. rewrite Nat.sub_0_r, substring_all. exact L.
      * left. split; [reflexivity |]. simpl. rewrite Ecd. exact L.
    + right. set (q := rfind_from c r (i + 1) _) in *.
      split; [lia |].
      replace (Z.to_nat (q - i)) with (S (Z.to_nat (q - (i + 1)))) by lia.
      simpl. exact L.
Qed.

(** A base name holds no slash. *)
Lemma basename_lacks_slash p : lacks "/" (basename p) = true.
Proof.
  destruct (rfind_from_last "/" p 0 (-1)) as [[E L] | [Hr L]]; [lia | |].
  - rewrite (basename_lacks p L). exact L.
  - unfold basename, slice_from, rfind.
    set (q := rfind_from "/" p 0 (-1)) in *.
    rewrite Z.sub_0_r in L.
    replace (Z.to_nat (q + 1)) with (Z.to_nat q + 1)%nat by lia.
    exact L.
Qed.

Lemma lacks_substring c s :
  lacks c s = true -> forall n m, lacks c (String.substring n m s) = true.
Proof.
  induction s as [| d r IH]; intros H n m.
  - destruct n, m; reflexivity.
  - simpl in H. apply andb_prop in H as [Hd Hr].
    destruct n as [| n]; simpl.
    + destruct m as [| m]; [reflexivity |]. simpl. rewrite Hd. apply IH, Hr.
    + apply IH, Hr.
Qed.

(** The stem of a base name holds no slash. *)
Lemma stem_lacks_slash p : lacks "/" (fst (splitext (basename p))) = true.
Proof.
  unfold splitext.
  destruct (_ && _); cbn [fst];
    [apply lacks_substring |]; apply basename_lacks_slash.
Qed.

Lemma resized_path_lacks_slash p : lacks "/" (resized_path p) = true.
Proof.
  unfold resized_path. rewrite lacks_app, basename_lacks_slash. reflexivity.
Qed.

Lemma prefix_app a b : String.prefix a (a +:+ b) = true.
Proof.
  induction a as [| c r IH]; simpl; [destruct b; reflexivity |].
  destruct (ascii_dec c c); [exact IH | contradiction].
Qed.

(** Every artifact lies under the output directory. *)
Lemma output_path_prefix out input :
  String.prefix out (output_path out input) = true.
Proof.
  unfold output_path, path_join.
  pose proof (stem_lacks_slash input) as L.
  destruct (fst (splitext (basename input))) as [| c r] eqn:Es.
  - simpl. destruct (_ || _); apply prefix_app.
  - simpl in L. apply andb_prop in L as [Hc _].
    simpl. destruct c as [[] [] [] [] [] [] [] []];
      try discriminate Hc; destruct (_ || _); apply prefix_app.
Qed.

Lemma get_lacks c s n : String.get n s = Some c -> lacks c s = false.
Proof.
  revert n. induction s as [| d r IH]; intros n H; [discriminate H |].
  simpl. destruct n as [| n]; simpl in H.
  - inversion H; subst d. rewrite Ascii.eqb_refl. reflexivity.
  - rewrite (IH n H). apply andb_false_r.
Qed.

(** An entry of a named directory has a slash in its path. *)
Lemma path_join_has_slash a b :
  a <> EmptyString -> lacks "/" (path_join a b) = false.
Proof.
  intros Ha. unfold path_join.
  assert (Hslash : lacks "/" (a +:+ "/" +:+ b) = false).
  { rewrite lacks_app. simpl. apply andb_false_r. }
  assert (Hsep : ends_with_sep a = true -> lacks "/" (a +:+ b) = false).
  { unfold ends_with_sep. intros H.
    destruct (String.get (String.length a - 1) a) as [c |] eqn:Hg;
      [| discriminate H].
    apply Ascii.eqb_eq in H. subst c.
    rewrite lacks_app, (get_lacks _ _ _ Hg). reflexivity. }
  assert (Ht : str_truthy a = true) by (destruct a; [contradiction | reflexivity]).
  rewrite Ht. cbn [negb orb].
  destruct b as [| c r].
  - destruct (ends_with_sep a) eqn:Es; [apply Hsep; reflexivity | exact Hslash].
  - destruct (Ascii.eqb c "/") eqn:Ec.
    + apply Ascii.eqb_eq in Ec. subst c. reflexivity.
    + assert (Hgoal : lacks "/"
                (if ends_with_sep a then a +:+ String c r
                 else a +:+ "/" +:+ String c r) = false).
      { destruct (ends_with_sep a) eqn:Es; [apply Hsep; reflexivity | exact Hslash]. }
      destruct c as [[] [] [] [] [] [] [] []]; try exact Hgoal; discriminate Ec.
Qed.

End MorePathFacts.

Section PaddleBatch.
Import Paddle.
Variable E : PaddleEnv.
Variable out : string.

Lemma page_files_in_cwd k p : page_files E k p -> in_cwd p.
Proof.
  intros [-> | ->]; [apply temp_page_path_lacks_slash
                    | apply resized_path_lacks_slash].
Qed.

Lemma paddle_touches_save_results data input :
  preserves (same_except (fun p => p = output_path out input))
            (save_results out data input).
Proof.
  unfold save_results. cbv zeta. fold (output_path out input).
  set (P := fun p => p = output_path out input).
  destruct (negb (truthy data)); [apply (preserves_ret _ (same_except_refl P)) |].
  apply (preserves_try_except _ (same_except_trans P));
    [| intros e; apply (preserves_ret _ (same_except_refl P))].
  apply (preserves_bind _ (same_except_trans P));
    [apply touches_open_w; reflexivity | intros _].
  apply (preserves_bind _ (same_except_trans P));
    [| intros _; apply (preserves_ret _ (same_except_refl P))].
  destruct data; [apply touches_json_dump; reflexivity
                 | apply (preserves_ret _ (same_except_refl P))].
Qed.

(** [process_file] touches the artifact of the file and files of the
    working directory. *)
Lemma touches_process_file path :
  preserves (same_except (fun p => p = output_path out path \/ in_cwd p))
            (process_file E out path).
Proof.
  set (P := fun p => p = output_path out path \/ in_cwd p).
  assert (Hsave : forall data, preserves (same_except P)
                                 (save_results out data path)).
  { intros data. eapply touches_weaken; [| apply paddle_touches_save_results].
    intros p ->. left. reflexivity. }
  unfold process_file.
  apply (preserves_bind _ (same_except_trans P));
    [apply (preserves_path_exists _ (same_except_refl P)) | intros ex].
  destruct (negb ex); [apply (preserves_ret _ (same_except_refl P)) |].
  destruct (str_in _ _).
  - apply (preserves_bind _ (same_except_trans P)).
    + eapply touches_weaken; [| apply touches_process_image].
      intros p ->. right. apply resized_path_lacks_slash.
    + intros r. destruct (truthy _);
        [apply Hsave | apply (preserves_ret _ (same_except_refl P))].
  - destruct (String.eqb _ _); [| apply (preserves_ret _ (same_except_refl P))].
    apply (preserves_bind _ (same_except_trans P)).
    + eapply touches_weaken; [| apply touches_process_pdf].
      intros p (k & Hk). right. eapply page_files_in_cwd, Hk.
    + intros r. destruct (truthy _);
        [apply Hsave | apply (preserves_ret _ (same_except_refl P))].
Qed.

Lemma touches_paddle_entries dir names :
  forall counts,
    preserves (same_except (fun p => artifacts out dir names p \/ in_cwd p))
              (process_entries E out dir names counts).
Proof.
  induction names as [| name rest IH]; intros [p f]; cbn [process_entries].
  - apply (preserves_ret _ (same_except_refl _)).
  - set (P := fun p => artifacts out dir (name :: rest) p \/ in_cwd p).
    assert (Hrest : forall c, preserves (same_except P)
                                (process_entries E out dir rest c)).
    { intros c. eapply touches_weaken; [| apply IH].
      intros q [(n & Hn & ->) | Hq]; [left | right; exact Hq].
      exists n. split; [right; exact Hn | reflexivity]. }
    apply (preserves_bind _ (same_except_trans P));
      [apply (preserves_path_isfile _ (same_except_refl P)) | intros [|]];
      [| apply Hrest].
    apply (preserves_bind _ (same_except_trans P)).
    { eapply touches_weaken; [| apply touches_process_file].
      intros q [-> | Hq]; [left | right; exact Hq].
      exists name. split; [left | reflexivity]. }
    intros [|]; apply Hrest.
Qed.

(** X13. The directory loop of [paddle_ocr.py] touches artifacts and
    files of the working directory only: a path that has a directory
    part and is not the artifact of an entry holds after the loop what
    it held before, however the files fared; the locked paths are the
    same. *)
Theorem paddle_batch_footprint dir names counts W r W' :
  process_entries E out dir names counts W = (r, W') ->
  (forall p, lacks "/" p = false ->
             (forall name, name ∈ names ->
                           p <> output_path out (path_join dir name)) ->
             fs W' !! p = fs W !! p) /\
  locked W' = locked W.
Proof.
  intros H.
  destruct (touches_paddle_entries dir names counts W r W' H) as [F L].
  split; [| exact L].
  intros p Hs Hp. apply F. intros [(name & Hn & ->) | Hc].
  - exact (Hp name Hn eq_refl).
  - unfold in_cwd in Hc. congruence.
Qed.

Lemma kept_resize_image path L :
  preserves (kept_in outside_cwd) (resize_image path L).
Proof.
  unfold resize_image.
  preserve_with (kept_in_refl outside_cwd) (kept_in_trans outside_cwd).
  apply kept_image_save.
Qed.

Lemma kept_remove_in_cwd p :
  in_cwd p ->
  preserves (kept_in outside_cwd)
    (try_except_only os_error (os_remove p) (fun _ => ret tt)).
Proof.
  intros Hp.
  apply (preserves_try_except_only _ (kept_in_trans outside_cwd));
    [| intros e; apply (preserves_ret _ (kept_in_refl outside_cwd))].
  apply kept_os_remove. unfold in_cwd in Hp. unfold outside_cwd. congruence.
Qed.

Lemma kept_process_image path :
  preserves (kept_in outside_cwd) (process_image E path).
Proof.
  set (R := kept_in outside_cwd).
  unfold process_image.
  apply (preserves_try_except _ (kept_in_trans _));
    [| intros e; apply (preserves_ret _ (kept_in_refl _))].
  apply (preserves_bind_post _ (kept_in_trans _)
           (fun rp => rp = path \/ rp = resized_path path)).
  - apply kept_resize_image.
  - intros W a W' H. eapply resize_image_result, H.
  - intros rp Hrp.
    apply (preserves_bind _ (kept_in_trans _));
      [apply (preserves_predict_file _ (kept_in_refl _)) | intros result].
    apply (preserves_bind _ (kept_in_trans _));
      [apply (preserves_lift _ (kept_in_refl _)) | intros [tbs parts]].
    apply (preserves_bind _ (kept_in_trans _)).
    + destruct Hrp as [-> | ->].
      * rewrite String.eqb_refl. apply (preserves_ret _ (kept_in_refl _)).
      * destruct (negb _); [| apply (preserves_ret _ (kept_in_refl _))].
        apply kept_remove_in_cwd, resized_path_lacks_slash.
    + intros _.
      apply (preserves_bind _ (kept_in_trans _)); [apply kept_now | intros ts].
      preserve_with (kept_in_refl outside_cwd) (kept_in_trans outside_cwd).
Qed.

Lemma kept_process_pdf_pages images :
  forall i results,
    preserves (kept_in outside_cwd) (process_pdf_pages E images i results).
Proof.
  induction images as [| img rest IH]; intros i results;
    cbn [process_pdf_pages].
  - apply (preserves_ret _ (kept_in_refl _)).
  - apply (preserves_bind _ (kept_in_trans _)); [| intros r; apply IH].
    apply (preserves_try_except _ (kept_in_trans _));
      [| intros e; apply (preserves_ret _ (kept_in_refl _))].
    cbv zeta.
    apply (preserves_bind _ (kept_in_trans _));
      [apply kept_image_save | intros _].
    apply (preserves_bind _ (kept_in_trans _));
      [apply kept_process_image | intros pr].
    apply (preserves_bind _ (kept_in_trans _));
      [| intros _; apply (preserves_ret _ (kept_in_refl _))].
    apply kept_remove_in_cwd, temp_page_path_lacks_slash.
Qed.

Lemma kept_process_pdf path :
  preserves (kept_in outside_cwd) (process_pdf E path).
Proof.
  unfold process_pdf.
  apply (preserves_try_except _ (kept_in_trans _));
    [| intros e; apply (preserves_ret _ (kept_in_refl _))].
  apply (preserves_bind _ (kept_in_trans _)).
  - preserve_with (kept_in_refl outside_cwd) (kept_in_trans outside_cwd).
  - intros [images |]; [| apply (preserves_ret _ (kept_in_refl _))].
    apply (preserves_bind _ (kept_in_trans _));
      [apply kept_process_pdf_pages
      | intros r; apply (preserves_ret _ (kept_in_refl _))].
Qed.

Lemma kept_paddle_save_results data input :
  preserves (kept_in outside_cwd) (save_results out data input).
Proof.
  unfold save_results. cbv zeta.
  destruct (negb (truthy data)); [apply (preserves_ret _ (kept_in_refl _)) |].
  apply (preserves_try_except _ (kept_in_trans _));
    [| intros e; apply (preserves_ret _ (kept_in_refl _))].
  apply (preserves_bind _ (kept_in_trans _));
    [apply kept_open_w | intros _].
  apply (preserves_bind _ (kept_in_trans _));
    [| intros _; apply (preserves_ret _ (kept_in_refl _))].
  destruct data; [apply kept_json_dump
                 | apply (preserves_ret _ (kept_in_refl _))].
Qed.

Lemma kept_process_file path :
  preserves (kept_in outside_cwd) (process_file E out path).
Proof.
  unfold process_file.
  apply (preserves_bind _ (kept_in_trans _));
    [apply (preserves_path_exists _ (kept_in_refl _)) | intros ex].
  destruct (negb ex); [apply (preserves_ret _ (kept_in_refl _)) |].
  destruct (str_in _ _).
  - apply (preserves_bind _ (kept_in_trans _));
      [apply kept_process_image | intros r].
    destruct (truthy _);
      [apply kept_paddle_save_results | apply (preserves_ret _ (kept_in_refl _))].
  - destruct (String.eqb _ _); [| apply (preserves_ret _ (kept_in_refl _))].
    apply (preserves_bind _ (kept_in_trans _));
      [apply kept_process_pdf | intros r].
    destruct (truthy _);
      [apply kept_paddle_save_results | apply (preserves_ret _ (kept_in_refl _))].
Qed.

(** X14. When the entries of a directory with a non-empty name are
    regular files, the loop counts each exactly once:
    [files_processed + files_failed] grows by the number of entries.
    The processing of one file never removes a file the loop has yet to
    visit. *)
Theorem paddle_counts_every_file dir names :
  dir <> EmptyString ->
  forall p f W p' f' W',
    (forall name, name ∈ names ->
       exists c, fs W !! path_join dir name = Some c /\ regular c) ->
    process_entries E out dir names (p, f) W = (Ok (p', f'), W') ->
    (p' + f' = p + f + length names)%nat.
Proof.
  intros Hdir.
  induction names as [| name rest IH]; intros p f W p' f' W' Hf H.
  - simpl in H. apply ret_ok in H as [H _]. inversion H. simpl. lia.
  - destruct (Hf name) as (c & Hc & Hr); [left |].
    assert (Hnd : forall l, c <> CDir l) by (intros l ->; exact Hr).
    destruct (total_process_file E out (path_join dir name) W)
      as (b & W1 & Hp).
    rewrite (entries_step E out dir name rest p f W c b W1 Hc Hnd Hp) in H.
    assert (K : kept_in outside_cwd W W1)
      by exact (kept_process_file _ _ _ _ Hp).
    assert (Hrest : forall n, n ∈ rest ->
              exists c, fs W1 !! path_join dir n = Some c /\ regular c).
    { intros n Hn. destruct (Hf n) as (cn & Hcn & Hrn); [right; exact Hn |].
      destruct (K _ _ (path_join_has_slash dir n Hdir) Hcn) as (c' & Hc' & Hr').
      eauto. }
    destruct b; apply IH in H; try exact Hrest; simpl; lia.
Qed.

End PaddleBatch.

(* ===================================================================== *)
(** * The two [main] functions                                             *)
(* ===================================================================== *)

Section PaddleMain.
Import Paddle.
Variable E : PaddleEnv.




End PaddleMain.

Section TesseractMain.
Import Tesseract.
Variable E : TesseractEnv.



End TesseractMain.

Section TesseractConfined.
Import Tesseract.
Variable E : TesseractEnv.

Lemma under_refl out : under out out.
Proof.
  unfold under. induction out as [| c r IH]; simpl; [reflexivity |].
  destruct (ascii_dec c c); [exact IH | contradiction].
Qed.

Lemma artifacts_under out dir names p : artifacts out dir names p -> under out p.
Proof. intros (name & _ & ->). apply output_path_prefix. Qed.

Lemma confined_process_directory out dir :
  preserves (same_except (under out)) (process_directory E out dir).
Proof.
  set (P := under out).
  unfold process_directory, process_directory_counts.
  apply (preserves_bind _ (same_except_trans P));
    [| intros [p k]; apply (preserves_ret _ (same_except_refl P))].
  apply (preserves_bind _ (same_except_trans P));
    [apply (preserves_listdir _ (same_except_refl P)) | intros names].
  eapply touches_weaken; [| apply touches_process_entries].
  intros p (name & _ & ->). apply output_path_prefix.
Qed.

Lemma kept_process_directory out dir :
  preserves nothing_lost (process_directory E out dir).
Proof.
  unfold process_directory, process_directory_counts.
  apply (preserves_bind _ nothing_lost_trans);
    [| intros [p k]; apply (preserves_ret _ nothing_lost_refl)].
  apply (preserves_bind _ nothing_lost_trans);
    [apply (preserves_listdir _ nothing_lost_refl) | intros names].
  apply keeps_all_process_entries.
Qed.

Lemma confined_main_body :
  preserves (same_except (under default_output_dir)) (main_body E).
Proof.
  set (P := under default_output_dir).
  unfold main_body. rewrite quit_unreachable.
  apply (preserves_bind _ (same_except_trans P));
    [apply (preserves_path_exists _ (same_except_refl P)) | intros ex].
  destruct (negb ex); [apply (preserves_ret _ (same_except_refl P)) |].
  apply (preserves_bind_post _ (same_except_trans P)
           (fun out => out = default_output_dir)).
  - unfold new_processor.
    apply (preserves_bind _ (same_except_trans P));
      [| intros _; apply (preserves_ret _ (same_except_refl P))].
    apply touches_makedirs, under_refl.
  - intros W out W' H. unfold new_processor in H.
    apply bind_ok in H as (u & W1 & _ & H). apply ret_ok in H as [-> _].
    reflexivity.
  - intros out ->.
    apply (preserves_bind _ (same_except_trans P));
      [apply (preserves_path_isfile _ (same_except_refl P)) | intros [|]].
    + apply (preserves_bind _ (same_except_trans P)).
      { eapply touches_weaken; [| apply reads_process_single_file].
        intros q []. }
      intros r. destruct (truthy r); [| apply (preserves_ret _ (same_except_refl P))].
      apply (preserves_bind _ (same_except_trans P));
        [| intros _; apply (preserves_ret _ (same_except_refl P))].
      eapply touches_weaken; [| apply touches_save_results].
      intros q ->. apply output_path_prefix.
    + apply (preserves_bind _ (same_except_trans P));
        [apply (preserves_path_isdir _ (same_except_refl P)) | intros [|]];
        [| apply (preserves_ret _ (same_except_refl P))].
      apply (preserves_bind _ (same_except_trans P));
        [| intros _; apply (preserves_ret _ (same_except_refl P))].
      apply confined_process_directory.
Qed.

Lemma kept_main_body : preserves nothing_lost (main_body E).
Proof.
  unfold main_body. rewrite quit_unreachable.
  apply (preserves_bind _ nothing_lost_trans);
    [apply (preserves_path_exists _ nothing_lost_refl) | intros ex].
  destruct (negb ex); [apply (preserves_ret _ nothing_lost_refl) |].
  apply (preserves_bind _ nothing_lost_trans).
  { unfold new_processor.
    apply (preserves_bind _ nothing_lost_trans);
      [| intros _; apply (preserves_ret _ nothing_lost_refl)].
    apply kept_makedirs. }
  intros out.
  apply (preserves_bind _ nothing_lost_trans);
    [apply (preserves_path_isfile _ nothing_lost_refl) | intros [|]].
  - apply (preserves_bind _ nothing_lost_trans);
      [apply keeps_all_process_single_file | intros r].
    destruct (truthy r); [| apply (preserves_ret _ nothing_lost_refl)].
    apply (preserves_bind _ nothing_lost_trans);
      [| intros _; apply (preserves_ret _ nothing_lost_refl)].
    apply keeps_all_save_results.
  - apply (preserves_bind _ nothing_lost_trans);
      [apply (preserves_path_isdir _ nothing_lost_refl) | intros [|]];
      [| apply (preserves_ret _ nothing_lost_refl)].
    apply (preserves_bind _ nothing_lost_trans);
      [| intros _; apply (preserves_ret _ nothing_lost_refl)].
    apply kept_process_directory.
Qed.

Lemma confined_main fuel :
  preserves (same_except (under default_output_dir)) (main E fuel) /\
  preserves nothing_lost (main E fuel).
Proof.
  induction fuel as [| fuel [IH1 IH2]]; cbn [main].
  - split; [apply (preserves_ret _ (same_except_refl _))
           | apply (preserves_ret _ nothing_lost_refl)].
  - split.
    + apply (preserves_bind _ (same_except_trans _));
        [apply confined_main_body | intros [|]];
        [apply (preserves_ret _ (same_except_refl _)) | exact IH1].
    + apply (preserves_bind _ nothing_lost_trans);
        [apply kept_main_body | intros [|]];
        [apply (preserves_ret _ nothing_lost_refl) | exact IH2].
Qed.

(** X26. Any number of passes of [main] in [main.py] alter nothing
    outside the output directory and remove nothing: a path that does
    not start with the name of the output directory holds what it held
    before, every path that existed still exists, a regular file is a
    regular file still, and the locked paths are the same. *)
Theorem tesseract_main_confined fuel W r W' :
  main E fuel W = (r, W') ->
  (forall p, String.prefix default_output_dir p = false ->
             fs W' !! p = fs W !! p) /\
  (forall p c, fs W !! p = Some c ->
               exists c', fs W' !! p = Some c' /\ (regular c -> regular c')) /\
  locked W' = locked W.
Proof.
  intros H. destruct (confined_main fuel) as [H1 H2].
  destruct (H1 W r W' H) as [F L].
  split; [| split; [| exact L]].
  - intros p Hp. apply F. unfold under. congruence.
  - intros p c. exact (H2 W r W' H p c I).
Qed.

End TesseractConfined.

Section PaddleConfined.
Import Paddle.
Variable E : PaddleEnv.

Lemma paddle_new_processor_out W out W' :
  new_processor E W = (Ok out, W') -> out = default_output_dir.
Proof.
  unfold new_processor. intros H.
  apply bind_ok in H as (u & W1 & _ & H).
  apply bind_ok in H as (v & W2 & _ & H).
  apply ret_ok in H as [-> _]. reflexivity.
Qed.

Lemma confined_paddle_main :
  preserves (same_except (fun p => under default_output_dir p \/ in_cwd p))
            (main E).
Proof.
  set (P := fun p => under default_output_dir p \/ in_cwd p).
  unfold main.
  apply (preserves_bind _ (same_except_trans P));
    [apply (preserves_path_exists _ (same_except_refl P)) | intros ex].
  destruct (negb ex); [apply (preserves_ret _ (same_except_refl P)) |].
  apply (preserves_try_except _ (same_except_trans P));
    [| intros e; apply (preserves_ret _ (same_except_refl P))].
  apply (preserves_bind_post _ (same_except_trans P)
           (fun out => out = default_output_dir)).
  - unfold new_processor.
    apply (preserves_bind _ (same_except_trans P)).
    { apply touches_makedirs. left. apply under_refl. }
    intros _.
    apply (preserves_bind _ (same_except_trans P));
      [apply (preserves_lift _ (same_except_refl P))
      | intros _; apply (preserves_ret _ (same_except_refl P))].
  - intros W out W' H. eapply paddle_new_processor_out, H.
  - intros out ->.
    apply (preserves_bind _ (same_except_trans P));
      [apply (preserves_path_isdir _ (same_except_refl P)) | intros [|]].
    + apply (preserves_bind _ (same_except_trans P));
        [apply (preserves_listdir _ (same_except_refl P)) | intros names].
      apply (preserves_bind _ (same_except_trans P));
        [| intros [p f]; apply (preserves_ret _ (same_except_refl P))].
      eapply touches_weaken; [| apply touches_paddle_entries].
      intros q [Hq | Hq]; [left | right; exact Hq].
      eapply artifacts_under, Hq.
    + apply (preserves_bind _ (same_except_trans P));
        [apply (preserves_path_isfile _ (same_except_refl P)) | intros [|]];
        [| apply (preserves_ret _ (same_except_refl P))].
      apply (preserves_bind _ (same_except_trans P));
        [| intros ok; apply (preserves_ret _ (same_except_refl P))].
      eapply touches_weaken; [| apply touches_process_file].
      intros q [-> | Hq]; [left; apply output_path_prefix | right; exact Hq].
Qed.

Lemma kept_paddle_entries out dir names :
  forall counts,
    preserves (kept_in outside_cwd) (process_entries E out dir names counts).
Proof.
  induction names as [| name rest IH]; intros [p f]; cbn [process_entries].
  - apply (preserves_ret _ (kept_in_refl _)).
  - apply (preserves_bind _ (kept_in_trans _));
      [apply (preserves_path_isfile _ (kept_in_refl _)) | intros [|]];
      [| apply IH].
    apply (preserves_bind _ (kept_in_trans _));
      [apply kept_process_file | intros [|]; apply IH].
Qed.

Lemma kept_paddle_main : preserves (kept_in outside_cwd) (main E).
Proof.
  unfold main.
  apply (preserves_bind _ (kept_in_trans _));
    [apply (preserves_path_exists _ (kept_in_refl _)) | intros ex].
  destruct (negb ex); [apply (preserves_ret _ (kept_in_refl _)) |].
  apply (preserves_try_except _ (kept_in_trans _));
    [| intros e; apply (preserves_ret _ (kept_in_refl _))].
  apply (preserves_bind _ (kept_in_trans _)).
  { unfold new_processor.
    apply (preserves_bind _ (kept_in_trans _)); [apply kept_makedirs |].
    intros _.
    apply (preserves_bind _ (kept_in_trans _));
      [apply (preserves_lift _ (kept_in_refl _))
      | intros _; apply (preserves_ret _ (kept_in_refl _))]. }
  intros out.
  apply (preserves_bind _ (kept_in_trans _));
    [apply (preserves_path_isdir _ (kept_in_refl _)) | intros [|]].
  - apply (preserves_bind _ (kept_in_trans _));
      [apply (preserves_listdir _ (kept_in_refl _)) | intros names].
    apply (preserves_bind _ (kept_in_trans _));
      [apply kept_paddle_entries
      | intros [p f]; apply (preserves_ret _ (kept_in_refl _))].
  - apply (preserves_bind _ (kept_in_trans _));
      [apply (preserves_path_isfile _ (kept_in_refl _)) | intros [|]];
      [| apply (preserves_ret _ (kept_in_refl _))].
    apply (preserves_bind _ (kept_in_trans _));
      [apply kept_process_file
      | intros ok; apply (preserves_ret _ (kept_in_refl _))].
Qed.

(** X16. A run of [main] of [paddle_ocr.py] changes nothing outside
    the output directory and the working directory: a path with a
    directory part that does not start with the name of the output
    directory holds what it held before.  No file with a directory part
    is removed or replaced by a directory, and the locked paths are the
    same. *)
Theorem paddle_main_confined W r W' :
  main E W = (r, W') ->
  (forall p, String.prefix default_output_dir p = false ->
             lacks "/" p = false ->
             fs W' !! p = fs W !! p) /\
  (forall p c, lacks "/" p = false -> fs W !! p = Some c ->
               exists c', fs W' !! p = Some c' /\ (regular c -> regular c')) /\
  locked W' = locked W.
Proof.
  intros H. destruct (confined_paddle_main W r W' H) as [F L].
  split; [| split; [| exact L]].
  - intros p Hp Hs. apply F. unfold under, in_cwd. intros [Hx | Hx]; congruence.
  - exact (kept_paddle_main W r W' H).
Qed.

End PaddleConfined.

(* ===================================================================== *)
(** * Records and artifacts of processed files                             *)
(* ===================================================================== *)

Section TesseractImage.
Import Tesseract.
Variable E : TesseractEnv.

(** X17. [process_image] of [main.py] returns a record exactly when the
    image decodes, recognition succeeds and the Tesseract version is a
    string.  The record then holds the base name of the path, the
    recognised text, the reading of the clock, the size and mode of the
    image and the engine name [Tesseract <version>]; only the clock has
    changed. *)
Theorem tesseract_image_record path W d W' :
  process_image E path W = (Ok (Some d), W') <->
  exists img t v,
    fs W !! path = Some (CImage img) /\
    image_to_string E img = Ok t /\
    get_tesseract_version E = Ok (PStr v) /\
    d = {| filename := basename path;
           filetype := "image";
           page_number := None;
           text := t;
           timestamp := clock W;
           image_size := img_size img;
           image_mode := img_mode img;
           ocr_engine := "Tesseract " +:+ v |} /\
    W' = later 1 W.
Proof.
  split.
  - intros H. unfold process_image in H. apply try_except_none_some in H.
    apply bind_ok in H as (img & W0 & Hi & H).
    unfold image_open in Hi.
    destruct (fs W !! path) as [[img0 | | | |] |] eqn:Hfs; try discriminate Hi.
    inversion Hi; subst img0 W0; clear Hi.
    apply bind_ok in H as (t & W1 & Ht & H). apply lift_ok in Ht as [Ht ->].
    apply bind_ok in H as (ts & W2 & Hn & H).
    unfold now in Hn. inversion Hn; subst ts W2; clear Hn.
    apply bind_ok in H as (eng & W3 & He & H). apply lift_ok in He as [He ->].
    apply ret_ok in H as [Hd ->].
    destruct (get_tesseract_version E) as [v | e]; [| discriminate He].
    destruct v; try discriminate He. simpl in He. inversion He; subst eng.
    exists img, t, s. repeat split; auto.
    + congruence.
    + unfold later. f_equal. lia.
  - intros (img & t & v & Hfs & Ht & Hv & -> & ->).
    unfold process_image, try_except, bind, image_open, lift, now, ret.
    rewrite Hfs, Ht, Hv. simpl. unfold later. do 3 f_equal. lia.
Qed.

End TesseractImage.

Section PaddleProcessed.
Import Paddle.
Variable E : PaddleEnv.
Variable out : string.

Lemma paddle_saved_artifact data input W W' :
  save_results out data input W = (Ok true, W') ->
  exists d, data = Some d /\
    snd (json_tokens (data_json doc_json d)) = true /\
    W' = set_fs (insert (output_path out input)
                   (CText (fst (json_tokens (data_json doc_json d))))) W.
Proof.
  intros H.
  destruct (paddle_save_results_outcome out data input W)
    as (s & Wc & Hs & Hf & Ht).
  rewrite Hs in H. inversion H; subst s Wc. clear H.
  destruct (truthy data) eqn:Htr.
  - destruct data as [d |]; [| discriminate Htr].
    exists d. split; [reflexivity |].
    specialize (Ht d eq_refl eq_refl). unfold artifact_outcome in Ht.
    destruct (json_tokens (data_json doc_json d)) as [toks ok].
    destruct Ht as [-> ->]. auto.
  - destruct (Hf eq_refl) as [Hx _]. discriminate Hx.
Qed.

(** X10. A file that [process_file] reports as processed has its
    artifact on disk, complete: the output path holds the whole token
    sequence of the JSON of the result, which is the record
    [process_image] returned for the file or the non-empty list
    [process_pdf] returned for it. *)
Theorem processed_file_has_complete_artifact path W W' :
  process_file E out path W = (Ok true, W') ->
  exists data,
    truthy (Some data) = true /\
    snd (json_tokens (data_json doc_json data)) = true /\
    fs W' !! output_path out path
    = Some (CText (fst (json_tokens (data_json doc_json data)))) /\
    ((exists d W1, process_image E path W = (Ok (Some d), W1) /\
                   data = Single d) \/
     (exists docs W1, process_pdf E path W = (Ok (Some docs), W1) /\
                      data = Pages docs)).
Proof.
  intros H. unfold process_file in H.
  apply bind_ok in H as (ex & W0 & Hex & H).
  unfold path_exists in Hex. inversion Hex; subst ex W0; clear Hex.
  destruct (negb _); [apply ret_ok in H as [H _]; discriminate H |].
  destruct (str_in _ _).
  - apply bind_ok in H as (r & W1 & Hr & H).
    destruct (truthy (option_map Single r)) eqn:Ht;
      [| apply ret_ok in H as [H _]; discriminate H].
    destruct (paddle_saved_artifact _ _ _ _ H) as (data & Hd & Hok & ->).
    exists data. rewrite <- Hd. split; [exact Ht |]. split; [exact Hok |].
    split; [simpl; apply lookup_insert_eq |].
    left. destruct r as [d |]; [| discriminate Hd].
    simpl in Hd. inversion Hd; subst data. eauto.
  - destruct (String.eqb _ _);
      [| apply ret_ok in H as [H _]; discriminate H].
    apply bind_ok in H as (r & W1 & Hr & H).
    destruct (truthy (option_map Pages r)) eqn:Ht;
      [| apply ret_ok in H as [H _]; discriminate H].
    destruct (paddle_saved_artifact _ _ _ _ H) as (data & Hd & Hok & ->).
    exists data. rewrite <- Hd. split; [exact Ht |]. split; [exact Hok |].
    split; [simpl; apply lookup_insert_eq |].
    right. destruct r as [docs |]; [| discriminate Hd].
    simpl in Hd. inversion Hd; subst data. eauto.
Qed.

End PaddleProcessed.

(* ===================================================================== *)
(** * The further properties on the sample worlds                          *)
(* ===================================================================== *)

Section FurtherSamples.

(** X1 on the 5000 by 3000 image: the copy of 4000 by 2400 is within the
    limit and is not resized again. *)
Lemma resize_image_shrinks_once_on_sample :
  exists img',
    fs (set_fs (insert "resized_scan.png" (CImage (page 4000 2400))) large_scan)
      !! "resized_scan.png" = Some (CImage img') /\
    fst (img_size img') <= 5000 /\
    snd (img_size img') <= 3000 /\
    longer_side img' <= 4000 /\
    Paddle.resize_image "resized_scan.png" 4000
      (set_fs (insert "resized_scan.png" (CImage (page 4000 2400))) large_scan)
    = (Ok "resized_scan.png",
       set_fs (insert "resized_scan.png" (CImage (page 4000 2400))) large_scan).
Proof.
  apply (resize_image_shrinks_once "scan.png" 4000 large_scan (page 5000 3000)).
  - vm_compute. reflexivity.
  - simpl. lia.
  - simpl. lia.
  - lia.
  - simpl. lia.
  - vm_compute. reflexivity.
Defined.

(** X2 on the strip of 5000 by 1. *)
Lemma elongated_image_rejected_on_sample :
  Paddle.resize_image "ribbon.png" Paddle.default_max_size ribbon_scan
  = (Raise ValueError, ribbon_scan) /\
  Paddle.process_image (paddle_env engine_lines) "ribbon.png" ribbon_scan
  = (Ok None, ribbon_scan).
Proof.
  apply (elongated_image_rejected (paddle_env engine_lines) "ribbon.png"
           ribbon_scan (page 5000 1) 5000 1).
  - vm_compute. reflexivity.
  - reflexivity.
  - lia.
  - lia.
  - lia.
  - unfold Paddle.default_max_size. lia.
  - unfold Paddle.default_max_size. lia.
Defined.

(** X3 on the 5000 by 3000 image with an engine that raises: the copy
    stays, everything else is as before. *)
Lemma process_image_footprint_on_sample :
  (forall p, p <> resized_path "scan.png" ->
     fs (snd (Paddle.process_image (paddle_env engine_fails) "scan.png" large_scan))
       !! p = fs large_scan !! p) /\
  fs (snd (Paddle.process_image (paddle_env engine_fails) "scan.png" large_scan))
    !! "scan.png" = fs large_scan !! "scan.png" /\
  locked (snd (Paddle.process_image (paddle_env engine_fails) "scan.png" large_scan))
  = locked large_scan.
Proof.
  apply (process_image_footprint (paddle_env engine_fails) "scan.png" large_scan
           (fst (Paddle.process_image (paddle_env engine_fails) "scan.png"
                   large_scan))).
  apply surjective_pairing.
Defined.

(** X4 on the 5000 by 3000 image with [engine_lines]. *)
Lemma process_image_effect_on_sample :
  exists d W',
    Paddle.process_image (paddle_env engine_lines) "scan.png" large_scan
    = (Ok (Some d), W') /\
    Paddle.filename d = basename "scan.png" /\
    Paddle.image_size d = img_size (page 5000 3000) /\
    Paddle.image_mode d = img_mode (page 5000 3000) /\
    Paddle.timestamp d = clock large_scan /\
    clock W' = S (clock large_scan) /\
    locked W' = locked large_scan /\
    fs W' = if Paddle.default_max_size <? longer_side (page 5000 3000)
            then delete (resized_path "scan.png") (fs large_scan)
            else fs large_scan.
Proof.
  eexists. eexists. split.
  - vm_compute. reflexivity.
  - apply (process_image_effect (paddle_env engine_lines) "scan.png" large_scan
             (page 5000 3000)).
    + vm_compute. reflexivity.
    + vm_compute. reflexivity.
Defined.


(** X6 on the two-page PDF of the example. *)
Lemma pdf_records_name_the_page_file_on_sample :
  exists docs W',
    Paddle.process_pdf (paddle_env engine_lines) "in/receipt.pdf"
      invoice_and_receipt = (Ok (Some docs), W') /\
    Forall (fun d => Paddle.filetype d = "pdf_page" /\
                     Paddle.ocr_engine d = "PaddleOCR" /\
                     exists k, Paddle.page_number d = Some (k + 1)%nat /\
                               Paddle.filename d
                               = Paddle.temp_page_path (paddle_env engine_lines) k)
           docs.
Proof.
  eexists. eexists. split.
  - vm_compute. reflexivity.
  - eapply (pdf_records_name_the_page_file (paddle_env engine_lines)
              "in/receipt.pdf" invoice_and_receipt).
    vm_compute. reflexivity.
Defined.

(** X7 on the three lines of [engine_lines]. *)
Lemma text_blocks_on_sample :
  exists d W',
    Paddle.process_image (paddle_env engine_lines) "in/scan.png" small_scan
    = (Ok (Some d), W') /\
    exists img result,
      Paddle.predict (paddle_env engine_lines) img = Ok result /\
      Paddle.text_blocks d = kept (paddle_env engine_lines) result /\
      (Paddle.total_blocks d <= length (Paddle.engine_blocks result))%nat.
Proof.
  eexists. eexists. split.
  - vm_compute. reflexivity.
  - eapply (text_blocks_are_the_readable_blocks (paddle_env engine_lines)
              "in/scan.png" small_scan).
    vm_compute. reflexivity.
Defined.

(** X8 on a line whose text is [None]. *)
Lemma non_string_text_on_sample :
  Paddle.process_image (paddle_env engine_null_text) "in/scan.png" small_scan
  = (Ok None, small_scan).
Proof.
  apply (non_string_text_fails_the_image (paddle_env engine_null_text)
           "in/scan.png" small_scan "in/scan.png" small_scan (page 800 600)
           (PList [PList [PList [box; PList [PNone; PFloat (9 # 10)]]]])
           (PList [box; PList [PNone; PFloat (9 # 10)]])).
  - vm_compute. reflexivity.
  - vm_compute. reflexivity.
  - reflexivity.
  - simpl. left. reflexivity.
  - exists PNone, (9 # 10)%Q, box.
    split; [reflexivity |]. split; [intros s; discriminate |].
    split; reflexivity.
Defined.

(** X9 on [small_scan] with [engine_lines]. *)
Lemma process_image_well_formed_on_sample :
  Paddle.process_image (paddle_env engine_lines) "in/scan.png" small_scan =
  (Ok (Some {| Paddle.filename := basename "in/scan.png";
               Paddle.filetype := "image";
               Paddle.text_blocks :=
                 concat (map (page_records 0)
                           [[(box, "Invoice", 9 # 10); (box, "  ", 1 # 2);
                             (box, "Total", 1%Q)]]);
               Paddle.full_text :=
                 join newline
                   (concat (map page_parts
                              [[(box, "Invoice", 9 # 10); (box, "  ", 1 # 2);
                                (box, "Total", 1%Q)]]));
               Paddle.timestamp := clock small_scan;
               Paddle.image_size := img_size (page 800 600);
               Paddle.image_mode := img_mode (page 800 600);
               Paddle.ocr_engine := "PaddleOCR";
               Paddle.total_blocks :=
                 length (concat (map (page_records 0)
                                   [[(box, "Invoice", 9 # 10); (box, "  ", 1 # 2);
                                     (box, "Total", 1%Q)]]));
               Paddle.page_number := None |}),
   {| fs := fs small_scan; locked := locked small_scan;
      clock := S (clock small_scan) |}).
Proof.
  apply (process_image_well_formed (paddle_env engine_lines) "in/scan.png"
           small_scan (page 800 600)
           [[(box, "Invoice", 9 # 10); (box, "  ", 1 # 2); (box, "Total", 1%Q)]]).
  - vm_compute. reflexivity.
  - unfold Paddle.default_max_size. simpl. lia.
  - reflexivity.
Defined.

(** X10 on [small_scan]. *)
Lemma processed_file_on_sample :
  exists W' data,
    Paddle.process_file (paddle_env engine_lines) "out" "in/scan.png" small_scan
    = (Ok true, W') /\
    truthy (Some data) = true /\
    snd (json_tokens (data_json Paddle.doc_json data)) = true /\
    fs W' !! output_path "out" "in/scan.png"
    = Some (CText (fst (json_tokens (data_json Paddle.doc_json data)))) /\
    ((exists d W1,
        Paddle.process_image (paddle_env engine_lines) "in/scan.png" small_scan
        = (Ok (Some d), W1) /\ data = Single d) \/
     (exists docs W1,
        Paddle.process_pdf (paddle_env engine_lines) "in/scan.png" small_scan
        = (Ok (Some docs), W1) /\ data = Pages docs)).
Proof.
  eexists.
  refine (let H := _ in
          match processed_file_has_complete_artifact
                  (paddle_env engine_lines) "out" "in/scan.png" small_scan _ H
          with
          | ex_intro _ data P => ex_intro _ data (conj H P)
          end).
  vm_compute. reflexivity.
Defined.

(** X11 on an image and a PDF that are both called [scan]. *)
Lemma later_artifact_on_sample :
  output_path "out" "in/scan.png" = output_path "out" "in/scan.pdf" /\
  snd (Paddle.save_results "out" (Some (Pages [small_scan_doc])) "in/scan.pdf"
         (snd (Paddle.save_results "out" (Some (Single small_scan_doc))
                 "in/scan.png" small_scan)))
  = set_fs (insert (output_path "out" "in/scan.pdf")
              (CText (fst (json_tokens
                             (data_json Paddle.doc_json
                                (Pages [small_scan_doc])))))) small_scan.
Proof.
  apply (later_artifact_replaces_earlier "out" (Single small_scan_doc)
           (Pages [small_scan_doc]) "in/scan.png" "in/scan.pdf" small_scan
           (snd (Paddle.save_results "out" (Some (Single small_scan_doc))
                   "in/scan.png" small_scan))).
  - reflexivity.
  - vm_compute. reflexivity.
  - vm_compute. reflexivity.
Defined.

(** X12 on the PDF without pages. *)
Lemma paddle_empty_pdf_on_sample :
  Paddle.process_file (paddle_env engine_lines) "out" (path_join "in" "blank.pdf")
    empty_pdf_dir = (Ok false, empty_pdf_dir) /\
  Paddle.process_entries (paddle_env engine_lines) "out" "in" ["blank.pdf"]
    (0, 0)%nat empty_pdf_dir =
  Paddle.process_entries (paddle_env engine_lines) "out" "in" []
    (0, 1)%nat empty_pdf_dir.
Proof.
  apply (paddle_empty_pdf_fails (paddle_env engine_lines) "out" "in" "blank.pdf"
           [] 0%nat 0%nat empty_pdf_dir).
  - vm_compute. reflexivity.
  - vm_compute. reflexivity.
Defined.

(** X13 on the directory of the example. *)
Lemma paddle_batch_footprint_on_sample :
  (forall p, lacks "/" p = false ->
     (forall name, name ∈ ["invoice.png"; "receipt.pdf"] ->
                   p <> output_path "out" (path_join "in" name)) ->
     fs (snd (Paddle.process_entries (paddle_env engine_lines) "out" "in"
                ["invoice.png"; "receipt.pdf"] (0, 0)%nat invoice_and_receipt))
       !! p = fs invoice_and_receipt !! p) /\
  locked (snd (Paddle.process_entries (paddle_env engine_lines) "out" "in"
                 ["invoice.png"; "receipt.pdf"] (0, 0)%nat invoice_and_receipt))
  = locked invoice_and_receipt.
Proof.
  apply (paddle_batch_footprint (paddle_env engine_lines) "out" "in"
           ["invoice.png"; "receipt.pdf"] (0, 0)%nat invoice_and_receipt
           (fst (Paddle.process_entries (paddle_env engine_lines) "out" "in"
                   ["invoice.png"; "receipt.pdf"] (0, 0)%nat
                   invoice_and_receipt))).
  apply surjective_pairing.
Defined.

(** X14 on [mixed_dir]: three regular files, three counted. *)
Lemma paddle_counts_on_sample :
  Paddle.process_entries (paddle_env engine_lines) "out" "in"
    ["notes.txt"; "bad.png"; "scan.png"] (0, 0)%nat mixed_dir
  = (Ok (1, 2)%nat,
     snd (Paddle.process_entries (paddle_env engine_lines) "out" "in"
            ["notes.txt"; "bad.png"; "scan.png"] (0, 0)%nat mixed_dir)) /\
  (1 + 2 = 0 + 0 + length ["notes.txt"; "bad.png"; "scan.png"])%nat.
Proof.
  assert (H : Paddle.process_entries (paddle_env engine_lines) "out" "in"
                ["notes.txt"; "bad.png"; "scan.png"] (0, 0)%nat mixed_dir
              = (Ok (1, 2)%nat,
                 snd (Paddle.process_entries (paddle_env engine_lines) "out" "in"
                        ["notes.txt"; "bad.png"; "scan.png"] (0, 0)%nat
                        mixed_dir)))
    by (vm_compute; reflexivity).
  split; [exact H |].
  eapply (paddle_counts_every_file (paddle_env engine_lines) "out" "in"
            ["notes.txt"; "bad.png"; "scan.png"] ltac:(discriminate)
            0%nat 0%nat mixed_dir 1%nat 2%nat); [| exact H].
  intros name Hn.
  repeat (apply elem_of_cons in Hn as [-> | Hn]);
    try (eexists; split; [vm_compute; reflexivity | exact I]).
  apply not_elem_of_nil in Hn. destruct Hn.
Defined.

(** X16 on the input directory with one image. *)
Lemma paddle_main_confined_on_sample :
  (forall p, String.prefix Paddle.default_output_dir p = false ->
             lacks "/" p = false ->
             fs (snd (Paddle.main (paddle_env engine_lines) purchases)) !! p
             = fs purchases !! p) /\
  (forall p c, lacks "/" p = false -> fs purchases !! p = Some c ->
     exists c', fs (snd (Paddle.main (paddle_env engine_lines) purchases)) !! p
                = Some c' /\ (regular c -> regular c')) /\
  locked (snd (Paddle.main (paddle_env engine_lines) purchases))
  = locked purchases.
Proof.
  apply (paddle_main_confined (paddle_env engine_lines) purchases
           (fst (Paddle.main (paddle_env engine_lines) purchases))).
  apply surjective_pairing.
Defined.

(** X18 on the two-page PDF of the example. *)
Lemma tesseract_pdf_success_on_sample :
  exists docs,
    Tesseract.process_pdf tesseract_env "in/receipt.pdf" invoice_and_receipt
    = (Ok (Some docs),
       later (length [page 1654 2339; page 1654 2339]) invoice_and_receipt) /\
    length docs = length [page 1654 2339; page 1654 2339] /\
    forall j img, [page 1654 2339; page 1654 2339] !! j = Some img ->
      exists d, docs !! j = Some d /\
                Tesseract.image_to_string tesseract_env img
                = Ok (Tesseract.text d) /\
                Tesseract.filename d = basename "in/receipt.pdf" /\
                Tesseract.filetype d = "pdf" /\
                Tesseract.page_number d = Some (j + 1)%nat /\
                Tesseract.timestamp d = (clock invoice_and_receipt + j)%nat /\
                Tesseract.image_size d = img_size img /\
                Tesseract.image_mode d = img_mode img /\
                Tesseract.ocr_engine d = "Tesseract " +:+ "5.3.0".
Proof.
  apply (tesseract_pdf_success tesseract_env "in/receipt.pdf" "5.3.0"
           [page 1654 2339; page 1654 2339] invoice_and_receipt).
  - vm_compute. reflexivity.
  - reflexivity.
  - intros img _. exists "Invoice". reflexivity.
Defined.

(** X19 on the two-page PDF whose second page is not recognised. *)
Lemma tesseract_pdf_all_or_nothing_on_sample :
  exists W',
    Tesseract.process_pdf (tesseract_env_fails_on 20) "in/doc.pdf" two_page_pdf
    = (Ok None, W') /\
    fs W' = fs two_page_pdf /\
    (file_ext "in/doc.pdf" = ".pdf" ->
     Tesseract.process_single_file (tesseract_env_fails_on 20) "in/doc.pdf"
       two_page_pdf = (Ok None, W')).
Proof.
  apply (tesseract_pdf_all_or_nothing (tesseract_env_fails_on 20) "in/doc.pdf"
           [page 10 10; page 20 20] two_page_pdf (page 20 20)
           (Exception "recognition failed")).
  - vm_compute. reflexivity.
  - right. left.
  - reflexivity.
Defined.

(** X20 on the PDF without pages. *)
Lemma tesseract_empty_pdf_on_sample :
  Tesseract.process_single_file tesseract_env (path_join "in" "blank.pdf")
    empty_pdf_dir = (Ok (Some (Pages [])), empty_pdf_dir) /\
  Tesseract.process_entries tesseract_env "out" "in" ["blank.pdf"] (0, 0)%nat
    empty_pdf_dir =
  Tesseract.process_entries tesseract_env "out" "in" [] (0, 1)%nat
    empty_pdf_dir.
Proof.
  apply (tesseract_empty_pdf_skipped tesseract_env "out" "in" "blank.pdf" []
           0%nat 0%nat empty_pdf_dir).
  - vm_compute. reflexivity.
  - vm_compute. reflexivity.
Defined.

(** X21 on [mixed_dir] with a version object: nothing is processed,
    the sound image [scan.png] included. *)
Lemma tesseract_version_object_on_sample :
  Tesseract.process_directory tesseract_env_version_object "out" "in" mixed_dir
  = (Ok false,
     snd (Tesseract.process_directory tesseract_env_version_object "out" "in"
            mixed_dir)) /\
  false = false /\
  fs (snd (Tesseract.process_directory tesseract_env_version_object "out" "in"
             mixed_dir))
  = fs mixed_dir.
Proof.
  assert (H : Tesseract.process_directory tesseract_env_version_object "out" "in"
                mixed_dir
              = (Ok false,
                 snd (Tesseract.process_directory tesseract_env_version_object
                        "out" "in" mixed_dir)))
    by (vm_compute; reflexivity).
  split; [exact H |].
  apply (tesseract_needs_string_version tesseract_env_version_object "out" "in"
           mixed_dir false _ ltac:(intros s; discriminate) H).
Defined.


(** X23 on [mixed_dir]. *)
Lemma tesseract_batch_footprint_on_sample :
  (forall p, (forall name, name ∈ ["notes.txt"; "bad.png"; "scan.png"] ->
                           p <> output_path "out" (path_join "in" name)) ->
     fs (snd (Tesseract.process_entries tesseract_env "out" "in"
                ["notes.txt"; "bad.png"; "scan.png"] (0, 0)%nat mixed_dir)) !! p
     = fs mixed_dir !! p) /\
  (forall p c, fs mixed_dir !! p = Some c ->
     exists c',
       fs (snd (Tesseract.process_entries tesseract_env "out" "in"
                  ["notes.txt"; "bad.png"; "scan.png"] (0, 0)%nat mixed_dir)) !! p
       = Some c' /\ (regular c -> regular c')) /\
  locked (snd (Tesseract.process_entries tesseract_env "out" "in"
                 ["notes.txt"; "bad.png"; "scan.png"] (0, 0)%nat mixed_dir))
  = locked mixed_dir.
Proof.
  apply (tesseract_batch_footprint tesseract_env "out" "in"
           ["notes.txt"; "bad.png"; "scan.png"] (0, 0)%nat mixed_dir
           (fst (Tesseract.process_entries tesseract_env "out" "in"
                   ["notes.txt"; "bad.png"; "scan.png"] (0, 0)%nat mixed_dir))).
  apply surjective_pairing.
Defined.

(** X24 on [mixed_dir]: three regular files, three counted. *)
Lemma tesseract_counts_on_sample :
  Tesseract.process_entries tesseract_env "out" "in"
    ["notes.txt"; "bad.png"; "scan.png"] (0, 0)%nat mixed_dir
  = (Ok (1, 2)%nat,
     snd (Tesseract.process_entries tesseract_env "out" "in"
            ["notes.txt"; "bad.png"; "scan.png"] (0, 0)%nat mixed_dir)) /\
  (1 + 2 = 0 + 0 + length ["notes.txt"; "bad.png"; "scan.png"])%nat.
Proof.
  assert (H : Tesseract.process_entries tesseract_env "out" "in"
                ["notes.txt"; "bad.png"; "scan.png"] (0, 0)%nat mixed_dir
              = (Ok (1, 2)%nat,
                 snd (Tesseract.process_entries tesseract_env "out" "in"
                        ["notes.txt"; "bad.png"; "scan.png"] (0, 0)%nat
                        mixed_dir)))
    by (vm_compute; reflexivity).
  split; [exact H |].
  eapply (tesseract_counts_every_file tesseract_env "out" "in"
            ["notes.txt"; "bad.png"; "scan.png"]
            0%nat 0%nat mixed_dir 1%nat 2%nat); [| exact H].
  intros name Hn.
  repeat (apply elem_of_cons in Hn as [-> | Hn]);
    try (eexists; split; [vm_compute; reflexivity | exact I]).
  apply not_elem_of_nil in Hn. destruct Hn.
Defined.

(** X26 on two passes over the input directory with one image. *)
Lemma tesseract_main_confined_on_sample :
  (forall p, String.prefix Tesseract.default_output_dir p = false ->
             fs (snd (Tesseract.main tesseract_env 2 purchases)) !! p
             = fs purchases !! p) /\
  (forall p c, fs purchases !! p = Some c ->
     exists c', fs (snd (Tesseract.main tesseract_env 2 purchases)) !! p
                = Some c' /\ (regular c -> regular c')) /\
  locked (snd (Tesseract.main tesseract_env 2 purchases)) = locked purchases.
Proof.
  apply (tesseract_main_confined tesseract_env 2 purchases
           (fst (Tesseract.main tesseract_env 2 purchases))).
  apply surjective_pairing.
Defined.

End FurtherSamples.
